(** * Verification of the demonstration scripts of leostimpfle.github.io

    Two scripts are embedded:
    - [_code/2024-02-03-non-separating_commas.py]: the interior-quote repair
      ([pattern], [repl], [re.sub]) and the two calls of [pd.read_csv];
    - [_code/2024-02-10-fixed_effects.py]: the synthetic panel generator
      ([Cluster], [Individual], [Sample]) and the demeaning of its driver.

    Text is a [list ascii] (a Python [str] restricted to one-byte characters),
    Python integers are [Z], raised exceptions are the [Raise] case of
    [result]. *)

From Stdlib Require Import String Ascii ZArith QArith Qcanon Bool Arith Lia List.
From Stdlib Require Import Sorting.Sorted Sorting.Permutation DecimalString Finite.
Import ListNotations.
Close Scope Qc_scope.
Close Scope Q_scope.

Set Implicit Arguments.

(** ** Python values shared by the two scripts *)

Definition text := list ascii.

Definition str (s : string) : text := list_ascii_of_string s.

(** The exception classes the scripts can meet. *)
Inductive exn :=
| TypeError
| AttributeError
| ValueError
| NotImplementedError
| ParserError (msg : text)
| EmptyDataError.

Inductive result (A : Type) :=
| Ok (a : A)
| Raise (e : exn).

Arguments Ok {A} a.
Arguments Raise {A} e.

Definition rbind {A B} (r : result A) (f : A -> result B) : result B :=
  match r with
  | Ok a => f a
  | Raise e => Raise e
  end.

(** A list of optional values, when none is missing. *)
Fixpoint all_some {A} (l : list (option A)) : option (list A) :=
  match l with
  | [] => Some []
  | None :: _ => None
  | Some a :: rest => option_map (cons a) (all_some rest)
  end.

Definition dquote : ascii := "034"%char.
Definition squote : ascii := "'"%char.
Definition comma : ascii := ","%char.
Definition newline : ascii := "010"%char.
Definition cr : ascii := "013"%char.
Definition space : ascii := " "%char.
Definition tab : ascii := "009"%char.

(** * Part 1: the interior-quote repair *)

Module Re.

(** The fragment of Python's [re] syntax that [pattern] is written in: literal
    characters, a negated one-character set, the anchors [^] and [$] (without
    [re.MULTILINE]), concatenation, alternation, the greedy repetitions [*]
    and [+] of a character set, named groups and negative lookahead. *)
Inductive charset :=
| Only (c : ascii)
| Except (c : ascii).

Definition mem (cs : charset) (c : ascii) : bool :=
  match cs with
  | Only d => Ascii.eqb c d
  | Except d => negb (Ascii.eqb c d)
  end.

Inductive regex :=
| Chr (cs : charset)
| Bol
| Eol
| Cat (r1 r2 : regex)
| Alt (r1 r2 : regex)
| Rep0 (cs : charset)
| Rep1 (cs : charset)
| Group (name : string) (r : regex)
| NotAhead (r : regex).

(** A position in the subject string: the characters already passed (most
    recent first), the characters still ahead, and the groups closed so far
    (most recent first, so that a lookup gives a group's last capture). *)
Record mstate := MState {
  before : text;
  after : text;
  groups : list (string * text)
}.

Definition consumed (st st1 : mstate) : text :=
  firstn (length (after st) - length (after st1)) (after st).

Definition close_group (name : string) (st st1 : mstate) : mstate :=
  MState (before st1) (after st1) ((name, consumed st st1) :: groups st1).

(** Greedy repetition of a character set: take as many characters as
    possible, give one back at a time while the rest of the pattern fails. *)
Fixpoint rep (cs : charset) (k : mstate -> option mstate)
    (bef aft : text) (g : list (string * text)) : option mstate :=
  match aft with
  | c :: rest =>
      if mem cs c then
        match rep cs k (c :: bef) rest g with
        | Some r => Some r
        | None => k (MState bef aft g)
        end
      else k (MState bef aft g)
  | [] => k (MState bef aft g)
  end.

(** The backtracking matcher, in continuation-passing style: [k] is the rest
    of the pattern, and alternatives are tried left to right. *)
Fixpoint exec (r : regex) (st : mstate) (k : mstate -> option mstate)
    : option mstate :=
  match r with
  | Chr cs =>
      match after st with
      | c :: rest =>
          if mem cs c then k (MState (c :: before st) rest (groups st))
          else None
      | [] => None
      end
  | Bol =>
      match before st with
      | [] => k st
      | _ :: _ => None
      end
  | Eol =>
      match after st with
      | [] => k st
      | [c] => if Ascii.eqb c newline then k st else None
      | _ => None
      end
  | Cat r1 r2 => exec r1 st (fun st1 => exec r2 st1 k)
  | Alt r1 r2 =>
      match exec r1 st k with
      | Some res => Some res
      | None => exec r2 st k
      end
  | Rep0 cs => rep cs k (before st) (after st) (groups st)
  | Rep1 cs =>
      match after st with
      | c :: rest =>
          if mem cs c then rep cs k (c :: before st) rest (groups st)
          else None
      | [] => None
      end
  | Group name r1 => exec r1 st (fun st1 => k (close_group name st st1))
  | NotAhead r1 =>
      match exec r1 st (fun st1 => Some st1) with
      | Some _ => None
      | None => k st
      end
  end.

(** A match object: where the match starts and where it ends; the end state
    carries the captures. *)
Record match_obj := Match {
  m_start : mstate;
  m_end : mstate
}.

Fixpoint lookup (name : string) (g : list (string * text)) : option text :=
  match g with
  | [] => None
  | (n, v) :: g' => if String.eqb n name then Some v else lookup name g'
  end.

(** [m.group(name)]: [None] for a group that took no part in the match. *)
Definition group (m : match_obj) (name : string) : option text :=
  lookup name (groups (m_end m)).

(** [m.group(0)] *)
Definition group0 (m : match_obj) : text := consumed (m_start m) (m_end m).

Definition is_empty (m : match_obj) : bool :=
  Nat.eqb (length (after (m_end m))) (length (after (m_start m))).

(** One attempt at one position.  [must_advance] is the flag [re.sub] sets
    after an empty match: an empty match is then refused at this position. *)
Definition match_at (p : regex) (must_advance : bool) (bef aft : text)
    : option mstate :=
  exec p (MState bef aft [])
    (fun st1 =>
       if must_advance && Nat.eqb (length (after st1)) (length aft)
       then None else Some st1).

(** The search loop: the leftmost position with a match wins. *)
Fixpoint search (p : regex) (must_advance : bool) (bef aft : text)
    : option match_obj :=
  match match_at p must_advance bef aft with
  | Some e => Some (Match (MState bef aft []) e)
  | None =>
      match aft with
      | [] => None
      | c :: rest => search p false (c :: bef) rest
      end
  end.

(** [re.sub(pattern, repl, string)] with a callable [repl]: the text before
    each match is copied, the match is replaced by what [repl] returns, and
    the text after the last match is copied.  [None] only when [fuel] runs
    out; an exception of [repl] propagates. *)
Fixpoint subx (fuel : nat) (p : regex) (repl : match_obj -> result text)
    (must_advance : bool) (bef aft : text) : option (result text) :=
  match fuel with
  | O => None
  | S fuel' =>
      match search p must_advance bef aft with
      | None => Some (Ok aft)
      | Some m =>
          let skipped := consumed (MState bef aft []) (m_start m) in
          match repl m with
          | Raise e => Some (Raise e)
          | Ok item =>
              match subx fuel' p repl (is_empty m)
                      (before (m_end m)) (after (m_end m)) with
              | None => None
              | Some (Raise e) => Some (Raise e)
              | Some (Ok rest) => Some (Ok (skipped ++ item ++ rest))
              end
          end
      end
  end.

Definition sub (p : regex) (repl : match_obj -> result text) (s : text)
    : option (result text) :=
  subx (2 * length s + 2) p repl false [] s.

End Re.

Module Commas.
Import Re.

(** The three-line sample of the script. *)
Definition sample : text :=
  str "column1, column2, column3" ++ [newline] ++
  str "1," ++ [dquote] ++ str "text without quote, but comma" ++ [dquote]
    ++ str ", 1" ++ [newline] ++
  str "2," ++ [dquote] ++ str "text quoting " ++ [dquote]
    ++ str "a sentence, words, and more" ++ [dquote]
    ++ str " in a single cell" ++ [dquote] ++ str ", 2" ++ [newline].

(** The pattern of the script: group keep1 is either the start of the string
    or a comma, a double quote and any run of characters other than a double
    quote; innerQuote1 is a double quote not followed by a comma; keep2 is a
    non-empty run without double quotes; innerQuote2 is a double quote; keep3
    is either a run without double quotes closed by a double quote and a
    comma, or the end of the string. *)
Definition pattern : regex :=
  Cat (Group "keep1"
         (Alt Bol
              (Cat (Chr (Only comma))
                   (Cat (Chr (Only dquote)) (Rep0 (Except dquote))))))
 (Cat (Group "innerQuote1" (Chr (Only dquote)))
 (Cat (NotAhead (Chr (Only comma)))
 (Cat (Group "keep2" (Rep1 (Except dquote)))
 (Cat (Group "innerQuote2" (Chr (Only dquote)))
      (Group "keep3"
         (Alt (Cat (Rep0 (Except dquote))
                   (Cat (Chr (Only dquote)) (Chr (Only comma))))
              Eol)))))).

(** [string.replace]: every double quote becomes a single quote. *)
Definition deal_with_inner_quotes (s : text) : text :=
  map (fun c => if Ascii.eqb c dquote then squote else c) s.

(** [''.join(parts)]: a part that is [None] is a [TypeError]. *)
Fixpoint join (parts : list (option text)) : result text :=
  match parts with
  | [] => Ok []
  | None :: _ => Raise TypeError
  | Some p :: rest => rbind (join rest) (fun r => Ok (p ++ r))
  end.

(** [repl]: the list of parts is built first, so a missing inner-quote group
    fails on [None.replace] before [join] is reached. *)
Definition repl (m : match_obj) : result text :=
  match group m "innerQuote1", group m "innerQuote2" with
  | Some q1, Some q2 =>
      join [ group m "keep1";
             Some (deal_with_inner_quotes q1);
             group m "keep2";
             Some (deal_with_inner_quotes q2);
             group m "keep3" ]
  | _, _ => Raise AttributeError
  end.

(** [sample_fixed = re.sub(pattern, repl, sample)] *)
Definition repair (s : text) : option (result text) := sub pattern repl s.

Definition sample_fixed_text : text :=
  str "column1, column2, column3" ++ [newline] ++
  str "1," ++ [dquote] ++ str "text without quote, but comma" ++ [dquote]
    ++ str ", 1" ++ [newline] ++
  str "2," ++ [dquote]
    ++ str "text quoting 'a sentence, words, and more' in a single cell"
    ++ [dquote] ++ str ", 2" ++ [newline].

End Commas.


(** * Part 2: the table parser the script calls

    [pd.read_csv] is library code; the model below follows the states of its
    tokenizer for the dialect the script uses (the defaults: comma, double
    quote with doubling, no escape character, blank lines skipped, the first
    line as header) and the conversion of a column of integers.  It is
    partial: [read_csv] answers [None] for a text outside this fragment (a
    carriage return, an implicit index, a column that is neither integers
    nor plain text, ...), and no statement is made about such a text. *)

Module Csv.

Inductive tstate :=
| START_RECORD
| START_FIELD
| IN_FIELD
| IN_QUOTED_FIELD
| QUOTE_IN_QUOTED_FIELD
| WHITESPACE_LINE.

(** The tokenizer: its state, the characters of the field being read (most
    recent first; in [WHITESPACE_LINE] the blanks read so far), the fields of
    the line being read and the finished lines (most recent first), and the
    count of lines of the file used in messages. *)
Record tokenizer := Tokenizer {
  state : tstate;
  field : text;
  line : list text;
  lines : list (list text);
  file_lines : nat
}.

Definition init : tokenizer := Tokenizer START_RECORD [] [] [] 0.

Definition dec (n : nat) : text :=
  str (DecimalString.NilZero.string_of_uint (Nat.to_uint n)).

Definition too_many_fields (expected line_no saw : nat) : exn :=
  ParserError
    (str "Error tokenizing data. C error: Expected " ++ dec expected
       ++ str " fields in line " ++ dec line_no ++ str ", saw " ++ dec saw
       ++ [newline]).

Definition eof_in_string (row : nat) : exn :=
  ParserError
    (str "Error tokenizing data. C error: EOF inside string starting at row "
       ++ dec row).

Definition push_char (t : tokenizer) (c : ascii) (s : tstate) : tokenizer :=
  Tokenizer s (c :: field t) (line t) (lines t) (file_lines t).

Definition set_state (t : tokenizer) (s : tstate) : tokenizer :=
  Tokenizer s (field t) (line t) (lines t) (file_lines t).

Definition end_field (t : tokenizer) : tokenizer :=
  Tokenizer (state t) [] (rev (field t) :: line t) (lines t) (file_lines t).

(** The end of a line.  From the second data line on, a line with more fields
    than the line before it is an error; a shorter data line is filled up
    with empty fields. *)
Definition end_line (t : tokenizer) : result tokenizer :=
  let fields := length (line t) in
  match lines t with
  | [] =>
      Ok (Tokenizer START_RECORD [] [] [rev (line t)] (S (file_lines t)))
  | prev :: _ =>
      let ex_fields := length prev in
      if Nat.ltb 1 (length (lines t)) && Nat.ltb ex_fields fields then
        Raise (too_many_fields ex_fields (S (file_lines t)) fields)
      else
        Ok (Tokenizer START_RECORD [] []
              ((rev (line t) ++ repeat [] (ex_fields - fields)) :: lines t)
              (S (file_lines t)))
  end.

Definition in_field (t : tokenizer) (c : ascii) : result tokenizer :=
  if Ascii.eqb c newline then end_line (end_field t)
  else if Ascii.eqb c comma then Ok (set_state (end_field t) START_FIELD)
  else Ok (push_char t c IN_FIELD).

Definition start_field (t : tokenizer) (c : ascii) : result tokenizer :=
  if Ascii.eqb c newline then end_line (end_field t)
  else if Ascii.eqb c dquote then Ok (set_state t IN_QUOTED_FIELD)
  else if Ascii.eqb c comma then Ok (set_state (end_field t) START_FIELD)
  else Ok (push_char t c IN_FIELD).

Definition is_blank (c : ascii) : bool :=
  Ascii.eqb c space || Ascii.eqb c tab.

Definition step (t : tokenizer) (c : ascii) : result tokenizer :=
  match state t with
  | START_RECORD =>
      if Ascii.eqb c newline then
        Ok (Tokenizer START_RECORD (field t) (line t) (lines t)
              (S (file_lines t)))
      else if is_blank c then Ok (push_char t c WHITESPACE_LINE)
      else start_field t c
  | WHITESPACE_LINE =>
      if Ascii.eqb c newline then
        Ok (Tokenizer START_RECORD [] (line t) (lines t) (S (file_lines t)))
      else if is_blank c then Ok (push_char t c WHITESPACE_LINE)
      else in_field t c
  | START_FIELD => start_field t c
  | IN_FIELD => in_field t c
  | IN_QUOTED_FIELD =>
      if Ascii.eqb c dquote then Ok (set_state t QUOTE_IN_QUOTED_FIELD)
      else Ok (push_char t c IN_QUOTED_FIELD)
  | QUOTE_IN_QUOTED_FIELD =>
      if Ascii.eqb c dquote then Ok (push_char t c IN_QUOTED_FIELD)
      else if Ascii.eqb c comma then Ok (set_state (end_field t) START_FIELD)
      else if Ascii.eqb c newline then end_line (end_field t)
      else Ok (push_char t c IN_FIELD)
  end.

Definition handle_eof (t : tokenizer) : result tokenizer :=
  match state t with
  | START_RECORD | WHITESPACE_LINE => Ok t
  | IN_QUOTED_FIELD => Raise (eof_in_string (file_lines t))
  | IN_FIELD | START_FIELD | QUOTE_IN_QUOTED_FIELD => end_line (end_field t)
  end.

Fixpoint tokenize_from (t : tokenizer) (s : text) : result tokenizer :=
  match s with
  | [] => handle_eof t
  | c :: rest => rbind (step t c) (fun t' => tokenize_from t' rest)
  end.

(** The lines of the text, first line first. *)
Definition tokenize (s : text) : result (list (list text)) :=
  rbind (tokenize_from init s) (fun t => Ok (rev (lines t))).

(** *** Conversion of the columns *)

Definition is_space (c : ascii) : bool :=
  let n := nat_of_ascii c in
  Nat.eqb n 32 || (Nat.leb 9 n && Nat.leb n 13).

Definition is_digit (c : ascii) : bool :=
  let n := nat_of_ascii c in Nat.leb 48 n && Nat.leb n 57.

Fixpoint skip_spaces (s : text) : text :=
  match s with
  | c :: rest => if is_space c then skip_spaces rest else s
  | [] => []
  end.

(** The digits at the head of [s], read in base ten after [acc], and what
    follows them. *)
Fixpoint digits (acc : Z) (s : text) : Z * text :=
  match s with
  | c :: rest =>
      if is_digit c
      then digits (10 * acc + Z.of_nat (nat_of_ascii c - 48)) rest
      else (acc, s)
  | [] => (acc, [])
  end.

(** A field as a signed integer: blanks, an optional sign, at least one
    digit, blanks, and nothing else. *)
Definition str_to_int (s : text) : option Z :=
  let s1 := skip_spaces s in
  let '(neg, s2) :=
    match s1 with
    | c :: rest =>
        if Ascii.eqb c "-"%char then (true, rest)
        else if Ascii.eqb c "+"%char then (false, rest)
        else (false, s1)
    | [] => (false, s1)
    end in
  match s2 with
  | c :: _ =>
      if is_digit c then
        let '(n, s3) := digits 0 s2 in
        match skip_spaces s3 with
        | [] => Some (if neg then (- n)%Z else n)
        | _ :: _ => None
        end
      else None
  | [] => None
  end.

Definition in_int64 (z : Z) : bool :=
  ((- 2 ^ 63 <=? z) && (z <=? 2 ^ 63 - 1))%Z.

Definition text_eqb (a b : text) : bool :=
  String.eqb (string_of_list_ascii a) (string_of_list_ascii b).

(** The fields read as a missing value, and the fields read as booleans. *)
Definition na_values : list text :=
  [] :: map str
          [ "#N/A"; "#N/A N/A"; "#NA"; "-1.#IND"; "-1.#QNAN"; "-NaN"; "-nan";
            "1.#IND"; "1.#QNAN"; "<NA>"; "N/A"; "NA"; "NULL"; "NaN"; "None";
            "n/a"; "nan"; "null" ]%string.

Definition bool_values : list text :=
  map str [ "True"; "TRUE"; "true"; "False"; "FALSE"; "false" ]%string.

(** A field that is certainly kept as text: not a missing value, not a
    boolean, and not the start of a number ([inf] and [nan] included). *)
Definition plain_text (s : text) : bool :=
  negb (existsb (text_eqb s) na_values)
  && negb (existsb (text_eqb s) bool_values)
  && match skip_spaces s with
     | c :: _ =>
         negb (is_digit c
               || existsb (Ascii.eqb c)
                    [ "+"; "-"; "."; "i"; "I"; "n"; "N" ]%char)
     | [] => false
     end.

Inductive column :=
| ColInt (values : list Z)
| ColObject (values : list text).

(** The inferred column: 64-bit integers when every field is one, text when
    every field is plain text; other columns are outside the model. *)
Definition convert (fields : list text) : option column :=
  match all_some (map str_to_int fields) with
  | Some zs =>
      if forallb in_int64 zs then Some (ColInt zs) else None
  | None =>
      if forallb plain_text fields then Some (ColObject fields) else None
  end.

Record frame := Frame {
  names : list text;
  columns : list column
}.

Fixpoint distinct (l : list text) : bool :=
  match l with
  | [] => true
  | a :: rest => negb (existsb (text_eqb a) rest) && distinct rest
  end.

Definition has_cr (s : text) : bool := existsb (Ascii.eqb cr) s.

(** Column [j] of the data lines. *)
Definition column_fields (rows : list (list text)) (j : nat) : list text :=
  map (fun r => nth j r []) rows.

(** [pd.read_csv(io.StringIO(s))] *)
Definition read_csv (s : text) : option (result frame) :=
  if has_cr s then None else
  match tokenize s with
  | Raise e => Some (Raise e)
  | Ok [] => Some (Raise EmptyDataError)
  | Ok (header :: rows) =>
      let width := length header in
      if negb (distinct header) || existsb (text_eqb []) header
         || existsb (fun r => negb (Nat.eqb (length r) width)) rows
         || Nat.eqb (length rows) 0
      then None
      else
        option_map (fun cols => Ok (Frame header cols))
          (all_some (map (fun j => convert (column_fields rows j))
                       (seq 0 width)))
  end.

(** The cells of a table. *)
Inductive cell :=
| Int (z : Z)
| Str (s : text).

Definition column_cell (c : column) (i : nat) : option cell :=
  match c with
  | ColInt zs => option_map Int (nth_error zs i)
  | ColObject ss => option_map Str (nth_error ss i)
  end.

(** [df.iloc[i, j]] *)
Definition iloc (df : frame) (i j : nat) : option cell :=
  match nth_error (columns df) j with
  | Some c => column_cell c i
  | None => None
  end.

Definition column_length (c : column) : nat :=
  match c with
  | ColInt zs => length zs
  | ColObject ss => length ss
  end.

(** [df.shape] *)
Definition shape (df : frame) : nat * nat :=
  (match columns df with
   | c :: _ => column_length c
   | [] => 0
   end,
   length (columns df)).

End Csv.

Module Script.
Import Re Commas Csv.

(** What running a piece of the script leaves behind: the lines printed and
    the exception that escaped, if any. *)
Record outcome := Outcome {
  printed : list text;
  escaped : option exn
}.

(** The [try] block of the script: only a [ParserError] is caught. *)
Definition attempt_parse (s : text) : option outcome :=
  match read_csv s with
  | None => None
  | Some (Ok _) => Some (Outcome [] None)
  | Some (Raise (ParserError _)) =>
      Some (Outcome [str "Parser unable to read file"] None)
  | Some (Raise e) => Some (Outcome [] (Some e))
  end.

(** The last two lines of the script. *)
Definition repair_and_parse (s : text) : option (result frame) :=
  match repair s with
  | None => None
  | Some (Raise e) => Some (Raise e)
  | Some (Ok fixed) => read_csv fixed
  end.

End Script.


(** * Part 3: the synthetic panel generator

    The generator computes with double-precision numbers and draws from
    NumPy's global generator.  Both are interfaces here: [Float] gives the
    arithmetic the script uses, [Generator] the three calls it makes
    ([np.random.seed], [np.random.uniform], [np.random.randint]).  The global
    generator is threaded through every function that touches it. *)

Module Panel.

Class Float (F : Type) := {
  of_Z : Z -> F;          (* an integer used as a float *)
  lit : Q -> F;           (* a decimal literal *)
  fadd : F -> F -> F;
  fsub : F -> F -> F;
  fmul : F -> F -> F;
  fdiv : F -> F -> F;
  fneg : F -> F;
  fleb : F -> F -> bool   (* the order [ndarray.sort] sorts by *)
}.

Class Generator (F G : Type) := {
  (* the state after [np.random.seed(s)] *)
  seed : Z -> G;
  (* [np.random.uniform(low, high)]: one draw *)
  uniform1 : F -> F -> G -> F * G;
  (* [np.random.uniform(low, high, size)] *)
  uniform : F -> F -> nat -> G -> list F * G;
  (* [np.random.randint(low, high, size)] *)
  randint : Z -> Z -> nat -> G -> list Z * G
}.

(** What the script relies on: an array of the size asked for, and integers
    in the half-open range. *)
Class GeneratorLaws (F G : Type) `{Generator F G} : Prop := {
  uniform_length : forall lo hi n g, length (fst (uniform lo hi n g)) = n;
  randint_length : forall lo hi n g, length (fst (randint lo hi n g)) = n;
  randint_range : forall lo hi n g,
    (lo < hi)%Z ->
    Forall (fun x => (lo <= x < hi)%Z) (fst (randint lo hi n g))
}.

Arguments GeneratorLaws F G {_}.

(** ** properties *)

Module PropertyAlpha.
Inductive t := A | B.
Definition value (p : t) : Z := match p with A => 2 | B => 3 end.
Definition name (p : t) : string := match p with A => "A" | B => "B" end.
End PropertyAlpha.

Module PropertyBeta.
Inductive t := A | B.
Definition value (p : t) : Q := match p with A => 1 # 2 | B => 3 # 2 end.
Definition name (p : t) : string := match p with A => "A" | B => "B" end.
End PropertyBeta.

Module PropertyDummy.
Inductive t := TRUE | FALSE.
Definition value (p : t) : Z := match p with TRUE => 1 | FALSE => 0 end.
Definition name (p : t) : string :=
  match p with TRUE => "TRUE" | FALSE => "FALSE" end.
End PropertyDummy.

(** ** cluster *)

Record Cluster := {
  property_alpha : PropertyAlpha.t;
  property_beta : PropertyBeta.t;
  property_dummy : PropertyDummy.t
}.

(** ** individual *)

Inductive Effects := Fixed | Random.

Module Noise.
Inductive t := TRUE | FALSE.
Definition value (n : t) : bool :=
  match n with TRUE => true | FALSE => false end.
End Noise.

Record Individual := {
  identifier : Z;
  cluster : Cluster;
  effects_type : Effects;
  noise : Noise.t
}.

(** The table [Individual.time_series] returns, by columns.  The first four
    are the index levels of the table as built, [Post] and [Treatment] the
    two levels appended at the end. *)
Record DataFrame (F : Type) := {
  Year : list Z;
  alpha_label : list string;
  beta_label : list string;
  dummy_label : list string;
  Post : list bool;
  Treatment : list Z;
  Slope : list F;
  Intercept : list Z;
  FixedEffectIndividual : list F;
  FixedEffectTime : list F;
  Dependent : list F
}.

(** One row of it. *)
Record Row (F : Type) := {
  r_Year : Z;
  r_Post : bool;
  r_Treatment : Z;
  r_Slope : F;
  r_Intercept : Z;
  r_FixedEffectIndividual : F;
  r_FixedEffectTime : F;
  r_Dependent : F
}.

(** [sample.data]: the tables of the individuals one after the other, under
    the new first index level [Individual]. *)
Record Panel (F : Type) := {
  Individual_level : list Z;
  body : DataFrame F
}.

(** ** Lists as arrays *)

(** [range(a, b)] *)
Definition range (a b : Z) : list Z :=
  map (fun k => (a + Z.of_nat k)%Z) (seq 0 (Z.to_nat (b - a))).

Definition zip_with {A B C} (f : A -> B -> C) (l1 : list A) (l2 : list B)
    : list C :=
  map (fun p => f (fst p) (snd p)) (combine l1 l2).

Fixpoint insert {A} (leb : A -> A -> bool) (x : A) (l : list A) : list A :=
  match l with
  | [] => [x]
  | y :: rest => if leb x y then x :: l else y :: insert leb x rest
  end.

(** [ndarray.sort()]: the elements in ascending order. *)
Fixpoint sort {A} (leb : A -> A -> bool) (l : list A) : list A :=
  match l with
  | [] => []
  | x :: rest => insert leb x (sort leb rest)
  end.

(** [np.repeat(a, repeats)] with one count per element. *)
Definition np_repeat {A} (a : list A) (repeats : list Z) : result (list A) :=
  if negb (Nat.eqb (length a) (length repeats))
     || existsb (fun n => (n <? 0)%Z) repeats
  then Raise ValueError
  else Ok (flat_map (fun p => repeat (fst p) (Z.to_nat (snd p)))
             (combine a repeats)).

Section Generator.

Context {F G : Type} `{Float F} `{Generator F G}.

(** ** The global generator *)

(** A computation that may raise and that reads and writes the state of the
    global generator. *)
Definition M (A : Type) : Type := G -> result A * G.

Definition ret {A} (a : A) : M A := fun g => (Ok a, g).

Definition bind {A B} (m : M A) (f : A -> M B) : M B :=
  fun g =>
    match m g with
    | (Ok a, g') => f a g'
    | (Raise e, g') => (Raise e, g')
    end.

Definition lift {A} (r : result A) : M A := fun g => (r, g).

Notation "x <- m ;; k" := (bind m (fun x => k))
  (at level 61, m at next level, right associativity).

(** [np.random.seed(s)]: a seed outside 32 bits is refused. *)
Definition np_random_seed (s : Z) : M unit :=
  fun g =>
    if ((0 <=? s) && (s <? 2 ^ 32))%Z then (Ok tt, seed s)
    else (Raise ValueError, g).

Definition np_random_uniform1 (low high : F) : M F :=
  fun g => let (x, g') := uniform1 low high g in (Ok x, g').

Definition np_random_uniform (low high : F) (size : nat) : M (list F) :=
  fun g => let (x, g') := uniform low high size g in (Ok x, g').

Definition np_random_randint (low high : Z) (size : nat) : M (list Z) :=
  fun g => let (x, g') := randint low high size g in (Ok x, g').

Fixpoint mapM {A B} (f : A -> M B) (l : list A) : M (list B) :=
  match l with
  | [] => ret []
  | a :: rest => b <- f a ;; bs <- mapM f rest ;; ret (b :: bs)
  end.

(** ** individual *)

Definition slope (self : Individual) : result F :=
  match effects_type self with
  | Fixed => Ok (lit 1)
  | Random => Raise NotImplementedError
  end.

Definition intercept (self : Individual) : result Z :=
  match effects_type self with
  | Fixed => Ok (PropertyAlpha.value (property_alpha (cluster self)))
  | Random => Raise NotImplementedError
  end.

Definition _get_individual_fixed_effect (self : Individual) : M F :=
  let rng_max := 1%Z in
  let rng_min := (-1)%Z in
  _ <- np_random_seed (identifier self) ;;
  np_random_uniform1 (of_Z rng_min) (of_Z rng_max).

Definition _get_time_fixed_effect (self : Individual) (size : nat)
    : M (list F) :=
  let rng := lit 1 in
  _ <- np_random_seed 0 ;;
  data <- np_random_uniform (fneg rng) rng size ;;
  let data := sort fleb data in
  ret (rev data).

Definition _get_noise (self : Individual) (size : nat) : M (list F) :=
  s <- lift (slope self) ;;
  let rng := fmul s (lit (1 # 10)) in
  _ <- np_random_seed (2 * identifier self) ;;
  np_random_uniform (fneg rng) rng size.

(** The treatment year used when none is given. *)
Definition default_treatment_year (start_year end_year : Z) : Z :=
  (end_year - (end_year - start_year) / 2)%Z.

Definition time_series (self : Individual) (start_year end_year : Z)
    (treatment_year : option Z) : M (DataFrame F) :=
  let treatment_year :=
    match treatment_year with
    | None => default_treatment_year start_year end_year
    | Some y => y
    end in
  let time := range start_year end_year in
  let size := length time in
  let post := map (fun y => (treatment_year <=? y)%Z) time in
  let treatment :=
    map (fun p => Z.land (Z.b2z p)
                    (PropertyDummy.value (property_dummy (cluster self))))
        post in
  s <- lift (slope self) ;;
  i <- lift (intercept self) ;;
  fei <- _get_individual_fixed_effect self ;;
  fet <- _get_time_fixed_effect self size ;;
  let Slope := repeat s size in
  let Intercept := repeat i size in
  let FixedEffectIndividual := repeat fei size in
  let dependent :=
    zip_with fadd
      (zip_with fadd
         (zip_with (fun x c => fadd x (of_Z c))
            (zip_with (fun x t => fmul x (of_Z t)) Slope treatment)
            Intercept)
         FixedEffectIndividual)
      fet in
  dependent <-
    (if Noise.value (noise self)
     then n <- _get_noise self size ;; ret (zip_with fadd dependent n)
     else ret dependent) ;;
  ret {| Year := time;
         alpha_label :=
           repeat (PropertyAlpha.name (property_alpha (cluster self))) size;
         beta_label :=
           repeat (PropertyBeta.name (property_beta (cluster self))) size;
         dummy_label :=
           repeat (PropertyDummy.name (property_dummy (cluster self))) size;
         Post := post;
         Treatment := treatment;
         Slope := Slope;
         Intercept := Intercept;
         FixedEffectIndividual := FixedEffectIndividual;
         FixedEffectTime := fet;
         Dependent := dependent |}.

(** Row [i] of a table, when it has one. *)
Definition iloc (df : DataFrame F) (i : nat) : option (Row F) :=
  match nth_error (Year df) i, nth_error (Post df) i,
        nth_error (Treatment df) i, nth_error (Slope df) i,
        nth_error (Intercept df) i, nth_error (FixedEffectIndividual df) i,
        nth_error (FixedEffectTime df) i, nth_error (Dependent df) i with
  | Some y, Some p, Some t, Some s, Some c, Some fi, Some ft, Some d =>
      Some {| r_Year := y; r_Post := p; r_Treatment := t; r_Slope := s;
              r_Intercept := c; r_FixedEffectIndividual := fi;
              r_FixedEffectTime := ft; r_Dependent := d |}
  | _, _, _, _, _, _, _, _ => None
  end.

(** ** sample *)

Definition seed_clusters : list Cluster :=
  [ {| property_alpha := PropertyAlpha.A; property_beta := PropertyBeta.B;
       property_dummy := PropertyDummy.TRUE |};
    {| property_alpha := PropertyAlpha.A; property_beta := PropertyBeta.A;
       property_dummy := PropertyDummy.TRUE |};
    {| property_alpha := PropertyAlpha.B; property_beta := PropertyBeta.A;
       property_dummy := PropertyDummy.FALSE |} ].

(** The sorted repeat counts of [_init_clusters]. *)
Definition _init_repeats : M (list Z) :=
  _ <- np_random_seed 10 ;;
  repeats <- np_random_randint 3 10 (length seed_clusters) ;;
  ret (sort Z.leb repeats).

Definition _init_clusters : M (list Cluster) :=
  repeats <- _init_repeats ;;
  lift (np_repeat seed_clusters repeats).

Fixpoint enumerate_from {A} (i : Z) (l : list A) : list (Z * A) :=
  match l with
  | [] => []
  | a :: rest => (i, a) :: enumerate_from (i + 1)%Z rest
  end.

Definition _init_individuals (effects : Effects) (noise : Noise.t)
    (clusters : list Cluster) : list Individual :=
  map (fun p => {| identifier := fst p; cluster := snd p;
                   effects_type := effects; noise := noise |})
      (enumerate_from 0 clusters).

Definition empty_frame : DataFrame F :=
  {| Year := []; alpha_label := []; beta_label := []; dummy_label := [];
     Post := []; Treatment := []; Slope := []; Intercept := [];
     FixedEffectIndividual := []; FixedEffectTime := []; Dependent := [] |}.

Definition append_frame (a b : DataFrame F) : DataFrame F :=
  {| Year := Year a ++ Year b;
     alpha_label := alpha_label a ++ alpha_label b;
     beta_label := beta_label a ++ beta_label b;
     dummy_label := dummy_label a ++ dummy_label b;
     Post := Post a ++ Post b;
     Treatment := Treatment a ++ Treatment b;
     Slope := Slope a ++ Slope b;
     Intercept := Intercept a ++ Intercept b;
     FixedEffectIndividual :=
       FixedEffectIndividual a ++ FixedEffectIndividual b;
     FixedEffectTime := FixedEffectTime a ++ FixedEffectTime b;
     Dependent := Dependent a ++ Dependent b |}.

(** [pd.concat] of the tables keyed by the identifiers (distinct, in
    [Sample]): nothing to concatenate is an error. *)
Definition pd_concat (blocks : list (Z * DataFrame F)) : result (Panel F) :=
  match blocks with
  | [] => Raise ValueError
  | _ :: _ =>
      Ok {| Individual_level :=
              flat_map (fun b => repeat (fst b) (length (Year (snd b))))
                blocks;
            body := fold_right (fun b acc => append_frame (snd b) acc)
                      empty_frame blocks |}
  end.

(** [treatment_year] is a parameter of [_init_sample], and the call of
    [time_series] in its body does not pass it on. *)
Definition _init_sample (start_year end_year : Z) (treatment_year : option Z)
    (individuals : list Individual) : M (Panel F) :=
  blocks <-
    mapM (fun individual =>
            ts <- time_series individual start_year end_year None ;;
            ret (identifier individual, ts))
         individuals ;;
  lift (pd_concat blocks).

Record Sample := {
  clusters : list Cluster;
  individuals : list Individual;
  data : Panel F
}.

(** [Sample(start_year, end_year, treatment_year, effects, noise)] *)
Definition Sample_init (start_year end_year : Z) (treatment_year : option Z)
    (effects : Effects) (noise : Noise.t) : M Sample :=
  clusters <- _init_clusters ;;
  let individuals := _init_individuals effects noise clusters in
  data <- _init_sample start_year end_year treatment_year individuals ;;
  ret {| clusters := clusters; individuals := individuals; data := data |}.

End Generator.

(** ** main: the demeaning of the driver

    A series is the column [Dependent] of [sample.data] with, of its index,
    the two levels the driver groups by and aligns on: each row is the pair
    (Individual, Year) and the value. *)

Section Driver.

Context {F : Type} `{Float F}.

Definition Series : Type := list ((Z * Z) * F).

(** [sample.data.Dependent] *)
Definition Dependent_of (p : Panel F) : Series :=
  combine (combine (Individual_level p) (Year (body p))) (Dependent (body p)).

Definition by_Individual (ix : Z * Z) : Z := fst ix.
Definition by_Year (ix : Z * Z) : Z := snd ix.

Definition total (l : list F) : F := fold_left fadd l (of_Z 0).

Definition mean_of (l : list F) : F :=
  fdiv (total l) (of_Z (Z.of_nat (length l))).

(** [s.mean()] *)
Definition series_mean (s : Series) : F := mean_of (map snd s).

(** The rows of a group. *)
Definition group_rows (level : Z * Z -> Z) (k : Z) (s : Series) : Series :=
  filter (fun r => Z.eqb (level (fst r)) k) s.

(** [s.groupby(level).mean()]: one entry per key, the keys ascending. *)
Definition groupby_mean (level : Z * Z -> Z) (s : Series) : list (Z * F) :=
  map (fun k => (k, series_mean (group_rows level k s)))
      (sort Z.leb (nodup Z.eq_dec (map (fun r => level (fst r)) s))).

Fixpoint find_key (k : Z) (m : list (Z * F)) : option F :=
  match m with
  | [] => None
  | (k', v) :: rest => if Z.eqb k' k then Some v else find_key k rest
  end.

(** [s.subtract(other)] for [other] indexed by one level of [s]: each row
    meets the entry of its key.  A row without entry would hold a missing
    value: that is [None] here. *)
Definition subtract_level (level : Z * Z -> Z) (s : Series)
    (other : list (Z * F)) : option Series :=
  all_some
    (map (fun r => option_map (fun mu => (fst r, fsub (snd r) mu))
                     (find_key (level (fst r)) other))
         s).

(** [s.subtract(c)] for a number [c] *)
Definition subtract_scalar (s : Series) (c : F) : Series :=
  map (fun r => (fst r, fsub (snd r) c)) s.

Record Demeaned := {
  mean_individual : list (Z * F);
  mean_time : list (Z * F);
  mean : F;
  sample_individual : Series;
  sample_time : Series;
  sample_twfe : Series
}.

Definition obind {A B} (o : option A) (f : A -> option B) : option B :=
  match o with
  | Some a => f a
  | None => None
  end.

(** The block of the driver that computes the three derived series. *)
Definition demean (dependent : Series) : option Demeaned :=
  let mean_individual := groupby_mean by_Individual dependent in
  let mean_time := groupby_mean by_Year dependent in
  let mean := series_mean dependent in
  obind (subtract_level by_Individual dependent mean_individual)
    (fun sample_individual =>
  obind (subtract_level by_Year dependent mean_time)
    (fun sample_time =>
  obind (subtract_level by_Individual dependent mean_individual)
    (fun step1 =>
  obind (subtract_level by_Year step1 mean_time)
    (fun step2 =>
  Some {| mean_individual := mean_individual;
          mean_time := mean_time;
          mean := mean;
          sample_individual := sample_individual;
          sample_time := sample_time;
          sample_twfe := subtract_scalar step2 mean |})))).

End Driver.

End Panel.

(** ** An instance to compute with

    NumPy's legacy generator is the Mersenne Twister MT19937; [Mt19937]
    follows its seeding by an integer, its output function and the two
    samplers the script uses.  [Exact] computes with exact rationals where
    the script computes with doubles, so a value of the instance is the
    value of the script before rounding. *)

Module Mt19937.
Import Panel.

Definition N : nat := 624.
Definition M : nat := 397.
Definition MATRIX_A : Z := 0x9908b0df.
Definition UPPER_MASK : Z := 0x80000000.
Definition LOWER_MASK : Z := 0x7fffffff.

Definition u32 (z : Z) : Z := Z.land z 0xffffffff.

Record state := State {
  key : list Z;
  pos : nat
}.

Fixpoint seed_keys (n : nat) (p : Z) (s : Z) : list Z :=
  match n with
  | O => []
  | S n' =>
      s :: seed_keys n' (p + 1)
             (u32 (1812433253 * Z.lxor s (Z.shiftr s 30) + p + 1))
  end.

Definition mt19937_seed (s : Z) : state :=
  State (seed_keys N 0 (u32 s)) N.

Fixpoint upd (i : nat) (x : Z) (k : list Z) : list Z :=
  match k, i with
  | [], _ => []
  | _ :: rest, O => x :: rest
  | y :: rest, S i' => y :: upd i' x rest
  end.

(** One turn of the loops of the generation step: word [i] is rebuilt from
    itself, its successor and the word [M] places further, indices taken
    modulo [N] (the words below [i] are already the new ones). *)
Definition gen_word (k : list Z) (i : nat) : list Z :=
  let y := Z.lor (Z.land (nth i k 0%Z) UPPER_MASK)
                 (Z.land (nth ((i + 1) mod N) k 0%Z) LOWER_MASK) in
  upd i (Z.lxor (Z.lxor (nth ((i + M) mod N) k 0%Z) (Z.shiftr y 1))
                (if Z.odd y then MATRIX_A else 0%Z))
      k.

Definition mt19937_gen (st : state) : state :=
  State (fold_left gen_word (seq 0 N) (key st)) 0.

Definition temper (y : Z) : Z :=
  let y := Z.lxor y (Z.shiftr y 11) in
  let y := Z.lxor y (Z.land (Z.shiftl y 7) 0x9d2c5680) in
  let y := Z.lxor y (Z.land (Z.shiftl y 15) 0xefc60000) in
  Z.lxor y (Z.shiftr y 18).

Definition mt19937_next (st : state) : Z * state :=
  let st := if Nat.eqb (pos st) N then mt19937_gen st else st in
  (temper (nth (pos st) (key st) 0%Z), State (key st) (S (pos st))).

Definition mt19937_next64 (st : state) : Z * state :=
  let (hi, st1) := mt19937_next st in
  let (lo, st2) := mt19937_next st1 in
  (Z.lor (Z.shiftl hi 32) lo, st2).

(** A double in [0, 1) from 53 bits of two outputs, as a fraction. *)
Definition mt19937_next_double (st : state) : Q * state :=
  let (x, st1) := mt19937_next st in
  let (y, st2) := mt19937_next st1 in
  (Qmake (Z.shiftr x 5 * 67108864 + Z.shiftr y 6) 9007199254740992, st2).

(** The smallest mask of the form 2^k - 1 that covers [rng]. *)
Definition gen_mask (rng : Z) : Z := (2 ^ Z.log2_up (rng + 1) - 1)%Z.

(** Masked rejection: outputs are masked and refused while above [rng].  The
    library's loop has no bound; here it gives up after [fuel] refusals and
    answers 0. *)
Fixpoint bounded_masked (fuel : nat) (next : state -> Z * state)
    (rng mask : Z) (st : state) : Z * state :=
  match fuel with
  | O => (0%Z, st)
  | S fuel' =>
      let (x, st') := next st in
      let v := Z.land x mask in
      if (v <=? rng)%Z then (v, st')
      else bounded_masked fuel' next rng mask st'
  end.

Definition bounded (rng : Z) (st : state) : Z * state :=
  if (rng <=? 0)%Z then (0%Z, st)
  else if (rng <=? 0xffffffff)%Z
       then bounded_masked 128 mt19937_next rng (gen_mask rng) st
       else bounded_masked 128 mt19937_next64 rng (gen_mask rng) st.

Fixpoint fill {A} (draw : state -> A * state) (n : nat) (st : state)
    : list A * state :=
  match n with
  | O => ([], st)
  | S n' =>
      let (x, st1) := draw st in
      let (xs, st2) := fill draw n' st1 in
      (x :: xs, st2)
  end.

Section Samplers.

Context {F : Type} `{Float F}.

(** [low + (high - low) * next_double] *)
Definition random_uniform (low high : F) (st : state) : F * state :=
  let (u, st') := mt19937_next_double st in
  (fadd low (fmul (fsub high low) (lit u)), st').

(** Integers from [low] to [high - 1]. *)
Definition random_bounded (low high : Z) (st : state) : Z * state :=
  let (v, st') := bounded (high - 1 - low) st in ((low + v)%Z, st').

#[export] Instance Mt19937_Generator : Generator F state := {
  seed := mt19937_seed;
  uniform1 := random_uniform;
  uniform low high size := fill (random_uniform low high) size;
  randint low high size := fill (random_bounded low high) size
}.

End Samplers.

End Mt19937.

Module Exact.
Import Panel.

#[export] Instance Qc_Float : Float Qc := {
  of_Z z := Q2Qc (inject_Z z);
  lit q := Q2Qc q;
  fadd := Qcplus;
  fsub := Qcminus;
  fmul := Qcmult;
  fdiv := Qcdiv;
  fneg := Qcopp;
  fleb a b := Qle_bool (this a) (this b)
}.

Definition hd_seed : Cluster :=
  {| property_alpha := PropertyAlpha.A; property_beta := PropertyBeta.B;
     property_dummy := PropertyDummy.TRUE |}.

End Exact.

(** * Part 4: the script of the post and the printed form of an individual *)

(** ** [_posts/comma_non-separated_file.py]

    The post keeps an earlier pattern: the delimiter before the field and the
    one after it are matched by the two groups written [(?:...)], which
    capture nothing, and the closing quote belongs to keep3. *)

Module Posts.
Import Re.

Definition sample : text := Commas.sample.

Definition pattern : regex :=
  Cat (Alt Bol (Chr (Only comma)))
 (Cat (Group "keep1" (Cat (Chr (Only dquote)) (Rep0 (Except dquote))))
 (Cat (Group "replace1" (Chr (Only dquote)))
 (Cat (NotAhead (Chr (Only comma)))
 (Cat (Group "keep2" (Rep1 (Except dquote)))
 (Cat (Group "replace2" (Chr (Only dquote)))
 (Cat (Group "keep3" (Cat (Rep0 (Except dquote)) (Chr (Only dquote))))
      (Alt (Chr (Only comma)) Eol))))))).

(** [s.replace] of a double quote by a single quote *)
Definition replace (s : text) : text :=
  map (fun c => if Ascii.eqb c dquote then squote else c) s.

(** [repl]: as in the script, a group that took no part in the match is
    [None]; [None.replace] fails while the list is built. *)
Definition repl (m : match_obj) : result text :=
  match group m "replace1", group m "replace2" with
  | Some q1, Some q2 =>
      Commas.join [ group m "keep1";
                    Some (replace q1);
                    group m "keep2";
                    Some (replace q2);
                    group m "keep3" ]
  | _, _ => Raise AttributeError
  end.

End Posts.

(** ** [Individual.__repr__]

    The attributes of an individual: the four the constructor sets, and the
    properties and methods of the class.  Any other name that [object] does
    not define either (all of its names begin with two underscores) is an
    [AttributeError]. *)

Module Repr.
Import Panel.

Section Attributes.

Context {F : Type} `{Float F}.

Inductive value :=
| VInt (z : Z)
| VFloat (x : F)
| VEffects (e : Effects)
| VNoise (n : Noise.t)
| VCluster (c : Cluster)
| VMethod (name : string).

Definition methods : list string :=
  [ "__init__"; "__repr__"; "time_series"; "_get_individual_fixed_effect";
    "_get_time_fixed_effect"; "_get_noise" ]%string.

(** [getattr(self, name)] for a name without two leading underscores, or one
    of the class's own. *)
Definition getattr (self : Individual) (name : string) : result value :=
  if (String.eqb name "_identifier" || String.eqb name "identifier")%bool
  then Ok (VInt (identifier self))
  else if (String.eqb name "_effects_type"
           || String.eqb name "effects_type")%bool
  then Ok (VEffects (effects_type self))
  else if (String.eqb name "_noise" || String.eqb name "noise")%bool
  then Ok (VNoise (noise self))
  else if (String.eqb name "_cluster" || String.eqb name "cluster")%bool
  then Ok (VCluster (cluster self))
  else if String.eqb name "slope"
  then rbind (slope self) (fun x => Ok (VFloat x))
  else if String.eqb name "intercept"
  then rbind (intercept self) (fun z => Ok (VInt z))
  else if existsb (String.eqb name) methods
  then Ok (VMethod name)
  else Raise AttributeError.

Definition dec_Z (z : Z) : text :=
  str (DecimalString.NilZero.string_of_int (Z.to_int z)).

(** [format(v)] for the values the f-string can meet; the other values print
    as an address, which is left open. *)
Definition format (v : value) : option text :=
  match v with
  | VInt z => Some (dec_Z z)
  | VEffects Fixed => Some (str "Effects.Fixed")
  | VEffects Random => Some (str "Effects.Random")
  | VNoise Noise.TRUE => Some (str "Noise.TRUE")
  | VNoise Noise.FALSE => Some (str "Noise.FALSE")
  | VFloat _ | VCluster _ | VMethod _ => None
  end.

(** The f-string evaluates its three fields from left to right and formats
    each one. *)
Definition __repr__ (self : Individual) : result (option text) :=
  rbind (getattr self "_identifier") (fun a =>
  rbind (getattr self "effects") (fun b =>
  rbind (getattr self "noise") (fun c =>
  Ok (match format a, format b, format c with
      | Some x, Some y, Some z => Some (str "Individual" ++ x ++ y ++ z)
      | _, _, _ => None
      end)))).

End Attributes.

End Repr.
(** ** What a successful run of the matcher has done *)

Module ReFacts.
Import Re.

(** The paths the matcher can take through a pattern, without the order in
    which it tries them. *)
Inductive run : regex -> mstate -> mstate -> Prop :=
| run_chr cs c bef aft g :
    mem cs c = true ->
    run (Chr cs) (MState bef (c :: aft) g) (MState (c :: bef) aft g)
| run_bol st : before st = [] -> run Bol st st
| run_eol st : after st = [] \/ after st = [newline] -> run Eol st st
| run_cat r1 r2 st st1 st2 :
    run r1 st st1 -> run r2 st1 st2 -> run (Cat r1 r2) st st2
| run_alt_l r1 r2 st st1 : run r1 st st1 -> run (Alt r1 r2) st st1
| run_alt_r r1 r2 st st1 : run r2 st st1 -> run (Alt r1 r2) st st1
| run_rep0 cs w bef aft g :
    Forall (fun c => mem cs c = true) w ->
    run (Rep0 cs) (MState bef (w ++ aft) g) (MState (rev w ++ bef) aft g)
| run_rep1 cs w bef aft g :
    Forall (fun c => mem cs c = true) w -> w <> [] ->
    run (Rep1 cs) (MState bef (w ++ aft) g) (MState (rev w ++ bef) aft g)
| run_group name r st st1 :
    run r st st1 -> run (Group name r) st (close_group name st st1)
| run_notahead r st :
    exec r st (fun st1 => Some st1) = None -> run (NotAhead r) st st.

#[local] Hint Constructors run : core.

Lemma rep_sound cs k aft : forall bef g res,
  rep cs k bef aft g = Some res ->
  exists w rest,
    aft = w ++ rest /\ Forall (fun c => mem cs c = true) w /\
    k (MState (rev w ++ bef) rest g) = Some res.
Proof.
  induction aft as [|c aft IH]; simpl; intros bef g res H.
  - exists [], []. auto.
  - destruct (mem cs c) eqn:Hc.
    + destruct (rep cs k (c :: bef) aft g) eqn:Hr.
      * inversion H; subst.
        destruct (IH _ _ _ Hr) as (w & rest & -> & Hw & Hk).
        exists (c :: w), rest. simpl. rewrite <- app_assoc. simpl. auto.
      * exists [], (c :: aft). auto.
    + exists [], (c :: aft). auto.
Qed.

(** Soundness: when the matcher succeeds, the continuation was entered at the
    end of one of the paths of the pattern. *)
Lemma exec_sound r : forall st k res,
  exec r st k = Some res ->
  exists st1, run r st st1 /\ k st1 = Some res.
Proof.
  induction r; simpl; intros st k res H.
  - destruct st as [bef aft g]; simpl in *.
    destruct aft as [|c rest]; [discriminate|].
    destruct (mem cs c) eqn:Hc; [|discriminate]. eauto.
  - destruct (before st) eqn:Hb; [|discriminate]. eauto.
  - destruct (after st) as [|c [|d rest]] eqn:Ha; try discriminate.
    + eauto.
    + destruct (Ascii.eqb c newline) eqn:Hc; [|discriminate].
      apply Ascii.eqb_eq in Hc. subst c. eauto.
  - apply IHr1 in H. destruct H as (st1 & R1 & H).
    apply IHr2 in H. destruct H as (st2 & R2 & H). eauto.
  - destruct (exec r1 st k) eqn:H1.
    + inversion H; subst. apply IHr1 in H1. destruct H1 as (st1 & R & Hk). eauto.
    + apply IHr2 in H. destruct H as (st1 & R & Hk). eauto.
  - destruct st as [bef aft g]; simpl in *.
    apply rep_sound in H. destruct H as (w & rest & -> & Hw & Hk). eauto.
  - destruct st as [bef aft g]; simpl in *.
    destruct aft as [|c aft]; [discriminate|].
    destruct (mem cs c) eqn:Hc; [|discriminate].
    apply rep_sound in H. destruct H as (w & rest & -> & Hw & Hk).
    exists (MState (rev (c :: w) ++ bef) rest g). split.
    + apply (run_rep1 cs (w := c :: w)); [constructor; auto | discriminate].
    + simpl. rewrite <- app_assoc. exact Hk.
  - apply IHr in H. destruct H as (st1 & R & Hk). eauto.
  - destruct (exec r st (fun st1 => Some st1)) eqn:Hn; [discriminate|]. eauto.
Qed.

(** A path passes over a piece [w] of the text ahead and nothing else. *)
Lemma run_span r st st1 :
  run r st st1 ->
  exists w, after st = w ++ after st1 /\ before st1 = rev w ++ before st.
Proof.
  induction 1; simpl.
  - exists [c]. auto.
  - exists []. auto.
  - exists []. auto.
  - destruct IHrun1 as (w1 & A1 & B1), IHrun2 as (w2 & A2 & B2).
    exists (w1 ++ w2). rewrite A1, A2, B2, B1, rev_app_distr, !app_assoc. auto.
  - assumption.
  - assumption.
  - exists w. auto.
  - exists w. auto.
  - assumption.
  - exists []. auto.
Qed.

Lemma consumed_span st st1 w :
  after st = w ++ after st1 -> consumed st st1 = w.
Proof.
  unfold consumed. intros ->. rewrite length_app, Nat.add_sub.
  rewrite firstn_app, Nat.sub_diag, firstn_all. simpl. apply app_nil_r.
Qed.

Fixpoint no_groups (r : regex) : bool :=
  match r with
  | Chr _ | Bol | Eol | Rep0 _ | Rep1 _ => true
  | Cat r1 r2 | Alt r1 r2 => no_groups r1 && no_groups r2
  | Group _ _ => false
  | NotAhead _ => true
  end.

Lemma run_no_groups r st st1 :
  run r st st1 -> no_groups r = true -> groups st1 = groups st.
Proof.
  induction 1; simpl; intros Hg; auto; try discriminate.
  - apply andb_prop in Hg. destruct Hg. rewrite IHrun2, IHrun1; auto.
  - apply andb_prop in Hg. destruct Hg. auto.
  - apply andb_prop in Hg. destruct Hg. auto.
Qed.

(** A group without inner groups records exactly the text it passed over. *)
Lemma run_group_inv name r st st2 :
  run (Group name r) st st2 -> no_groups r = true ->
  exists w, after st = w ++ after st2 /\ before st2 = rev w ++ before st /\
            groups st2 = (name, w) :: groups st.
Proof.
  intros H Hg. inversion H; subst.
  destruct (run_span H4) as (w & A & B).
  exists w. simpl. rewrite (@consumed_span _ _ _ A), (run_no_groups H4 Hg). auto.
Qed.

Lemma search_sound p : forall aft adv bef m,
  search p adv bef aft = Some m ->
  exists skipped rest adv',
    aft = skipped ++ rest /\
    m_start m = MState (rev skipped ++ bef) rest [] /\
    match_at p adv' (rev skipped ++ bef) rest = Some (m_end m).
Proof.
  induction aft as [|c aft IH]; simpl; intros adv bef m H.
  - destruct (match_at p adv bef []) eqn:Hm; [|discriminate].
    inversion H; subst. exists [], [], adv. auto.
  - destruct (match_at p adv bef (c :: aft)) eqn:Hm.
    + inversion H; subst. exists [], (c :: aft), adv. auto.
    + destruct (IH _ _ _ H) as (sk & rest & adv' & -> & Hs & Hm').
      exists (c :: sk), rest, adv'. simpl. rewrite <- app_assoc. auto.
Qed.

Lemma match_at_sound p adv bef aft e :
  match_at p adv bef aft = Some e ->
  run p (MState bef aft []) e.
Proof.
  unfold match_at. intros H. apply exec_sound in H.
  destruct H as (st1 & R & Hk).
  destruct (adv && Nat.eqb (length (after st1)) (length aft)); [discriminate|].
  inversion Hk; subst. exact R.
Qed.

End ReFacts.

(** ** The repair leaves everything but the two inner quotes alone *)

Module CommasFacts.
Import Re ReFacts Commas.

(** The text is cut into the stretches that are copied and the matches; a
    match is its three kept parts around the two inner quotes. *)
Inductive piece :=
| Keep (t : text)
| Hit (keep1 keep2 keep3 : text).

Definition original (pc : piece) : text :=
  match pc with
  | Keep t => t
  | Hit k1 k2 k3 => k1 ++ dquote :: k2 ++ dquote :: k3
  end.

Definition repaired (pc : piece) : text :=
  match pc with
  | Keep t => t
  | Hit k1 k2 k3 => k1 ++ squote :: k2 ++ squote :: k3
  end.

(** What may happen to one character: it is kept, or it is a double quote
    that becomes a single quote. *)
Definition kept_or_requoted (a b : ascii) : Prop :=
  b = a \/ (a = dquote /\ b = squote).

(** The cut of a text by the matches [re.sub] finds in it, from left to
    right: the stretch before a match, then the match with its groups (the
    two inner-quote groups hold one double quote each, and the five groups
    in their order make up the whole match), then the cut of what follows
    the match; after the last match, the rest of the text. *)
Inductive scan (p : regex) : bool -> text -> text -> list piece -> Prop :=
| scan_end adv bef aft :
    search p adv bef aft = None ->
    scan p adv bef aft [Keep aft]
| scan_match adv bef aft m k1 k2 k3 rest :
    search p adv bef aft = Some m ->
    group m "keep1" = Some k1 ->
    group m "innerQuote1" = Some [dquote] ->
    group m "keep2" = Some k2 ->
    group m "innerQuote2" = Some [dquote] ->
    group m "keep3" = Some k3 ->
    group0 m = k1 ++ dquote :: k2 ++ dquote :: k3 ->
    scan p (is_empty m) (before (m_end m)) (after (m_end m)) rest ->
    scan p adv bef aft
      (Keep (consumed (MState bef aft []) (m_start m))
         :: Hit k1 k2 k3 :: rest).

(** The search is a function, so a text has one cut only. *)
Lemma scan_unique p adv bef aft pcs :
  scan p adv bef aft pcs ->
  forall pcs', scan p adv bef aft pcs' -> pcs' = pcs.
Proof.
  induction 1 as [adv bef aft Hn
                 |adv bef aft m k1 k2 k3 rest Hs G1 _ G2 _ G3 _ _ IH];
    intros pcs' H'.
  - inversion H' as [? ? ? Hn'|? ? ? m' ? ? ? ? Hs']; subst.
    + reflexivity.
    + rewrite Hn in Hs'. discriminate.
  - inversion H' as [? ? ? Hn'
                    |? ? ? m' k1' k2' k3' rest' Hs' G1' _ G2' _ G3' _ Hr'];
      subst.
    + rewrite Hs in Hn'. discriminate.
    + rewrite Hs in Hs'. injection Hs' as <-.
      rewrite G1 in G1'. rewrite G2 in G2'. rewrite G3 in G3'.
      injection G1' as <-. injection G2' as <-. injection G3' as <-.
      rewrite (IH _ Hr'). reflexivity.
Qed.

Lemma run_quote_group name st st2 :
  run (Group name (Chr (Only dquote))) st st2 ->
  exists rest,
    after st = dquote :: rest /\
    st2 = MState (dquote :: before st) rest ((name, [dquote]) :: groups st).
Proof.
  intros H. inversion H as [| | | | | | | |? ? ? ? Hin|]; subst.
  inversion Hin as [? c bef aft g Hc| | | | | | | | |]; subst.
  simpl in Hc. apply Ascii.eqb_eq in Hc. subst c.
  exists aft. split; [reflexivity|].
  unfold close_group. simpl.
  rewrite (@consumed_span (MState bef (dquote :: aft) g)
             (MState (dquote :: bef) aft g) [dquote] eq_refl).
  reflexivity.
Qed.

(** The shape of every match of [pattern]. *)
Lemma pattern_shape bef aft e :
  run pattern (MState bef aft []) e ->
  exists k1 k2 k3,
    aft = k1 ++ dquote :: k2 ++ dquote :: k3 ++ after e /\
    groups e = [ ("keep3"%string, k3); ("innerQuote2"%string, [dquote]);
                 ("keep2"%string, k2); ("innerQuote1"%string, [dquote]);
                 ("keep1"%string, k1) ].
Proof.
  unfold pattern. intros H.
  inversion H as [| | |? ? ? s1 ? G1 T1| | | | | |]; subst; clear H.
  inversion T1 as [| | |? ? ? s2 ? G2 T2| | | | | |]; subst; clear T1.
  inversion T2 as [| | |? ? ? s3 ? G3 T3| | | | | |]; subst; clear T2.
  inversion T3 as [| | |? ? ? s4 ? G4 T4| | | | | |]; subst; clear T3.
  inversion T4 as [| | |? ? ? s5 ? G5 G6| | | | | |]; subst; clear T4.
  inversion G3; subst; clear G3.
  apply run_group_inv in G1; [|reflexivity].
  destruct G1 as (k1 & A1 & _ & g1). simpl in A1, g1.
  apply run_quote_group in G2. destruct G2 as (r2 & A2 & ->).
  apply run_group_inv in G4; [|reflexivity].
  destruct G4 as (k2 & A4 & _ & g4). simpl in A4, g4.
  apply run_quote_group in G5. destruct G5 as (r5 & A5 & ->).
  apply run_group_inv in G6; [|reflexivity].
  destruct G6 as (k3 & A6 & _ & g6). simpl in A6, g6.
  exists k1, k2, k3. split.
  - rewrite A1, A2, A4, A5, A6. reflexivity.
  - rewrite g6, g4, g1. reflexivity.
Qed.

Lemma repl_shape m k1 k2 k3 :
  groups (m_end m) =
    [ ("keep3"%string, k3); ("innerQuote2"%string, [dquote]);
      ("keep2"%string, k2); ("innerQuote1"%string, [dquote]);
      ("keep1"%string, k1) ] ->
  repl m = Ok (repaired (Hit k1 k2 k3)).
Proof.
  intros Hg. unfold repl, group. rewrite Hg. simpl.
  rewrite app_nil_r. reflexivity.
Qed.

Fixpoint flatten (pcs : list text) : text :=
  match pcs with
  | [] => []
  | t :: rest => t ++ flatten rest
  end.

(** The loop of [re.sub] on [pattern]: with enough fuel it ends, and its
    result is the input with the two inner quotes of each match replaced. *)
Lemma subx_pieces : forall fuel adv bef aft,
  2 * length aft + 1 < fuel ->
  exists pcs,
    aft = flatten (map original pcs) /\
    subx fuel pattern repl adv bef aft
      = Some (Ok (flatten (map repaired pcs))).
Proof.
  induction fuel as [|fuel IH]; intros adv bef aft Hf; [lia|].
  simpl. destruct (search pattern adv bef aft) as [m|] eqn:Hs.
  - apply search_sound in Hs.
    destruct Hs as (sk & rest & adv' & -> & Hst & Hm).
    apply match_at_sound in Hm. apply pattern_shape in Hm.
    destruct Hm as (k1 & k2 & k3 & Hrest & Hg).
    rewrite (repl_shape m Hg).
    destruct (IH (is_empty m) (before (m_end m)) (after (m_end m)))
      as (pcs & Hp & Hsub).
    { rewrite length_app, Hrest in Hf.
      rewrite !length_app in Hf. simpl in Hf.
      rewrite !length_app in Hf. simpl in Hf.
      rewrite !length_app in Hf. lia. }
    rewrite Hsub. exists (Keep sk :: Hit k1 k2 k3 :: pcs).
    split.
    + simpl. rewrite <- Hp, Hrest.
      rewrite <- !app_assoc. simpl. rewrite <- !app_assoc. reflexivity.
    + rewrite Hst.
      rewrite (@consumed_span (MState bef (sk ++ rest) [])
                 (MState (rev sk ++ bef) rest []) sk eq_refl).
      simpl. rewrite <- !app_assoc. simpl. rewrite <- !app_assoc. reflexivity.
  - exists [Keep aft]. simpl. rewrite app_nil_r. auto.
Qed.

(** The loop of [re.sub] follows the cut of the text: each match is
    replaced by its groups with the two inner quotes as single quotes, and
    the stretches between the matches are copied. *)
Lemma subx_scan : forall fuel adv bef aft,
  2 * length aft + 1 < fuel ->
  exists pcs,
    scan pattern adv bef aft pcs /\
    aft = flatten (map original pcs) /\
    subx fuel pattern repl adv bef aft
      = Some (Ok (flatten (map repaired pcs))).
Proof.
  induction fuel as [|fuel IH]; intros adv bef aft Hf; [lia|].
  simpl. destruct (search pattern adv bef aft) as [m|] eqn:Hs.
  - pose proof Hs as Hfound. apply search_sound in Hs.
    destruct Hs as (sk & rest & adv' & -> & Hst & Hm).
    apply match_at_sound in Hm. apply pattern_shape in Hm.
    destruct Hm as (k1 & k2 & k3 & Hrest & Hg).
    rewrite (repl_shape m Hg).
    destruct (IH (is_empty m) (before (m_end m)) (after (m_end m)))
      as (pcs & Hsc & Hp & Hsub).
    { rewrite length_app, Hrest in Hf.
      rewrite !length_app in Hf. simpl in Hf.
      rewrite !length_app in Hf. simpl in Hf.
      rewrite !length_app in Hf. lia. }
    rewrite Hsub.
    assert (Hsk : consumed (MState bef (sk ++ rest) []) (m_start m) = sk).
    { rewrite Hst. apply consumed_span. reflexivity. }
    assert (Hwhole : group0 m = k1 ++ dquote :: k2 ++ dquote :: k3).
    { unfold group0. rewrite Hst. apply consumed_span. simpl.
      rewrite Hrest. repeat (rewrite <- app_assoc; simpl). reflexivity. }
    exists (Keep (consumed (MState bef (sk ++ rest) []) (m_start m))
              :: Hit k1 k2 k3 :: pcs).
    split; [|split].
    + apply scan_match with (m := m); try assumption;
        unfold group; rewrite Hg; reflexivity.
    + rewrite Hsk. simpl. rewrite <- Hp, Hrest.
      rewrite <- !app_assoc. simpl. rewrite <- !app_assoc. reflexivity.
    + rewrite Hsk. simpl. rewrite <- !app_assoc. simpl.
      rewrite <- !app_assoc. reflexivity.
  - exists [Keep aft]. split; [apply scan_end; exact Hs|].
    simpl. rewrite app_nil_r. auto.
Qed.

Lemma pieces_requoted pcs :
  Forall2 kept_or_requoted
    (flatten (map original pcs)) (flatten (map repaired pcs)).
Proof.
  assert (Hrefl : forall t, Forall2 kept_or_requoted t t).
  { induction t; constructor; auto. left. reflexivity. }
  induction pcs as [|pc pcs IH]; simpl; [constructor|].
  apply Forall2_app; [|exact IH].
  destruct pc as [t|k1 k2 k3]; simpl; [apply Hrefl|].
  apply Forall2_app; [apply Hrefl|].
  constructor; [right; auto|].
  apply Forall2_app; [apply Hrefl|].
  constructor; [right; auto|apply Hrefl].
Qed.

(** C7: for every input, the repair ends without an exception.  Its
    output is fixed by the matches of the pattern in the input, in the one
    cut [scan] gives: the stretches outside the matches are copied, and each
    match is replaced by its groups keep1, keep2 and keep3 as they were
    matched, with the one character of the group innerQuote1 and the one of
    innerQuote2, a double quote each, replaced by a single quote.  So every
    character of the output is the character of the input at its place, or
    a single quote where an inner quote was matched, and a text where the
    pattern matches nowhere is returned as it is. *)
Theorem repair_only_touches_inner_quotes (s : text) :
  exists pcs,
    scan pattern false [] s pcs /\
    (forall pcs', scan pattern false [] s pcs' -> pcs' = pcs) /\
    s = flatten (map original pcs) /\
    repair s = Some (Ok (flatten (map repaired pcs))) /\
    Forall2 kept_or_requoted s (flatten (map repaired pcs)) /\
    (search pattern false [] s = None -> repair s = Some (Ok s)).
Proof.
  destruct (@subx_scan (2 * length s + 2) false [] s)
    as (pcs & Hsc & Hs & Hr); [lia|].
  exists pcs. split; [exact Hsc|].
  split; [exact (scan_unique Hsc)|].
  split; [exact Hs|]. split; [exact Hr|]. split.
  - rewrite Hs at 1. apply pieces_requoted.
  - intros Hn. unfold repair, sub.
    replace (2 * length s + 2) with (S (2 * length s + 1)) by lia.
    simpl. rewrite Hn. reflexivity.
Qed.

(** C6: repairing the repaired sample changes nothing, and the pattern has
    no match left in it. *)
Theorem repair_idempotent_on_sample :
  repair sample = Some (Ok sample_fixed_text) /\
  repair sample_fixed_text = Some (Ok sample_fixed_text) /\
  search pattern false [] sample_fixed_text = None.
Proof.
  repeat split; vm_compute; reflexivity.
Qed.

End CommasFacts.

(** ** The two parses of the script *)

Module ScriptFacts.
Import Re Commas Csv Script.

(** C1: the repaired sample parses; the table has two data rows and three
    columns, the text cells hold the quoted fields with their commas (the
    inner quotes of the second one as single quotes), and the first and last
    cells of each row are the integers 1, 1 and 2, 2. *)
Theorem repair_and_parse_sample :
  exists df,
    repair_and_parse sample = Some (Ok df) /\
    names df = [str "column1"; str " column2"; str " column3"] /\
    shape df = (2, 3) /\
    iloc df 0 0 = Some (Int 1) /\
    iloc df 0 1 = Some (Str (str "text without quote, but comma")) /\
    iloc df 0 2 = Some (Int 1) /\
    iloc df 1 0 = Some (Int 2) /\
    iloc df 1 1 =
      Some (Str (str "text quoting 'a sentence, words, and more' in a single cell")) /\
    iloc df 1 2 = Some (Int 2).
Proof.
  eexists. split; [vm_compute; reflexivity|].
  repeat split; reflexivity.
Qed.

(** C5: parsing the sample as it is fails with a parser error (line 3 has
    five fields where three are expected); the script prints its message and
    nothing escapes.  Only a parser error is caught: the message is printed
    for no other outcome, and any other exception escapes. *)
Theorem unrepaired_sample_is_reported :
  read_csv sample =
    Some (Raise (ParserError
      (str "Error tokenizing data. C error: Expected 3 fields in line 3, saw 5"
         ++ [newline]))) /\
  attempt_parse sample =
    Some (Outcome [str "Parser unable to read file"] None) /\
  (forall s o, attempt_parse s = Some o ->
     (printed o <> [] <-> exists msg, read_csv s = Some (Raise (ParserError msg))) /\
     (forall e, escaped o = Some e ->
        read_csv s = Some (Raise e) /\ forall msg, e <> ParserError msg)).
Proof.
  split; [vm_compute; reflexivity|].
  split; [vm_compute; reflexivity|].
  intros s o. unfold attempt_parse.
  destruct (read_csv s) as [[df|e]|]; [| |discriminate].
  - intros H; inversion H; subst; simpl. split.
    + split; [intros C; contradiction C; reflexivity|].
      intros [msg Hm]. discriminate.
    + intros e He. discriminate.
  - destruct e; intros H; inversion H; subst; simpl; split;
      try (split; [intros C; contradiction C; reflexivity
                  | intros [m Hm]; discriminate]);
      try (intros e' He; inversion He; subst; split;
           [reflexivity | intros m; discriminate]).
    + split; [intros _; eauto | intros _; discriminate].
    + intros e' He. discriminate.
Qed.

End ScriptFacts.

(** ** Facts about the panel generator *)

Module PanelFacts.
Import Panel.

(** *** Arrays *)

Lemma nth_error_zip_with {A B C} (f : A -> B -> C) l1 : forall l2 i,
  nth_error (zip_with f l1 l2) i =
    match nth_error l1 i, nth_error l2 i with
    | Some a, Some b => Some (f a b)
    | _, _ => None
    end.
Proof.
  unfold zip_with.
  induction l1 as [|a l1 IH]; intros l2 i; simpl.
  - destruct i; reflexivity.
  - destruct l2 as [|b l2]; simpl.
    + destruct i as [|i]; simpl; [reflexivity|].
      destruct (nth_error l1 i); reflexivity.
    + destruct i as [|i]; simpl; [reflexivity|]. apply IH.
Qed.

Lemma zip_with_length {A B C} (f : A -> B -> C) l1 l2 :
  length (zip_with f l1 l2) = Nat.min (length l1) (length l2).
Proof. unfold zip_with. rewrite length_map. apply length_combine. Qed.

Lemma nth_error_repeat_some {A} (x y : A) n i :
  nth_error (repeat x n) i = Some y -> y = x /\ i < n.
Proof.
  revert i. induction n; intros [|i]; simpl; try discriminate.
  - intros H; inversion H. split; [reflexivity|lia].
  - intros H. apply IHn in H. destruct H. split; [assumption|lia].
Qed.

Lemma range_length a b : length (range a b) = Z.to_nat (b - a).
Proof. unfold range. rewrite length_map, length_seq. reflexivity. Qed.

Lemma nth_error_range a b i :
  i < Z.to_nat (b - a) ->
  nth_error (range a b) i = Some (a + Z.of_nat i)%Z.
Proof.
  intros Hi. unfold range. rewrite nth_error_map.
  rewrite nth_error_seq.
  destruct (Nat.ltb_spec i (Z.to_nat (b - a))); [reflexivity|lia].
Qed.

Lemma nth_error_is_some {A} (l : list A) i :
  i < length l -> exists x, nth_error l i = Some x.
Proof.
  intros Hi. destruct (nth_error l i) eqn:E; [eauto|].
  apply nth_error_None in E. lia.
Qed.

(** *** Sorting *)

Section Sorting.

Variable A : Type.
Variable leb : A -> A -> bool.
Hypothesis leb_total : forall a b, leb a b = true \/ leb b a = true.

Let le (a b : A) : Prop := leb a b = true.

Lemma insert_perm x l : Permutation (x :: l) (insert leb x l).
Proof.
  induction l as [|y l IH]; simpl; [reflexivity|].
  destruct (leb x y); [reflexivity|].
  rewrite perm_swap. constructor. exact IH.
Qed.

Lemma sort_perm l : Permutation l (sort leb l).
Proof.
  induction l as [|x l IH]; simpl; [constructor|].
  rewrite <- insert_perm. constructor. exact IH.
Qed.

Lemma insert_sorted x l : Sorted le l -> Sorted le (insert leb x l).
Proof.
  induction 1 as [|y l Hs IH Hhd]; simpl.
  - repeat constructor.
  - destruct (leb x y) eqn:E.
    + constructor; [constructor; assumption|]. constructor. exact E.
    + constructor; [exact IH|].
      assert (Hyx : le y x) by (destruct (leb_total x y); [congruence|assumption]).
      destruct Hhd as [|z l' Hyz]; simpl.
      * constructor. exact Hyx.
      * destruct (leb x z); constructor; assumption.
Qed.

Lemma sort_sorted l : Sorted le (sort leb l).
Proof.
  induction l as [|x l IH]; simpl; [constructor|].
  apply insert_sorted. exact IH.
Qed.

End Sorting.



Section Generator.

Context {F G : Type} `{Float F} `{Generator F G}.

(** *** individual *)

(** C10: with fixed effects the slope is 1.0 and the intercept is the alpha
    value of the cluster, 2 or 3; with random effects both raise
    [NotImplementedError], and so do their callers [_get_noise] and
    [time_series] and the assembly of a sample of such individuals. *)
Theorem slope_and_intercept_by_effects (self : Individual) :
  (effects_type self = Fixed ->
     slope self = Ok (lit 1) /\
     intercept self = Ok (PropertyAlpha.value (property_alpha (cluster self))) /\
     (intercept self = Ok 2%Z \/ intercept self = Ok 3%Z)) /\
  (effects_type self = Random ->
     slope self = Raise NotImplementedError /\
     intercept self = Raise NotImplementedError /\
     (forall size g, _get_noise self size g = (Raise NotImplementedError, g)) /\
     (forall start_year end_year treatment_year g,
        time_series self start_year end_year treatment_year g
          = (Raise NotImplementedError, g)) /\
     (forall start_year end_year treatment_year rest g,
        _init_sample start_year end_year treatment_year (self :: rest) g
          = (Raise NotImplementedError, g))).
Proof.
  split; intros E.
  - unfold slope, intercept. rewrite E. repeat split.
    destruct (property_alpha (cluster self)); simpl; auto.
  - assert (Hs : slope self = Raise NotImplementedError)
      by (unfold slope; rewrite E; reflexivity).
    assert (Ht : forall s e t g,
               time_series self s e t g = (Raise NotImplementedError, g)).
    { intros. unfold time_series, bind, lift. rewrite Hs. reflexivity. }
    repeat split.
    + exact Hs.
    + unfold intercept. rewrite E. reflexivity.
    + intros. unfold _get_noise, bind, lift. rewrite Hs. reflexivity.
    + exact Ht.
    + intros. unfold _init_sample. simpl. unfold bind at 1 2 3.
      rewrite Ht. reflexivity.
Qed.

(** *** The draws *)

Lemma seed_ok s g :
  (0 <= s < 2 ^ 32)%Z -> np_random_seed s g = (Ok tt, seed s).
Proof.
  intros Hs. unfold np_random_seed.
  destruct (Z.leb_spec 0 s); [|lia].
  destruct (Z.ltb_spec s (2 ^ 32)); [|lia]. reflexivity.
Qed.

Lemma seed_inv s g u g' :
  np_random_seed s g = (Ok u, g') -> (0 <= s < 2 ^ 32)%Z /\ g' = seed s.
Proof.
  unfold np_random_seed.
  destruct (Z.leb_spec 0 s); destruct (Z.ltb_spec s (2 ^ 32)); simpl;
    intros E; inversion E; subst; split; auto; lia.
Qed.

(** The time fixed effect computed from any state of the generator. *)
Lemma time_fixed_effect_value self size g :
  _get_time_fixed_effect self size g =
    (Ok (rev (sort fleb (fst (uniform (fneg (lit 1)) (lit 1) size (seed 0))))),
     snd (uniform (fneg (lit 1)) (lit 1) size (seed 0))).
Proof.
  unfold _get_time_fixed_effect, bind. rewrite seed_ok by (simpl; lia).
  unfold np_random_uniform, ret.
  destruct (uniform (fneg (lit 1)) (lit 1) size (seed 0)). reflexivity.
Qed.


(** *** The cluster pool *)

Lemma init_repeats_value g :
  _init_repeats g =
    (Ok (sort Z.leb (fst (randint 3 10 3 (seed 10)))),
     snd (randint 3 10 3 (seed 10))).
Proof.
  unfold _init_repeats, bind. rewrite seed_ok by (simpl; lia).
  unfold np_random_randint, ret. simpl.
  destruct (randint 3 10 3 (seed 10)). reflexivity.
Qed.

Lemma Zleb_total a b : Z.leb a b = true \/ Z.leb b a = true.
Proof.
  destruct (Z.leb_spec a b); [left; reflexivity|right].
  apply Z.leb_le. lia.
Qed.

(** C9: the repeat counts are the three integers drawn between 3 and 9
    after the reseeding with 10, sorted: [_init_repeats] leaves the generator
    in the state after that draw and returns the draw in ascending order,
    three counts between 3 and 9; the pool repeats the three seed clusters,
    in their order, by these counts, so its length is their sum; and the
    pool does not depend on the state the generator was in. *)
Theorem init_clusters_pool (laws : GeneratorLaws F G) (g : G) :
  exists c1 c2 c3 : Z,
    _init_repeats g =
      (Ok [c1; c2; c3],
       snd (randint 3 10 (length seed_clusters) (seed 10))) /\
    [c1; c2; c3]
      = sort Z.leb (fst (randint 3 10 (length seed_clusters) (seed 10))) /\
    Permutation (fst (randint 3 10 (length seed_clusters) (seed 10)))
      [c1; c2; c3] /\
    fst (_init_repeats g) = Ok [c1; c2; c3] /\
    (3 <= c1 <= c2)%Z /\ (c2 <= c3 <= 9)%Z /\
    fst (_init_clusters g) =
      Ok (flat_map (fun p => repeat (fst p) (Z.to_nat (snd p)))
            (combine seed_clusters [c1; c2; c3])) /\
    (forall pool, fst (_init_clusters g) = Ok pool ->
       Z.of_nat (length pool) = (c1 + c2 + c3)%Z) /\
    (forall g', _init_clusters g' = _init_clusters g).
Proof.
  change (length seed_clusters) with 3.
  pose proof (randint_length 3 10 3 (seed 10)) as Hlen.
  pose proof (@randint_range _ _ _ laws 3%Z 10%Z 3 (seed 10) eq_refl) as Hrange.
  pose proof (sort_perm Z.leb (fst (randint 3 10 3 (seed 10)))) as Hperm.
  pose proof (sort_sorted Z.leb Zleb_total (fst (randint 3 10 3 (seed 10))))
    as Hsorted.
  assert (Hlen' := Permutation_length Hperm). rewrite Hlen in Hlen'.
  assert (Hrange' := Permutation_Forall Hperm Hrange).
  assert (Hall : forall g0,
            _init_clusters g0 =
              (np_repeat seed_clusters
                 (sort Z.leb (fst (randint 3 10 3 (seed 10)))),
               snd (randint 3 10 3 (seed 10)))).
  { intros g0. unfold _init_clusters, bind. rewrite init_repeats_value.
    reflexivity. }
  rewrite init_repeats_value. simpl fst.
  destruct (sort Z.leb (fst (randint 3 10 3 (seed 10))))
    as [|c1 [|c2 [|c3 [|c4 rest]]]]; try discriminate.
  exists c1, c2, c3.
  inversion Hrange' as [|? ? R1 Hr1]; subst.
  inversion Hr1 as [|? ? R2 Hr2]; subst.
  inversion Hr2 as [|? ? R3 Hr3]; subst.
  inversion Hsorted as [|? ? S1 H1]; subst.
  inversion S1 as [|? ? S2 H2]; subst.
  inversion H1 as [|? ? L12]; subst. inversion H2 as [|? ? L23]; subst.
  apply Z.leb_le in L12, L23.
  assert (Hpool : np_repeat seed_clusters [c1; c2; c3] =
            Ok (flat_map (fun p => repeat (fst p) (Z.to_nat (snd p)))
                  (combine seed_clusters [c1; c2; c3]))).
  { unfold np_repeat. simpl.
    destruct (Z.ltb_spec c1 0); [lia|].
    destruct (Z.ltb_spec c2 0); [lia|].
    destruct (Z.ltb_spec c3 0); [lia|].
    reflexivity. }
  split; [reflexivity|]. split; [reflexivity|]. split; [exact Hperm|].
  split; [reflexivity|]. split; [lia|]. split; [lia|].
  rewrite !Hall. simpl fst. rewrite Hpool.
  split; [reflexivity|]. split.
  - intros pool Hp. inversion Hp; subst. simpl.
    rewrite !length_app, !repeat_length. simpl. lia.
  - intros g'. rewrite Hall, Hpool. reflexivity.
Qed.

(** *** The table of one individual *)

(** The outcome before noise, column by column as [time_series] builds it. *)
Definition base_dependent (sl : F) (treatment intercepts : list Z)
    (fei fet : list F) : list F :=
  zip_with fadd
    (zip_with fadd
       (zip_with (fun x c => fadd x (of_Z c))
          (zip_with (fun x t => fmul x (of_Z t))
             (repeat sl (length treatment)) treatment)
          intercepts)
       fei)
    fet.

(** The noise array of [_get_noise], computed from any state. *)
Definition noise_array (sl : F) (self : Individual) (size : nat) : list F :=
  fst (uniform (fneg (fmul sl (lit (1 # 10)))) (fmul sl (lit (1 # 10)))
         size (seed (2 * identifier self))).

Lemma get_noise_inv self size g nz g' :
  _get_noise self size g = (Ok nz, g') ->
  exists sl, slope self = Ok sl /\ nz = noise_array sl self size.
Proof.
  unfold _get_noise, bind, lift, noise_array.
  destruct (slope self) as [sl|e]; [|discriminate].
  destruct (np_random_seed (2 * identifier self) g) as [[u|e] g1] eqn:Es;
    [|discriminate].
  apply seed_inv in Es. destruct Es as [_ ->].
  unfold np_random_uniform.
  destruct (uniform _ _ size _) as [x g2] eqn:Eu.
  intros E; inversion E; subst.
  exists sl. split; [reflexivity|]. rewrite Eu. reflexivity.
Qed.

(** What a successful call of [time_series] has computed. *)
Lemma time_series_inv self start_year end_year treatment_year g df g' :
  time_series self start_year end_year treatment_year g = (Ok df, g') ->
  let ty := match treatment_year with
            | None => default_treatment_year start_year end_year
            | Some y => y
            end in
  let time := range start_year end_year in
  let size := length time in
  exists sl ic fei g1,
    slope self = Ok sl /\ intercept self = Ok ic /\
    _get_individual_fixed_effect self g = (Ok fei, g1) /\
    Year df = time /\
    Post df = map (fun y => (ty <=? y)%Z) time /\
    Treatment df =
      map (fun p => Z.land (Z.b2z p)
                      (PropertyDummy.value (property_dummy (cluster self))))
          (Post df) /\
    Slope df = repeat sl size /\
    Intercept df = repeat ic size /\
    FixedEffectIndividual df = repeat fei size /\
    Ok (FixedEffectTime df) = fst (_get_time_fixed_effect self size g1) /\
    Dependent df =
      (let base := base_dependent sl (Treatment df) (Intercept df)
                     (FixedEffectIndividual df) (FixedEffectTime df) in
       if Noise.value (noise self)
       then zip_with fadd base (noise_array sl self size)
       else base).
Proof.
  intros E ty time size. revert E.
  unfold time_series, bind at 1 2, lift.
  destruct (slope self) as [sl|e] eqn:Es; [|discriminate].
  destruct (intercept self) as [ic|e] eqn:Ei; [|discriminate].
  unfold bind at 1.
  destruct (_get_individual_fixed_effect self g) as [[fei|e] g1] eqn:Ef;
    [|discriminate].
  unfold bind at 1. rewrite time_fixed_effect_value.
  fold ty time size.
  set (fet := rev (sort fleb (fst (uniform (fneg (lit 1)) (lit 1) size (seed 0))))).
  set (g2 := snd (uniform (fneg (lit 1)) (lit 1) size (seed 0))).
  unfold bind at 1.
  destruct (Noise.value (noise self)) eqn:En.
  - unfold bind at 1.
    destruct (_get_noise self size g2) as [[nz|e] g3] eqn:Enz; [|discriminate].
    apply get_noise_inv in Enz. destruct Enz as (sl' & Hsl & ->).
    rewrite Es in Hsl. inversion Hsl; subst sl'.
    unfold ret. intros E; inversion E; subst; simpl.
    exists sl, ic, fei, g1. unfold base_dependent.
    rewrite !length_map, time_fixed_effect_value. fold size.
    repeat split; reflexivity.
  - unfold ret. intros E; inversion E; subst; simpl.
    exists sl, ic, fei, g1. unfold base_dependent.
    rewrite !length_map, time_fixed_effect_value. fold size.
    repeat split; reflexivity.
Qed.

Lemma time_fixed_effect_length (laws : GeneratorLaws F G) self size g fet :
  Ok fet = fst (_get_time_fixed_effect self size g) -> length fet = size.
Proof.
  rewrite time_fixed_effect_value. simpl. intros E; inversion E; subst.
  rewrite length_rev, <- (Permutation_length (sort_perm fleb _)).
  apply uniform_length.
Qed.

Lemma noise_array_length (laws : GeneratorLaws F G) sl self size :
  length (noise_array sl self size) = size.
Proof. unfold noise_array. apply uniform_length. Qed.

Lemma base_dependent_length sl treatment intercepts fei fet :
  length intercepts = length treatment ->
  length fei = length treatment ->
  length fet = length treatment ->
  length (base_dependent sl treatment intercepts fei fet) = length treatment.
Proof.
  intros H1 H2 H3. unfold base_dependent.
  rewrite !zip_with_length, repeat_length. lia.
Qed.

(** The columns of a table returned by [time_series] have one entry per
    year. *)
Lemma time_series_lengths (laws : GeneratorLaws F G)
    self start_year end_year treatment_year g df g' :
  time_series self start_year end_year treatment_year g = (Ok df, g') ->
  let size := Z.to_nat (end_year - start_year) in
  Year df = range start_year end_year /\
  length (Post df) = size /\ length (Treatment df) = size /\
  length (Slope df) = size /\ length (Intercept df) = size /\
  length (FixedEffectIndividual df) = size /\
  length (FixedEffectTime df) = size /\ length (Dependent df) = size.
Proof.
  intros E size. apply time_series_inv in E.
  destruct E as (sl & ic & fei & g1 & _ & _ & _ & Hy & Hp & Ht & Hs & Hi
                 & Hf & Hft & Hd).
  apply (time_fixed_effect_length laws) in Hft.
  rewrite range_length in *. fold size in Hs, Hi, Hf, Hft, Hd.
  assert (Lp : length (Post df) = size)
    by (rewrite Hp, length_map, range_length; reflexivity).
  assert (Lt : length (Treatment df) = size)
    by (rewrite Ht, length_map; exact Lp).
  assert (Ls : length (Slope df) = size) by (rewrite Hs; apply repeat_length).
  assert (Li : length (Intercept df) = size)
    by (rewrite Hi; apply repeat_length).
  assert (Lf : length (FixedEffectIndividual df) = size)
    by (rewrite Hf; apply repeat_length).
  repeat split; auto.
  rewrite Hd.
  assert (Lb : length (base_dependent sl (Treatment df) (Intercept df)
                         (FixedEffectIndividual df) (FixedEffectTime df))
               = size)
    by (rewrite base_dependent_length; congruence).
  destruct (Noise.value (noise self)); [|exact Lb].
  rewrite zip_with_length, Lb, (noise_array_length laws). lia.
Qed.

Lemma individual_fixed_effect_value self g :
  (0 <= identifier self < 2 ^ 32)%Z ->
  _get_individual_fixed_effect self g =
    (Ok (fst (uniform1 (of_Z (-1)) (of_Z 1) (seed (identifier self)))),
     snd (uniform1 (of_Z (-1)) (of_Z 1) (seed (identifier self)))).
Proof.
  intros Hid. unfold _get_individual_fixed_effect, bind.
  rewrite seed_ok by exact Hid. unfold np_random_uniform1.
  destruct (uniform1 _ _ _). reflexivity.
Qed.

Lemma noise_value self size g :
  effects_type self = Fixed ->
  (0 <= 2 * identifier self < 2 ^ 32)%Z ->
  _get_noise self size g =
    (Ok (noise_array (lit 1) self size),
     snd (uniform (fneg (fmul (lit 1) (lit (1 # 10))))
            (fmul (lit 1) (lit (1 # 10))) size (seed (2 * identifier self)))).
Proof.
  intros E Hid. unfold _get_noise, bind, lift, slope, noise_array.
  rewrite E, seed_ok by exact Hid. unfold np_random_uniform.
  destruct (uniform _ _ _ _). reflexivity.
Qed.

(** A call of [time_series] succeeds for an individual with fixed effects
    whose identifier, doubled, is a valid seed. *)
Lemma time_series_ok self start_year end_year treatment_year g :
  effects_type self = Fixed ->
  (0 <= identifier self)%Z -> (2 * identifier self < 2 ^ 32)%Z ->
  exists df g',
    time_series self start_year end_year treatment_year g = (Ok df, g').
Proof.
  intros E Hlo Hhi.
  unfold time_series, bind, lift, slope, intercept.
  rewrite E, individual_fixed_effect_value by lia.
  rewrite time_fixed_effect_value.
  destruct (Noise.value (noise self)).
  - rewrite (noise_value _ _ _ E) by lia. unfold ret. eauto.
  - unfold ret. eauto.
Qed.

(** C2: in the table of an individual every year of the range has a row, and
    in every row [Dependent] is [Slope * Treatment + Intercept +
    FixedEffectIndividual + FixedEffectTime], with [Treatment] the integer 0
    or 1, plus, when noise is enabled and only then, the entry of that row in
    the array drawn between [- slope * 0.1] and [slope * 0.1] after the
    reseeding with twice the identifier. *)
Theorem dependent_row_formula (laws : GeneratorLaws F G)
    (self : Individual) (start_year end_year : Z) (treatment_year : option Z)
    (g g' : G) (df : DataFrame F) :
  time_series self start_year end_year treatment_year g = (Ok df, g') ->
  (forall i, i < Z.to_nat (end_year - start_year) ->
     exists r, iloc df i = Some r /\
               r_Year r = (start_year + Z.of_nat i)%Z) /\
  (forall i r, iloc df i = Some r ->
     let base :=
       fadd (fadd (fadd (fmul (r_Slope r) (of_Z (r_Treatment r)))
                        (of_Z (r_Intercept r)))
                  (r_FixedEffectIndividual r))
            (r_FixedEffectTime r) in
     (r_Treatment r = 0%Z \/ r_Treatment r = 1%Z) /\
     match noise self with
     | Noise.FALSE => r_Dependent r = base
     | Noise.TRUE =>
         exists x,
           nth_error
             (fst (uniform (fneg (fmul (r_Slope r) (lit (1 # 10))))
                     (fmul (r_Slope r) (lit (1 # 10)))
                     (length (Year df)) (seed (2 * identifier self)))) i
             = Some x /\
           r_Dependent r = fadd base x
     end).
Proof.
  intros E.
  destruct (time_series_lengths laws _ _ _ _ _ E)
    as (Hy & Lp & Lt & Ls & Li & Lf & Lft & Ld).
  split.
  - intros i Hi. unfold iloc. rewrite Hy, (nth_error_range _ _ Hi).
    destruct (@nth_error_is_some _ (Post df) i) as [p ->]; [lia|].
    destruct (@nth_error_is_some _ (Treatment df) i) as [t ->]; [lia|].
    destruct (@nth_error_is_some _ (Slope df) i) as [s ->]; [lia|].
    destruct (@nth_error_is_some _ (Intercept df) i) as [c ->]; [lia|].
    destruct (@nth_error_is_some _ (FixedEffectIndividual df) i) as [fi ->];
      [lia|].
    destruct (@nth_error_is_some _ (FixedEffectTime df) i) as [ft ->]; [lia|].
    destruct (@nth_error_is_some _ (Dependent df) i) as [d ->]; [lia|].
    eexists. split; reflexivity.
  - intros i r Hr. unfold iloc in Hr.
    destruct (nth_error (Year df) i) as [y|] eqn:Ey; [|discriminate].
    destruct (nth_error (Post df) i) as [p|] eqn:Ep; [|discriminate].
    destruct (nth_error (Treatment df) i) as [t|] eqn:Et; [|discriminate].
    destruct (nth_error (Slope df) i) as [s|] eqn:Esl; [|discriminate].
    destruct (nth_error (Intercept df) i) as [c|] eqn:Ec; [|discriminate].
    destruct (nth_error (FixedEffectIndividual df) i) as [fi|] eqn:Efi;
      [|discriminate].
    destruct (nth_error (FixedEffectTime df) i) as [ft|] eqn:Eft;
      [|discriminate].
    destruct (nth_error (Dependent df) i) as [d|] eqn:Ed; [|discriminate].
    inversion Hr; subst r; clear Hr.
    cbn [r_Treatment r_Slope r_Intercept r_FixedEffectIndividual
         r_FixedEffectTime r_Dependent].
    apply time_series_inv in E.
    destruct E as (sl & ic & fei & g1 & _ & _ & _ & _ & _ & Ht & Hs & _
                   & _ & _ & Hd).
    assert (Hsl : s = sl).
    { rewrite Hs in Esl. apply nth_error_repeat_some in Esl. tauto. }
    subst s. split.
    + rewrite Ht, nth_error_map, Ep in Et. inversion Et; subst t.
      destruct p, (property_dummy (cluster self)); simpl; auto.
    + assert (Hb : nth_error
                     (base_dependent sl (Treatment df) (Intercept df)
                        (FixedEffectIndividual df) (FixedEffectTime df)) i
                   = Some (fadd (fadd (fadd (fmul sl (of_Z t)) (of_Z c)) fi) ft)).
      { unfold base_dependent. rewrite !nth_error_zip_with.
        replace (repeat sl (length (Treatment df))) with (Slope df)
          by (rewrite Hs, Lt, range_length; reflexivity).
        rewrite Esl, Et, Ec, Efi, Eft. reflexivity. }
      rewrite Hd in Ed. rewrite Hy, range_length.
      destruct (noise self); simpl in Ed.
      * rewrite nth_error_zip_with, Hb in Ed.
        rewrite range_length in Ed. unfold noise_array in Ed.
        destruct (nth_error (fst (uniform _ _ _ _)) i) as [x|] eqn:Ex;
          [|discriminate].
        injection Ed as Ed. exists x. split; [reflexivity|]. symmetry. exact Ed.
      * rewrite Hb in Ed. injection Ed as Ed. symmetry. exact Ed.
Qed.

(** *** The assembled sample *)

Lemma mapM_inv {A B} (f : A -> M (G:=G) B) : forall l g bs g',
  mapM f l g = (Ok bs, g') ->
  Forall2 (fun a b => exists g1 g2, f a g1 = (Ok b, g2)) l bs.
Proof.
  induction l as [|a l IH]; simpl; intros g bs g'.
  - unfold ret. intros E; inversion E. constructor.
  - unfold bind at 1. destruct (f a g) as [[b|e] g1] eqn:Ef; [|discriminate].
    unfold bind at 1.
    destruct (mapM f l g1) as [[bs'|e] g2] eqn:Em; [|discriminate].
    unfold ret. intros E; inversion E; subst.
    constructor; [eauto|]. eapply IH. exact Em.
Qed.

(** A block of [sample.data]: the identifier of an individual and the table
    [time_series] returned for it, called without a treatment year. *)
Definition block_of (start_year end_year : Z) (ind : Individual)
    (b : Z * DataFrame F) : Prop :=
  fst b = identifier ind /\
  exists g1 g2, time_series ind start_year end_year None g1 = (Ok (snd b), g2).

Lemma init_sample_inv start_year end_year treatment_year inds g p g' :
  _init_sample start_year end_year treatment_year inds g = (Ok p, g') ->
  exists blocks,
    Forall2 (block_of start_year end_year) inds blocks /\
    pd_concat blocks = Ok p.
Proof.
  unfold _init_sample, bind at 1.
  destruct (mapM _ inds g) as [[blocks|e] g1] eqn:Em; [|discriminate].
  unfold lift. intros E. injection E as Hc _.
  exists blocks. split; [|exact Hc].
  apply mapM_inv in Em.
  clear Hc. induction Em as [|ind b inds blocks (g2 & g3 & Hb) _ IH];
    constructor; [|exact IH].
  unfold bind in Hb.
  destruct (time_series ind start_year end_year None g2) as [[df|e] g4] eqn:Et;
    [|discriminate].
  unfold ret in Hb. inversion Hb; subst. split; [reflexivity|]. simpl. eauto.
Qed.

Definition concat_frames (blocks : list (Z * DataFrame F)) : DataFrame F :=
  fold_right (fun b acc => append_frame (snd b) acc) empty_frame blocks.

Lemma pd_concat_body blocks p :
  pd_concat blocks = Ok p -> body p = concat_frames blocks.
Proof.
  unfold pd_concat. destruct blocks; [discriminate|].
  intros E; inversion E; subst. reflexivity.
Qed.

Lemma blocks_post start_year end_year inds blocks :
  Forall2 (block_of start_year end_year) inds blocks ->
  Post (concat_frames blocks) =
    map (fun y => (default_treatment_year start_year end_year <=? y)%Z)
        (Year (concat_frames blocks)).
Proof.
  induction 1 as [|ind b inds blocks [_ (g1 & g2 & Hb)] _ IH]; simpl;
    [reflexivity|].
  apply time_series_inv in Hb.
  destruct Hb as (sl & ic & fei & g3 & _ & _ & _ & Hy & Hp & _).
  rewrite map_app, IH, Hp, Hy. reflexivity.
Qed.

(** C4: the sample built for one treatment year is the sample built for any
    other, generator state included; in the table every row has [Post] true
    exactly from the default treatment year on, which for the driver's years
    2013 to 2022 is 2018 and not the 2017 it passes. *)
Theorem sample_independent_of_treatment_year
    (start_year end_year : Z) (effects : Effects) (noise : Noise.t) (g : G) :
  (forall t1 t2 : option Z,
     Sample_init start_year end_year t1 effects noise g
       = Sample_init start_year end_year t2 effects noise g) /\
  (forall t smp g',
     Sample_init start_year end_year t effects noise g = (Ok smp, g') ->
     Post (body (data smp)) =
       map (fun y => (end_year - (end_year - start_year) / 2 <=? y)%Z)
           (Year (body (data smp)))) /\
  default_treatment_year 2013 2022 = 2018%Z.
Proof.
  split; [reflexivity|]. split; [|reflexivity].
  intros t smp g'. unfold Sample_init, bind at 1.
  destruct (_init_clusters g) as [[cl|e] g1]; [|discriminate].
  unfold bind at 1.
  destruct (_init_sample _ _ t _ g1) as [[p|e] g2] eqn:Es; [|discriminate].
  unfold ret. intros E; inversion E; subst; simpl.
  apply init_sample_inv in Es. destruct Es as (blocks & Hb & Hc).
  rewrite (pd_concat_body _ Hc). exact (blocks_post Hb).
Qed.

End Generator.

End PanelFacts.

(** ** Facts about the demeaning of the driver *)

Module DriverFacts.
Import Panel PanelFacts.

(** *** The shape of a balanced panel

    A panel is given by blocks, one per individual: its identifier and its
    values, one per year. *)

Section Shape.

Context {F : Type} `{Float F}.

Definition rows_of (years : list Z) (b : Z * list F) : Series :=
  combine (map (pair (fst b)) years) (snd b).

Definition panel_series (years : list Z) (P : list (Z * list F)) : Series :=
  flat_map (rows_of years) P.

Record balanced (years : list Z) (P : list (Z * list F)) : Prop := {
  ids_nodup : NoDup (map fst P);
  years_nodup : NoDup years;
  widths : Forall (fun b => length (snd b) = length years) P
}.

(** The values of year number [k], one per individual. *)
Definition column (d : F) (k : nat) (P : list (Z * list F)) : list F :=
  map (fun b => nth k (snd b) d) P.

Lemma all_some_app {A} (l1 l2 : list (option A)) r1 r2 :
  all_some l1 = Some r1 -> all_some l2 = Some r2 ->
  all_some (l1 ++ l2) = Some (r1 ++ r2).
Proof.
  revert r1. induction l1 as [|[a|] l1 IH]; simpl; intros r1 E1 E2.
  - inversion E1. exact E2.
  - destruct (all_some l1) as [r|]; [|discriminate].
    inversion E1; subst. rewrite (IH r eq_refl E2). reflexivity.
  - discriminate.
Qed.

Lemma map_snd_combine {A B} (l1 : list A) : forall (l2 : list B),
  length l2 = length l1 -> map snd (combine l1 l2) = l2.
Proof.
  induction l1 as [|a l1 IH]; intros [|b l2] E; simpl in *;
    try discriminate; try reflexivity.
  rewrite IH by lia. reflexivity.
Qed.

(** Zipping two concatenations whose first parts have the same length. *)
Lemma combine_app {A B} (xs : list A) : forall (us : list B) ys vs,
  length us = length xs ->
  combine (xs ++ ys) (us ++ vs) = combine xs us ++ combine ys vs.
Proof.
  induction xs as [|x xs IH]; intros [|u us] ys vs E; simpl in *;
    try discriminate; try reflexivity.
  rewrite IH by lia. reflexivity.
Qed.

Lemma rows_values years b :
  length (snd b) = length years -> map snd (rows_of years b) = snd b.
Proof.
  intros E. unfold rows_of. apply map_snd_combine.
  rewrite length_map. exact E.
Qed.

Lemma panel_values years P :
  Forall (fun b => length (snd b) = length years) P ->
  map snd (panel_series years P) = concat (map snd P).
Proof.
  induction 1 as [|b P Hb _ IH]; simpl; [reflexivity|].
  rewrite map_app, IH, rows_values by exact Hb. reflexivity.
Qed.

(** **** Groups *)

Lemma rows_individual years b k :
  group_rows by_Individual k (rows_of years b) =
    if Z.eqb (fst b) k then rows_of years b else [].
Proof.
  unfold rows_of, group_rows. destruct b as [i vs]. simpl.
  destruct (Z.eqb i k) eqn:E; revert vs;
    induction years as [|y years IH]; intros vs; simpl; try reflexivity;
    destruct vs as [|v vs]; simpl; try reflexivity;
    unfold by_Individual at 1; simpl; rewrite E, IH; reflexivity.
Qed.

Lemma group_individual years P b :
  NoDup (map fst P) -> In b P ->
  group_rows by_Individual (fst b) (panel_series years P) = rows_of years b.
Proof.
  unfold panel_series.
  induction P as [|b' P IH]; simpl; intros Hnd Hin; [contradiction|].
  inversion Hnd as [|? ? Hnotin Hnd']; subst.
  unfold group_rows in *. rewrite filter_app.
  fold (group_rows by_Individual (fst b) (rows_of years b')).
  rewrite rows_individual.
  destruct Hin as [->|Hin].
  - rewrite Z.eqb_refl.
    assert (Hrest : filter (fun r => Z.eqb (by_Individual (fst r)) (fst b))
                      (flat_map (rows_of years) P) = []).
    { clear IH Hnd Hnd'. induction P as [|c P IHP]; simpl; [reflexivity|].
      rewrite filter_app.
      fold (group_rows by_Individual (fst b) (rows_of years c)).
      rewrite rows_individual.
      destruct (Z.eqb_spec (fst c) (fst b)) as [E|E].
      - exfalso. apply Hnotin. simpl. left. exact E.
      - simpl. apply IHP. intros Hc. apply Hnotin. simpl. right. exact Hc. }
    rewrite Hrest. apply app_nil_r.
  - destruct (Z.eqb_spec (fst b') (fst b)) as [E|E].
    + exfalso. apply Hnotin. rewrite E. apply in_map. exact Hin.
    + simpl. apply IH; assumption.
Qed.

Lemma rows_other_year (i t : Z) years : forall vs : list F,
  ~ In t years ->
  group_rows by_Year t (combine (map (pair i) years) vs) = [].
Proof.
  unfold group_rows.
  induction years as [|y years IH]; intros vs Hnotin; simpl; [reflexivity|].
  destruct vs as [|v vs]; [reflexivity|]. simpl.
  destruct (Z.eqb_spec y t) as [E|E].
  - exfalso. apply Hnotin. left. exact E.
  - apply IH. intros Hc. apply Hnotin. right. exact Hc.
Qed.

Lemma rows_year d years : forall k t b,
  NoDup years -> nth_error years k = Some t ->
  length (snd b) = length years ->
  map snd (group_rows by_Year t (rows_of years b)) = [nth k (snd b) d].
Proof.
  unfold rows_of.
  induction years as [|y years IH]; intros k t [i vs] Hnd Hk Hlen;
    simpl in *.
  - destruct k; discriminate.
  - destruct vs as [|v vs]; [discriminate|].
    inversion Hnd as [|? ? Hnotin Hnd']; subst.
    unfold group_rows in *. simpl.
    destruct k as [|k]; simpl in *.
    + inversion Hk; subst.
      rewrite Z.eqb_refl.
      pose proof (@rows_other_year i t years vs Hnotin) as Hr.
      unfold group_rows in Hr. simpl. rewrite Hr. reflexivity.
    + destruct (Z.eqb_spec y t) as [E|E].
      * exfalso. apply Hnotin. subst y.
        eapply nth_error_In. exact Hk.
      * apply (IH k t (i, vs)); simpl; auto.
Qed.

Lemma group_year d years P k t :
  NoDup years -> nth_error years k = Some t ->
  Forall (fun b => length (snd b) = length years) P ->
  map snd (group_rows by_Year t (panel_series years P)) = column d k P.
Proof.
  intros Hnd Hk. unfold panel_series, column.
  induction 1 as [|b P Hb _ IH]; simpl; [reflexivity|].
  unfold group_rows in *. rewrite filter_app, map_app, IH.
  pose proof (@rows_year d years k t b Hnd Hk Hb) as Hr.
  unfold group_rows in Hr. rewrite Hr. reflexivity.
Qed.

(** **** Keys *)

Lemma find_key_map (f : Z -> F) k : forall keys,
  In k keys -> find_key k (map (fun k => (k, f k)) keys) = Some (f k).
Proof.
  induction keys as [|k' keys IH]; simpl; intros Hin; [contradiction|].
  destruct (Z.eqb_spec k' k) as [->|E]; [reflexivity|].
  destruct Hin as [Hk|Hin]; [contradiction|]. apply IH. exact Hin.
Qed.

Lemma find_groupby level (s : Series) k :
  group_rows level k s <> [] ->
  find_key k (groupby_mean level s)
    = Some (series_mean (group_rows level k s)).
Proof.
  intros Hne. unfold groupby_mean.
  apply (find_key_map (fun k => series_mean (group_rows level k s))).
  eapply Permutation_in; [apply sort_perm|]. apply nodup_In.
  destruct (group_rows level k s) as [|r rest] eqn:E; [contradiction|].
  assert (Hr : In r (group_rows level k s)) by (rewrite E; left; reflexivity).
  unfold group_rows in Hr. apply filter_In in Hr. destruct Hr as [Hr Hk].
  apply Z.eqb_eq in Hk. rewrite <- Hk.
  apply (in_map (fun r => level (fst r))). exact Hr.
Qed.

(** **** Subtraction *)

Lemma subtract_level_app level (s1 s2 : Series) other r1 r2 :
  subtract_level level s1 other = Some r1 ->
  subtract_level level s2 other = Some r2 ->
  subtract_level level (s1 ++ s2) other = Some (r1 ++ r2).
Proof.
  unfold subtract_level. rewrite map_app. apply all_some_app.
Qed.

Lemma subtract_rows_individual years other mu : forall b,
  find_key (fst b) other = Some mu ->
  subtract_level by_Individual (rows_of years b) other =
    Some (rows_of years (fst b, map (fun v => fsub v mu) (snd b))).
Proof.
  intros [i vs] Hmu. unfold rows_of, subtract_level. simpl in *.
  revert vs. induction years as [|y years IH]; intros vs; simpl;
    [reflexivity|].
  destruct vs as [|v vs]; simpl; [reflexivity|].
  unfold by_Individual at 1. simpl. rewrite Hmu. simpl.
  rewrite IH. reflexivity.
Qed.

Lemma subtract_individual years other (mu : Z -> F) : forall P,
  (forall b, In b P -> find_key (fst b) other = Some (mu (fst b))) ->
  subtract_level by_Individual (panel_series years P) other =
    Some (panel_series years
            (map (fun b => (fst b, map (fun v => fsub v (mu (fst b))) (snd b)))
                 P)).
Proof.
  unfold panel_series.
  induction P as [|b P IH]; intros Hmu; simpl; [reflexivity|].
  apply subtract_level_app.
  - apply subtract_rows_individual. apply Hmu. left. reflexivity.
  - apply IH. intros c Hc. apply Hmu. right. exact Hc.
Qed.

Lemma subtract_rows_year other (nu : Z -> F) i : forall years vs,
  (forall t, In t years -> find_key t other = Some (nu t)) ->
  subtract_level by_Year (rows_of years (i, vs)) other =
    Some (rows_of years (i, zip_with fsub vs (map nu years))).
Proof.
  unfold rows_of, subtract_level, zip_with. simpl.
  induction years as [|y years IH]; intros vs Hnu; simpl; [reflexivity|].
  destruct vs as [|v vs]; simpl; [reflexivity|].
  unfold by_Year at 1. simpl. rewrite (Hnu y) by (left; reflexivity). simpl.
  rewrite IH by (intros t Ht; apply Hnu; right; exact Ht). reflexivity.
Qed.

Lemma subtract_year years other (nu : Z -> F) : forall P,
  (forall t, In t years -> find_key t other = Some (nu t)) ->
  subtract_level by_Year (panel_series years P) other =
    Some (panel_series years
            (map (fun b => (fst b, zip_with fsub (snd b) (map nu years))) P)).
Proof.
  unfold panel_series.
  induction P as [|[i vs] P IH]; intros Hnu; simpl; [reflexivity|].
  apply subtract_level_app.
  - apply subtract_rows_year. exact Hnu.
  - apply IH. exact Hnu.
Qed.

Lemma subtract_scalar_panel years c : forall P,
  subtract_scalar (panel_series years P) c =
    panel_series years
      (map (fun b => (fst b, map (fun v => fsub v c) (snd b))) P).
Proof.
  unfold panel_series, subtract_scalar.
  induction P as [|[i vs] P IH]; simpl; [reflexivity|].
  rewrite map_app, IH. f_equal.
  unfold rows_of. simpl. clear IH. revert vs.
  induction years as [|y years IHy]; intros vs; simpl; [reflexivity|].
  destruct vs as [|v vs]; simpl; [reflexivity|]. rewrite IHy. reflexivity.
Qed.

End Shape.


(** *** The assembled sample is a balanced panel *)

Section Assembled.

Context {F G : Type} `{Float F} `{Generator F G}.

Lemma combine_repeat {A B} (a : A) (l : list B) :
  combine (repeat a (length l)) l = map (pair a) l.
Proof. induction l as [|b l IH]; simpl; [reflexivity|]. rewrite IH. reflexivity. Qed.

Lemma range_nodup a b : NoDup (range a b).
Proof.
  unfold range. apply Finite.Injective_map_NoDup; [|apply seq_NoDup].
  intros x y E. lia.
Qed.

Lemma enumerate_keys {A} (l : list A) : forall i,
  map fst (enumerate_from i l) = range i (i + Z.of_nat (length l)).
Proof.
  unfold range. induction l as [|a l IH]; intros i; simpl length.
  - replace (i + Z.of_nat 0 - i)%Z with 0%Z by lia. reflexivity.
  - replace (Z.to_nat (i + Z.of_nat (S (length l)) - i)) with (S (length l))
      by lia.
    simpl. rewrite IH. f_equal; [f_equal; lia|].
    replace (Z.to_nat (i + 1 + Z.of_nat (length l) - (i + 1))) with (length l)
      by lia.
    rewrite <- seq_shift, map_map. apply map_ext. intros k. lia.
Qed.

Lemma blocks_keys start_year end_year inds (blocks : list (Z * DataFrame F)) :
  Forall2 (block_of start_year end_year) inds blocks ->
  map fst blocks = map identifier inds.
Proof.
  induction 1 as [|ind b inds blocks [Hb _] _ IH]; simpl; [reflexivity|].
  rewrite Hb, IH. reflexivity.
Qed.

Lemma blocks_series (laws : GeneratorLaws F G) start_year end_year inds
    (blocks : list (Z * DataFrame F)) :
  Forall2 (block_of start_year end_year) inds blocks ->
  let years := range start_year end_year in
  let P := map (fun b => (fst b, Dependent (snd b))) blocks in
  combine
    (combine (flat_map (fun b => repeat (fst b) (length (Year (snd b)))) blocks)
             (Year (concat_frames blocks)))
    (Dependent (concat_frames blocks))
    = panel_series years P /\
  Forall (fun b => length (snd b) = length years) P.
Proof.
  intros Hb years P. subst P.
  induction Hb as [|ind b inds blocks [_ (g1 & g2 & Hts)] _ [IH1 IH2]]; simpl.
  - split; [reflexivity|constructor].
  - destruct (time_series_lengths laws _ _ _ _ _ Hts)
      as (Hy & _ & _ & _ & _ & _ & _ & Ld).
    split.
    + rewrite !combine_app.
      * rewrite IH1. f_equal. unfold rows_of. simpl.
        rewrite combine_repeat, Hy. reflexivity.
      * rewrite length_combine, repeat_length, Ld, Hy, range_length. lia.
      * rewrite repeat_length. reflexivity.
    + constructor; [|exact IH2]. simpl. unfold years.
      rewrite Ld, range_length. reflexivity.
Qed.

(** The column [Dependent] of a sample that was built is a balanced panel
    over the years of the range, with at least one individual. *)
Lemma sample_is_balanced (laws : GeneratorLaws F G)
    start_year end_year treatment_year effects noise g smp g' :
  Sample_init start_year end_year treatment_year effects noise g
    = (Ok smp, g') ->
  exists P,
    Dependent_of (data smp) = panel_series (range start_year end_year) P /\
    balanced (range start_year end_year) P /\ P <> [].
Proof.
  unfold Sample_init, bind at 1.
  destruct (_init_clusters g) as [[cl|e] g1]; [|discriminate].
  unfold bind at 1.
  destruct (_init_sample _ _ _ _ g1) as [[p|e] g2] eqn:Es; [|discriminate].
  unfold ret. intros E; inversion E; subst; clear E. simpl.
  apply init_sample_inv in Es. destruct Es as (blocks & Hb & Hc).
  destruct (blocks_series laws Hb) as [Hs Hw].
  assert (Hids : NoDup (map fst
                   (map (fun b => (fst b, Dependent (snd b))) blocks))).
  { rewrite map_map. rewrite (map_ext _ fst) by reflexivity.
    rewrite (blocks_keys Hb). unfold _init_individuals. rewrite map_map.
    rewrite (map_ext _ fst) by reflexivity.
    rewrite enumerate_keys. apply range_nodup. }
  exists (map (fun b => (fst b, Dependent (snd b))) blocks).
  unfold pd_concat in Hc. destruct blocks as [|b0 blocks]; [discriminate|].
  inversion Hc; subst p; clear Hc.
  split; [exact Hs|]. split; [|discriminate].
  constructor; [exact Hids|apply range_nodup|exact Hw].
Qed.

End Assembled.

(** *** Sums and means in exact arithmetic *)

Section Means.

Import Exact.
Local Open Scope Qc_scope.

Definition natQ (n : nat) : Qc := of_Z (Z.of_nat n).

Lemma natQ_S n : natQ (S n) = 1 + natQ n.
Proof.
  unfold natQ. cbn [of_Z Qc_Float]. apply Qc_is_canon.
  unfold Qcplus, Q2Qc. cbn [this]. rewrite !Qred_correct.
  rewrite Nat2Z.inj_succ. unfold Qeq. cbn [Qnum Qden inject_Z Qplus]. lia.
Qed.

Lemma natQ_mul n m : natQ (n * m) = natQ n * natQ m.
Proof.
  unfold natQ. cbn [of_Z Qc_Float]. apply Qc_is_canon.
  unfold Qcmult, Q2Qc. cbn [this]. rewrite !Qred_correct.
  rewrite Nat2Z.inj_mul. unfold Qeq. cbn [Qnum Qden inject_Z Qmult]. lia.
Qed.

Lemma natQ_nonzero n : n <> 0%nat -> natQ n <> 0.
Proof.
  intros Hn E. unfold natQ in E. cbn [of_Z Qc_Float] in E.
  apply Q2Qc_eq_iff in E.
  unfold Qeq in E. cbn [Qnum Qden inject_Z] in E. lia.
Qed.

Lemma total_from (l : list Qc) : forall a,
  fold_left Qcplus l a = a + fold_left Qcplus l 0.
Proof.
  induction l as [|x l IH]; intros a; simpl; [ring|].
  rewrite IH, (IH (0 + x)). ring.
Qed.

Lemma total_nil : total (F:=Qc) [] = 0.
Proof. apply Qc_is_canon. reflexivity. Qed.

Lemma total_cons x (l : list Qc) : total (x :: l) = x + total l.
Proof.
  unfold total. simpl. rewrite total_from.
  replace (Q2Qc (inject_Z 0)) with 0 by (apply Qc_is_canon; reflexivity).
  ring.
Qed.

Lemma total_app (l1 l2 : list Qc) : total (l1 ++ l2) = total l1 + total l2.
Proof.
  induction l1 as [|x l1 IH]; simpl.
  - rewrite total_nil. ring.
  - rewrite !total_cons, IH. ring.
Qed.

Lemma total_concat (L : list (list Qc)) :
  total (concat L) = total (map total L).
Proof.
  induction L as [|l L IH]; simpl; [reflexivity|].
  rewrite total_app, total_cons, IH. reflexivity.
Qed.

Lemma total_map_sub {A} (f g : A -> Qc) (l : list A) :
  total (map (fun x => f x - g x) l) = total (map f l) - total (map g l).
Proof.
  induction l as [|x l IH]; simpl.
  - rewrite total_nil. ring.
  - rewrite !total_cons, IH. ring.
Qed.

Lemma total_map_const {A} (c : Qc) (l : list A) :
  total (map (fun _ => c) l) = natQ (length l) * c.
Proof.
  induction l as [|x l IH]; simpl length.
  - simpl. rewrite total_nil.
    replace (natQ 0) with 0 by (apply Qc_is_canon; reflexivity). ring.
  - simpl map. rewrite total_cons, IH, natQ_S. ring.
Qed.

Lemma total_map_div {A} (f : A -> Qc) (c : Qc) (l : list A) :
  total (map (fun x => f x / c) l) = total (map f l) / c.
Proof.
  induction l as [|x l IH]; simpl.
  - rewrite total_nil. unfold Qcdiv. ring.
  - rewrite !total_cons, IH. unfold Qcdiv. ring.
Qed.

Lemma mean_of_eq (l : list Qc) : mean_of l = total l / natQ (length l).
Proof. reflexivity. Qed.

(** *** The three derived series of a balanced panel *)

Definition less_individual (mu : Z -> Qc) (b : Z * list Qc) : Z * list Qc :=
  (fst b, map (fun v => v - mu (fst b)) (snd b)).

Definition less_year (nu : Z -> Qc) (years : list Z) (b : Z * list Qc)
    : Z * list Qc :=
  (fst b, zip_with Qcminus (snd b) (map nu years)).

Definition less_scalar (c : Qc) (b : Z * list Qc) : Z * list Qc :=
  (fst b, map (fun v => v - c) (snd b)).

Lemma individual_entry years P b :
  balanced years P -> years <> [] -> In b P ->
  find_key (fst b) (groupby_mean by_Individual (panel_series years P))
    = Some (series_mean
              (group_rows by_Individual (fst b) (panel_series years P))) /\
  series_mean (group_rows by_Individual (fst b) (panel_series years P))
    = mean_of (snd b).
Proof.
  intros [Hids Hyrs Hw] Hy Hin.
  assert (Hb : length (snd b) = length years)
    by (rewrite Forall_forall in Hw; apply Hw; exact Hin).
  rewrite (group_individual years P b Hids Hin). split.
  - rewrite <- (group_individual years P b Hids Hin). apply find_groupby.
    rewrite (group_individual years P b Hids Hin).
    intros E. apply (f_equal (@length _)) in E. unfold rows_of in E.
    rewrite length_combine, length_map, Hb in E.
    destruct years; [contradiction|]. simpl in E. lia.
  - unfold series_mean. rewrite rows_values by exact Hb. reflexivity.
Qed.

Lemma year_entry years P k t :
  balanced years P -> P <> [] -> nth_error years k = Some t ->
  find_key t (groupby_mean by_Year (panel_series years P))
    = Some (series_mean (group_rows by_Year t (panel_series years P))) /\
  series_mean (group_rows by_Year t (panel_series years P))
    = mean_of (column 0 k P).
Proof.
  intros [Hids Hyrs Hw] HP Hk.
  pose proof (group_year 0 k Hyrs Hk Hw) as Hg. split.
  - apply find_groupby. intros E. rewrite E in Hg. simpl in Hg.
    destruct P; [contradiction|discriminate].
  - unfold series_mean. rewrite Hg. reflexivity.
Qed.

Lemma balanced_less_individual mu years P :
  balanced years P -> balanced years (map (less_individual mu) P).
Proof.
  intros [Hids Hyrs Hw]. constructor.
  - rewrite map_map. exact Hids.
  - exact Hyrs.
  - rewrite Forall_map. eapply Forall_impl; [|exact Hw].
    intros b Hb. simpl. rewrite length_map. exact Hb.
Qed.

Lemma balanced_less_year nu years P :
  balanced years P -> balanced years (map (less_year nu years) P).
Proof.
  intros [Hids Hyrs Hw]. constructor.
  - rewrite map_map. exact Hids.
  - exact Hyrs.
  - rewrite Forall_map. eapply Forall_impl; [|exact Hw].
    intros b Hb. simpl. rewrite zip_with_length, length_map, Hb. lia.
Qed.

Lemma balanced_less_scalar c years P :
  balanced years P -> balanced years (map (less_scalar c) P).
Proof.
  intros [Hids Hyrs Hw]. constructor.
  - rewrite map_map. exact Hids.
  - exact Hyrs.
  - rewrite Forall_map. eapply Forall_impl; [|exact Hw].
    intros b Hb. simpl. rewrite length_map. exact Hb.
Qed.

(** The driver's block on a balanced panel, series by series. *)
Lemma demean_panel years P :
  balanced years P -> P <> [] -> years <> [] ->
  let s := panel_series years P in
  let mu k := series_mean (group_rows by_Individual k s) in
  let nu t := series_mean (group_rows by_Year t s) in
  demean s =
    Some {| mean_individual := groupby_mean by_Individual s;
            mean_time := groupby_mean by_Year s;
            mean := series_mean s;
            sample_individual :=
              panel_series years (map (less_individual mu) P);
            sample_time := panel_series years (map (less_year nu years) P);
            sample_twfe :=
              panel_series years
                (map (less_scalar (series_mean s))
                   (map (less_year nu years)
                      (map (less_individual mu) P))) |}.
Proof.
  intros Hbal HP Hy s mu nu. unfold demean. fold s.
  assert (Hmu : forall b, In b P ->
            find_key (fst b) (groupby_mean by_Individual s)
              = Some (mu (fst b))).
  { intros b Hb. exact (proj1 (@individual_entry years P b Hbal Hy Hb)). }
  assert (Hnu : forall t, In t years ->
            find_key t (groupby_mean by_Year s) = Some (nu t)).
  { intros t Ht. apply In_nth_error in Ht. destruct Ht as [k Hk].
    exact (proj1 (@year_entry years P k t Hbal HP Hk)). }
  pose proof (subtract_individual years (groupby_mean by_Individual s) mu P Hmu)
    as E1.
  pose proof (subtract_year years (groupby_mean by_Year s) nu P Hnu) as E2.
  pose proof (subtract_year years (groupby_mean by_Year s) nu
                (map (fun b => (fst b, map (fun v => fsub v (mu (fst b))) (snd b))) P)
                Hnu) as E3.
  fold s in E1, E2.
  rewrite E1. cbn [obind]. rewrite E2. cbn [obind]. rewrite E3. cbn [obind].
  rewrite subtract_scalar_panel. reflexivity.
Qed.

Lemma nth_map_minus (f : Qc -> Qc) k (vs : list Qc) :
  (k < length vs)%nat -> nth k (map f vs) 0 = f (nth k vs 0).
Proof.
  intros Hk. apply nth_error_nth. rewrite nth_error_map.
  rewrite (nth_error_nth' vs 0 Hk). reflexivity.
Qed.

Lemma nth_less_year (nu : Z -> Qc) years k t (vs : list Qc) :
  nth_error years k = Some t -> length vs = length years ->
  nth k (zip_with Qcminus vs (map nu years)) 0 = nth k vs 0 - nu t.
Proof.
  intros Hk Hlen. apply nth_error_nth. rewrite nth_error_zip_with.
  assert (Hlt : (k < length vs)%nat).
  { rewrite Hlen. apply nth_error_Some. rewrite Hk. discriminate. }
  rewrite (nth_error_nth' vs 0 Hlt), nth_error_map, Hk. reflexivity.
Qed.

Lemma mean_less_constant {A} (x : A -> Qc) (c : Qc) (l : list A) :
  l <> [] ->
  mean_of (map (fun b => x b - c) l) = mean_of (map x l) - c.
Proof.
  intros Hl. rewrite !mean_of_eq, !length_map.
  rewrite (total_map_sub x (fun _ => c)), total_map_const.
  field. apply natQ_nonzero. destruct l; [contradiction|discriminate].
Qed.

(** The grand mean of a balanced panel is the mean of the individuals'
    means. *)
Lemma mean_of_individual_means (years : list Z) (P : list (Z * list Qc)) :
  Forall (fun b => length (snd b) = length years) P ->
  P <> [] -> years <> [] ->
  mean_of (map (fun b => mean_of (snd b)) P) = mean_of (concat (map snd P)).
Proof.
  intros Hw HP Hy.
  assert (Hlen : length (concat (map snd P)) = (length P * length years)%nat).
  { clear HP. induction Hw as [|b P Hb _ IH]; simpl; [reflexivity|].
    rewrite length_app, IH, Hb. reflexivity. }
  assert (Hmeans : map (fun b => mean_of (snd b)) P =
                   map (fun b => total (snd b) / natQ (length years)) P).
  { apply map_ext_in. intros b Hb. rewrite Forall_forall in Hw.
    rewrite mean_of_eq, (Hw b Hb). reflexivity. }
  rewrite Hmeans, !mean_of_eq, Hlen, natQ_mul, length_map.
  rewrite (total_map_div (fun b => total (snd b))), total_concat, map_map.
  field. split; apply natQ_nonzero.
  - destruct years; [contradiction|discriminate].
  - destruct P; [contradiction|discriminate].
Qed.

(** On a balanced panel the driver's block succeeds and, for every year,
    the cross-individual mean of the time-demeaned series is zero while the
    one of the two-way series is minus twice the grand mean. *)
Lemma twfe_year_means years P k t :
  balanced years P -> P <> [] -> nth_error years k = Some t ->
  exists d,
    demean (panel_series years P) = Some d /\
    mean d = series_mean (panel_series years P) /\
    find_key t (groupby_mean by_Year (sample_time d)) = Some 0 /\
    find_key t (groupby_mean by_Year (sample_twfe d))
      = Some (0 - mean d - mean d).
Proof.
  intros Hbal HP Hk.
  assert (Hy : years <> []) by (intros E; subst; destruct k; discriminate).
  pose proof Hbal as [Hids Hyrs Hw].
  eexists. split; [apply (demean_panel Hbal HP Hy)|].
  cbn [mean sample_time sample_twfe].
  set (s := panel_series years P).
  set (mu := fun k => series_mean (group_rows by_Individual k s)).
  set (nu := fun t => series_mean (group_rows by_Year t s)).
  set (m := series_mean s).
  set (x := fun b : Z * list Qc => nth k (snd b) 0).
  assert (Hnu : nu t = mean_of (map x P)).
  { exact (proj2 (@year_entry years P k t Hbal HP Hk)). }
  assert (Hmu : map (fun b => mu (fst b)) P
                = map (fun b => mean_of (snd b)) P).
  { apply map_ext_in. intros b Hb.
    exact (proj2 (@individual_entry years P b Hbal Hy Hb)). }
  assert (Hm : m = mean_of (concat (map snd P))).
  { unfold m, s, series_mean. rewrite panel_values by exact Hw. reflexivity. }
  assert (Hwb : forall b, In b P -> length (snd b) = length years)
    by (rewrite Forall_forall in Hw; exact Hw).
  split; [reflexivity|]. split.
  - pose proof (balanced_less_year nu Hbal) as Hb1.
    destruct (@year_entry years (map (less_year nu years) P) k t Hb1)
      as [E1 E2]; [destruct P; [contradiction|discriminate]|exact Hk|].
    rewrite E1, E2. f_equal. unfold column. rewrite map_map.
    rewrite (map_ext_in _ (fun b => x b - nu t)).
    + rewrite (mean_less_constant x (nu t) HP), Hnu. ring.
    + intros b Hb. simpl. apply nth_less_year; [exact Hk|]. apply Hwb, Hb.
  - pose proof (balanced_less_scalar m
                  (balanced_less_year nu
                     (balanced_less_individual mu Hbal))) as Hb3.
    destruct (@year_entry years _ k t Hb3) as [E1 E2];
      [destruct P; [contradiction|discriminate]|exact Hk|].
    rewrite E1, E2. f_equal. unfold column. rewrite !map_map.
    rewrite (map_ext_in _ (fun b => (x b - mu (fst b)) - nu t - m)).
    + rewrite (mean_less_constant (fun b => x b - mu (fst b) - nu t) m HP).
      rewrite (mean_less_constant (fun b => x b - mu (fst b)) (nu t) HP).
      rewrite !mean_of_eq, !length_map.
      rewrite (total_map_sub x (fun b => mu (fst b))), Hmu.
      pose proof (mean_of_individual_means Hw HP Hy) as Hg.
      rewrite <- Hm, mean_of_eq, length_map in Hg.
      rewrite Hnu, mean_of_eq, length_map.
      assert (Hn : natQ (length P) <> 0)
        by (apply natQ_nonzero; destruct P; [contradiction|discriminate]).
      rewrite <- Hg. field. exact Hn.
    + intros b Hb. simpl.
      assert (Hlt : (k < length (snd b))%nat).
      { rewrite (Hwb b Hb). apply nth_error_Some. rewrite Hk. discriminate. }
      rewrite nth_map_minus.
      * rewrite (@nth_less_year nu years k t); [|exact Hk|].
        -- rewrite nth_map_minus by exact Hlt. reflexivity.
        -- rewrite length_map. apply Hwb, Hb.
      * rewrite zip_with_length, !length_map, (Hwb b Hb).
        rewrite (Hwb b Hb) in Hlt. lia.
Qed.

End Means.
(** *** The year means of the derived series of the sample *)

Section SampleMeans.

Import Exact.
Local Open Scope Qc_scope.

Context {G : Type} `{Generator Qc G}.

(** The cross-individual means of year [year] in the two-way series ([a])
    and in the time-demeaned series ([b]) of [d]. *)
Definition year_means (d : Demeaned) (year : Z) (a b : Qc) : Prop :=
  find_key year (groupby_mean by_Year (sample_twfe d)) = Some a /\
  find_key year (groupby_mean by_Year (sample_time d)) = Some b.

Lemma sample_year_means (laws : GeneratorLaws Qc G)
    start_year end_year treatment_year effects noise g smp g' year :
  Sample_init start_year end_year treatment_year effects noise g
    = (Ok smp, g') ->
  (start_year <= year < end_year)%Z ->
  exists d,
    demean (Dependent_of (data smp)) = Some d /\
    mean d = series_mean (Dependent_of (data smp)) /\
    year_means d year (0 - mean d - mean d) 0.
Proof.
  intros E Hyear.
  destruct (sample_is_balanced laws _ _ _ _ _ _ E) as (P & -> & Hbal & HP).
  assert (Hk : nth_error (range start_year end_year)
                 (Z.to_nat (year - start_year)) = Some year).
  { rewrite nth_error_range by lia. f_equal. lia. }
  destruct (@twfe_year_means _ P _ year Hbal HP Hk)
    as (d & Hd & Hm & Ht & Htw).
  exists d. unfold year_means. auto.
Qed.

(** C3, as the code has it: for every year of the sample the
    cross-individual mean of the two-way series is the per-year mean of the
    time-demeaned series minus twice the grand mean (the grand mean is
    subtracted once by the series and once more through the means of the
    individuals); the per-year mean of the time-demeaned series is zero. *)
Theorem twfe_year_mean_minus_twice_grand_mean (laws : GeneratorLaws Qc G)
    (start_year end_year : Z) (treatment_year : option Z)
    (effects : Effects) (noise : Noise.t) (g g' : G) (smp : Sample)
    (year : Z) :
  Sample_init start_year end_year treatment_year effects noise g
    = (Ok smp, g') ->
  (start_year <= year < end_year)%Z ->
  exists d a b,
    demean (Dependent_of (data smp)) = Some d /\
    year_means d year a b /\
    b = 0 /\
    a = b - mean d - mean d.
Proof.
  intros E Hyear.
  destruct (sample_year_means laws treatment_year effects noise g E Hyear)
    as (d & Hd & _ & Hy).
  exists d, (0 - mean d - mean d), 0. auto.
Qed.

End SampleMeans.

End DriverFacts.

(** ** The instance satisfies what the generator is assumed to do *)

Module ExactFacts.
Import Panel PanelFacts DriverFacts Mt19937 Exact.

(** The generator reproduces the reference outputs of MT19937 seeded with
    0, and the integers NumPy is known to draw from them. *)
Example mt19937_reference_outputs :
  fst (fill mt19937_next 4 (mt19937_seed 0))
    = [2357136044; 2546248239; 3071714933; 3626093760]%Z /\
  fst (fill (random_bounded 0 10) 5 (mt19937_seed 0)) = [5; 0; 3; 3; 7]%Z.
Proof. split; vm_compute; reflexivity. Qed.

Lemma fill_length {A} (draw : state -> A * state) n : forall st,
  length (fst (fill draw n st)) = n.
Proof.
  induction n as [|n IH]; intros st; simpl; [reflexivity|].
  destruct (draw st) as [x st1]. specialize (IH st1).
  destruct (fill draw n st1). simpl in *. congruence.
Qed.

Lemma fill_all {A} (draw : state -> A * state) (P : A -> Prop) n :
  (forall st, P (fst (draw st))) ->
  forall st, Forall P (fst (fill draw n st)).
Proof.
  intros Hd. induction n as [|n IH]; intros st; simpl; [constructor|].
  pose proof (Hd st) as Hx. destruct (draw st) as [x st1].
  specialize (IH st1). destruct (fill draw n st1). simpl in *.
  constructor; assumption.
Qed.

Lemma bounded_masked_range next rng mask fuel : forall st,
  (0 <= rng)%Z -> (0 <= mask)%Z ->
  (0 <= fst (bounded_masked fuel next rng mask st) <= rng)%Z.
Proof.
  induction fuel as [|fuel IH]; intros st Hr Hm; simpl; [lia|].
  destruct (next st) as [x st1].
  destruct (Z.leb_spec (Z.land x mask) rng) as [L|L]; simpl.
  - split; [|exact L]. apply Z.land_nonneg. right. exact Hm.
  - apply IH; assumption.
Qed.

Lemma bounded_range rng st :
  (0 <= rng)%Z -> (0 <= fst (bounded rng st) <= rng)%Z.
Proof.
  intros Hr. unfold bounded.
  assert (Hm : (0 <= gen_mask rng)%Z).
  { unfold gen_mask.
    pose proof (Z.log2_up_nonneg (rng + 1)) as Hl.
    pose proof (Z.pow_pos_nonneg 2 (Z.log2_up (rng + 1))). lia. }
  destruct (Z.leb_spec rng 0); [simpl; lia|].
  destruct (Z.leb_spec rng 0xffffffff);
    apply bounded_masked_range; assumption.
Qed.

Lemma mt19937_laws {F : Type} `{Float F} : GeneratorLaws F state.
Proof.
  constructor.
  - intros. apply fill_length.
  - intros. apply fill_length.
  - intros lo hi n g Hlt. apply fill_all. intros st.
    unfold random_bounded.
    pose proof (@bounded_range (hi - 1 - lo) st) as Hb.
    destruct (bounded (hi - 1 - lo) st) as [v st1]. simpl in *. lia.
Qed.


Definition individual_0 : Individual :=
  {| identifier := 0; cluster := hd_seed; effects_type := Fixed;
     noise := Noise.TRUE |}.

Definition individual_7 : Individual :=
  {| identifier := 7; cluster := hd_seed; effects_type := Fixed;
     noise := Noise.FALSE |}.


(** C9 on the instance. *)
Lemma init_clusters_pool_witness :
  exists c1 c2 c3 : Z,
    _init_repeats (mt19937_seed 1) =
      (Ok [c1; c2; c3],
       snd (randint (F:=Qc) 3 10 (length seed_clusters) (seed (F:=Qc) 10))) /\
    [c1; c2; c3]
      = sort Z.leb
          (fst (randint (F:=Qc) 3 10 (length seed_clusters)
                  (seed (F:=Qc) (G:=Mt19937.state) 10))) /\
    Permutation
      (fst (randint (F:=Qc) 3 10 (length seed_clusters)
              (seed (F:=Qc) (G:=Mt19937.state) 10)))
      [c1; c2; c3] /\
    fst (_init_repeats (mt19937_seed 1)) = Ok [c1; c2; c3] /\
    (3 <= c1 <= c2)%Z /\ (c2 <= c3 <= 9)%Z /\
    fst (_init_clusters (mt19937_seed 1)) =
      Ok (flat_map (fun p => repeat (fst p) (Z.to_nat (snd p)))
            (combine seed_clusters [c1; c2; c3])) /\
    (forall pool, fst (_init_clusters (mt19937_seed 1)) = Ok pool ->
       Z.of_nat (length pool) = (c1 + c2 + c3)%Z) /\
    (forall g', _init_clusters g' = _init_clusters (mt19937_seed 1)).
Proof.
  exact (init_clusters_pool mt19937_laws (mt19937_seed 1)).
Defined.

(** C2 on the instance: individual 0, with noise, over 2013 to 2016 with
    treatment in 2015. *)
Lemma dependent_row_formula_witness :
  exists df g',
    time_series (F:=Qc) individual_0 2013 2017 (Some 2015%Z)
      (mt19937_seed 1) = (Ok df, g') /\
    (forall i, i < Z.to_nat (2017 - 2013) ->
       exists r, iloc df i = Some r /\
                 r_Year r = (2013 + Z.of_nat i)%Z) /\
    (forall i r, iloc df i = Some r ->
       let base :=
         fadd (fadd (fadd (fmul (r_Slope r) (of_Z (r_Treatment r)))
                          (of_Z (r_Intercept r)))
                    (r_FixedEffectIndividual r))
              (r_FixedEffectTime r) in
       (r_Treatment r = 0%Z \/ r_Treatment r = 1%Z) /\
       match noise individual_0 with
       | Noise.FALSE => r_Dependent r = base
       | Noise.TRUE =>
           exists x,
             nth_error
               (fst (uniform (fneg (fmul (r_Slope r) (lit (1 # 10))))
                       (fmul (r_Slope r) (lit (1 # 10)))
                       (length (Year df)) (seed (2 * identifier individual_0))))
               i = Some x /\
             r_Dependent r = fadd base x
       end).
Proof.
  destruct (@time_series_ok Qc state _ _ individual_0 2013 2017
              (Some 2015%Z) (mt19937_seed 1))
    as (df & g' & E); [reflexivity|simpl; lia|simpl; lia|].
  exists df, g'. split; [exact E|].
  exact (dependent_row_formula mt19937_laws individual_0 2013 2017
           (Some 2015%Z) (mt19937_seed 1) E).
Defined.

(** *** The driver's sample on the instance *)

Local Open Scope Qc_scope.

(** The sample of the driver: 2013 to 2022, treatment year 2017, fixed
    effects, noise. *)
Local Abbreviation driver_sample :=
  (Sample_init (F:=Qc) 2013 2022 (Some 2017%Z) Fixed Noise.TRUE
     (mt19937_seed 1)) (only parsing).

Lemma driver_sample_ok : exists smp g', driver_sample = (Ok smp, g').
Proof.
  destruct driver_sample as [[smp|e] g'] eqn:E; [eauto|].
  vm_compute in E. discriminate.
Qed.

Lemma driver_grand_mean_nonzero smp g' :
  driver_sample = (Ok smp, g') ->
  series_mean (Dependent_of (data smp)) <> 0.
Proof.
  intros E Hz.
  assert (Hc : match fst driver_sample with
               | Ok s => Qeq_bool (this (series_mean (Dependent_of (data s)))) 0
               | Raise _ => false
               end = false) by (vm_compute; reflexivity).
  rewrite E in Hc. cbn [fst] in Hc. rewrite Hz in Hc. discriminate.
Qed.

(** C3 as stated fails on the driver's sample: in 2013 the two-way series
    has a cross-individual mean [a], the time-demeaned series a per-year
    mean [b], and [a] is not [b] minus the grand mean. *)
Lemma twfe_year_mean_counterexample :
  exists smp g' d a b,
    driver_sample = (Ok smp, g') /\
    demean (Dependent_of (data smp)) = Some d /\
    year_means d 2013 a b /\
    a <> b - mean d.
Proof.
  destruct driver_sample_ok as (smp & g' & E).
  assert (Hr : (2013 <= 2013 < 2022)%Z) by lia.
  destruct (sample_year_means mt19937_laws (Some 2017%Z) Fixed Noise.TRUE
              (mt19937_seed 1)
              E Hr) as (d & Hd & Hm & Hy).
  exists smp, g', d, (0 - mean d - mean d), 0.
  repeat split; try assumption; try apply Hy.
  intros Hc.
  apply (driver_grand_mean_nonzero E). rewrite <- Hm.
  transitivity ((0 - mean d) - (0 - mean d - mean d)); [ring|].
  rewrite Hc. ring.
Qed.

(** The amended C3 on the driver's sample, year 2013. *)
Lemma twfe_year_mean_witness :
  exists smp g',
    driver_sample = (Ok smp, g') /\
    exists d a b,
      demean (Dependent_of (data smp)) = Some d /\
      year_means d 2013 a b /\
      b = 0 /\
      a = b - mean d - mean d.
Proof.
  destruct driver_sample_ok as (smp & g' & E).
  exists smp, g'. split; [exact E|].
  assert (Hr : (2013 <= 2013 < 2022)%Z) by lia.
  exact (twfe_year_mean_minus_twice_grand_mean mt19937_laws (Some 2017%Z) Fixed
           Noise.TRUE (mt19937_seed 1) E Hr).
Defined.

End ExactFacts.

(** * Further properties of the two scripts *)

(** ** The repair, on every text *)

Module RepairFacts.
Import Re ReFacts Commas CommasFacts Csv Script.

Definition quotes (c : ascii) (s : text) : nat := count_occ ascii_dec s c.

Lemma quotes_app c s t : quotes c (s ++ t) = quotes c s + quotes c t.
Proof. apply count_occ_app. Qed.

Lemma quotes_cons_same c s : quotes c (c :: s) = S (quotes c s).
Proof. unfold quotes. simpl. destruct (ascii_dec c c); congruence. Qed.

Lemma quotes_cons_other c d s : d <> c -> quotes c (d :: s) = quotes c s.
Proof. unfold quotes. simpl. destruct (ascii_dec d c); congruence. Qed.

Lemma quotes_none c s : ~ In c s <-> quotes c s = 0.
Proof. apply count_occ_not_In. Qed.

Lemma requote_char (c : ascii) :
  (if Ascii.eqb c dquote then squote else c) <> dquote.
Proof.
  destruct (Ascii.eqb c dquote) eqn:E.
  - discriminate.
  - apply Ascii.eqb_neq. exact E.
Qed.

(** X1: [deal_with_inner_quotes] keeps the length of its argument, returns
    a text without any double quote in which every character is the one of
    the argument or a single quote in the place of a double quote; it returns
    its argument exactly when that holds no double quote, and applying it
    twice is applying it once. *)
Theorem deal_with_inner_quotes_removes_double_quotes (s : text) :
  length (deal_with_inner_quotes s) = length s /\
  ~ In dquote (deal_with_inner_quotes s) /\
  Forall2 kept_or_requoted s (deal_with_inner_quotes s) /\
  (deal_with_inner_quotes s = s <-> ~ In dquote s) /\
  deal_with_inner_quotes (deal_with_inner_quotes s)
    = deal_with_inner_quotes s.
Proof.
  unfold deal_with_inner_quotes.
  split; [apply length_map|].
  split.
  { rewrite in_map_iff. intros (c & Hc & _). exact (requote_char c Hc). }
  split.
  { induction s as [|c s IH]; simpl; constructor; [|exact IH].
    destruct (Ascii.eqb c dquote) eqn:E.
    - right. apply Ascii.eqb_eq in E. auto.
    - left. reflexivity. }
  split.
  { induction s as [|c s IH]; simpl.
    - split; auto.
    - split.
      + intros E. injection E as Ec Es. intros [Hc|Hc].
        * subst c. rewrite Ascii.eqb_refl in Ec. discriminate.
        * apply IH in Es. contradiction.
      + intros Hn. destruct (Ascii.eqb c dquote) eqn:E.
        * apply Ascii.eqb_eq in E. contradiction Hn. left. exact E.
        * f_equal. apply IH. intros Hc. apply Hn. right. exact Hc. }
  rewrite map_map. apply map_ext. intros c.
  destruct (Ascii.eqb c dquote) eqn:E; [reflexivity|].
  rewrite E. reflexivity.
Qed.

(** Every match of [pattern] passes over two double quotes. *)
Lemma match_has_two_quotes adv bef aft m :
  search pattern adv bef aft = Some m -> 2 <= quotes dquote aft.
Proof.
  intros Hs. apply search_sound in Hs.
  destruct Hs as (sk & rest & adv' & -> & _ & Hm).
  apply match_at_sound in Hm. apply pattern_shape in Hm.
  destruct Hm as (k1 & k2 & k3 & -> & _).
  rewrite !quotes_app, quotes_cons_same, quotes_app, quotes_cons_same. lia.
Qed.

(** X2: a text with fewer than two double quotes (the empty text, a table
    without quoted field) has no match of the pattern; the repair returns it
    as it is, and parsing after the repair is parsing the text. *)
Theorem repair_needs_two_double_quotes (s : text) :
  quotes dquote s < 2 ->
  search pattern false [] s = None /\
  repair s = Some (Ok s) /\
  repair_and_parse s = read_csv s.
Proof.
  intros Hq.
  assert (Hn : search pattern false [] s = None).
  { destruct (search pattern false [] s) as [m|] eqn:Hs; [|reflexivity].
    apply match_has_two_quotes in Hs. lia. }
  assert (Hr : repair s = Some (Ok s)).
  { unfold repair, sub.
    replace (2 * length s + 2) with (S (2 * length s + 1)) by lia.
    simpl. rewrite Hn. reflexivity. }
  split; [exact Hn|]. split; [exact Hr|].
  unfold repair_and_parse. rewrite Hr. reflexivity.
Qed.

Definition one_quote_table : text :=
  str "a,b" ++ [newline] ++ str "1,2 " ++ [dquote] ++ [newline].

Lemma repair_needs_two_double_quotes_witness :
  search pattern false [] one_quote_table = None /\
  repair one_quote_table = Some (Ok one_quote_table) /\
  repair_and_parse one_quote_table = read_csv one_quote_table.
Proof.
  apply (@repair_needs_two_double_quotes one_quote_table).
  vm_compute. lia.
Defined.

(** The number of matches among the pieces of a text. *)
Fixpoint hits (pcs : list piece) : nat :=
  match pcs with
  | [] => 0
  | Keep _ :: rest => hits rest
  | Hit _ _ _ :: rest => S (hits rest)
  end.

Lemma pieces_length pcs :
  length (flatten (map repaired pcs)) = length (flatten (map original pcs)).
Proof.
  induction pcs as [|[t|k1 k2 k3] pcs IH]; simpl; [reflexivity| |];
    rewrite !length_app; [lia|].
  simpl. rewrite !length_app. simpl. lia.
Qed.

Lemma pieces_double_quotes pcs :
  quotes dquote (flatten (map original pcs))
    = quotes dquote (flatten (map repaired pcs)) + 2 * hits pcs.
Proof.
  induction pcs as [|[t|k1 k2 k3] pcs IH]; simpl; [reflexivity| |].
  - rewrite !quotes_app. lia.
  - rewrite !quotes_app, !quotes_cons_same.
    rewrite (@quotes_cons_other dquote squote (k2 ++ squote :: k3))
      by discriminate.
    rewrite !quotes_app, quotes_cons_same.
    rewrite (@quotes_cons_other dquote squote k3) by discriminate. lia.
Qed.

Lemma pieces_single_quotes pcs :
  quotes squote (flatten (map repaired pcs))
    = quotes squote (flatten (map original pcs)) + 2 * hits pcs.
Proof.
  induction pcs as [|[t|k1 k2 k3] pcs IH]; simpl; [reflexivity| |].
  - rewrite !quotes_app. lia.
  - rewrite !quotes_app, !quotes_cons_same.
    rewrite (@quotes_cons_other squote dquote (k2 ++ dquote :: k3))
      by discriminate.
    rewrite !quotes_app, quotes_cons_same.
    rewrite (@quotes_cons_other squote dquote k3) by discriminate. lia.
Qed.

Lemma pieces_other_characters c pcs :
  c <> dquote -> c <> squote ->
  quotes c (flatten (map repaired pcs))
    = quotes c (flatten (map original pcs)).
Proof.
  intros Hd Hs.
  induction pcs as [|[t|k1 k2 k3] pcs IH]; simpl; [reflexivity| |].
  - rewrite !quotes_app, IH. reflexivity.
  - rewrite !quotes_app, IH.
    rewrite (@quotes_cons_other c squote (k2 ++ squote :: k3)) by auto.
    rewrite (@quotes_cons_other c dquote (k2 ++ dquote :: k3)) by auto.
    rewrite !quotes_app.
    rewrite (@quotes_cons_other c squote k3) by auto.
    rewrite (@quotes_cons_other c dquote k3) by auto.
    reflexivity.
Qed.

(** X3: on every text the repair ends with a text of the same length, and
    it replaces double quotes two at a time for each match: with
    [hits pcs] the number of matches of the pattern that [re.sub] finds in
    the text (the matches of its one cut [scan]), the result has
    [2 * hits pcs] double quotes fewer and [2 * hits pcs] single quotes more
    than the text; every other character (the commas and the line breaks
    among them) occurs as often in the result as in the text. *)
Theorem repair_replaces_quotes_in_pairs (s : text) :
  exists t pcs,
    scan pattern false [] s pcs /\
    (forall pcs', scan pattern false [] s pcs' -> hits pcs' = hits pcs) /\
    repair s = Some (Ok t) /\
    length t = length s /\
    quotes dquote s = quotes dquote t + 2 * hits pcs /\
    quotes squote t = quotes squote s + 2 * hits pcs /\
    (forall c, c <> dquote -> c <> squote -> quotes c t = quotes c s).
Proof.
  destruct (@subx_scan (2 * length s + 2) false [] s)
    as (pcs & Hsc & Hs & Hr); [lia|].
  exists (flatten (map repaired pcs)), pcs.
  pose proof (pieces_length pcs) as Hl.
  pose proof (pieces_double_quotes pcs) as Hd.
  pose proof (pieces_single_quotes pcs) as Hq.
  pose proof (fun c => @pieces_other_characters c pcs) as Ho.
  rewrite <- Hs in Hl, Hd, Hq, Ho.
  split; [exact Hsc|]. split.
  - intros pcs' H'. rewrite (scan_unique Hsc H'). reflexivity.
  - auto.
Qed.

(** Two adjacent fields, each with a quoted word inside its quotes. *)
Definition adjacent_fields : text :=
  [comma; dquote] ++ str "a" ++ [dquote] ++ str "b" ++ [dquote] ++ str "c"
    ++ [dquote; comma; dquote] ++ str "d" ++ [dquote] ++ str "e" ++ [dquote]
    ++ str "f" ++ [dquote; comma].

Definition adjacent_fields_once : text :=
  [comma; dquote] ++ str "a'b'c"
    ++ [dquote; comma; dquote] ++ str "d" ++ [dquote] ++ str "e" ++ [dquote]
    ++ str "f" ++ [dquote; comma].

Definition adjacent_fields_twice : text :=
  [comma; dquote] ++ str "a'b'c"
    ++ [dquote; comma; dquote] ++ str "d'e'f" ++ [dquote; comma].

(** X4: one pass of the repair can leave a field with inner quotes behind,
    so the repair is not idempotent on every text.  Of two adjacent fields
    with inner quotes the first pass repairs the first only (its match takes
    the comma between the two, which the second field would need for its
    keep1); a second pass repairs the second, and a third changes nothing. *)
Theorem repair_is_not_idempotent :
  repair adjacent_fields = Some (Ok adjacent_fields_once) /\
  repair adjacent_fields_once = Some (Ok adjacent_fields_twice) /\
  adjacent_fields_twice <> adjacent_fields_once /\
  repair adjacent_fields_twice = Some (Ok adjacent_fields_twice).
Proof.
  split; [vm_compute; reflexivity|].
  split; [vm_compute; reflexivity|].
  split; [discriminate|].
  vm_compute; reflexivity.
Qed.

End RepairFacts.

(** ** The pattern and [repl] of the post *)

Module PostsFacts.
Import Re ReFacts Commas CommasFacts.

Lemma run_chr_inv c st st1 :
  run (Chr (Only c)) st st1 ->
  after st = c :: after st1 /\ before st1 = c :: before st /\
  groups st1 = groups st.
Proof.
  intros H. inversion H as [? d bef aft g Hc| | | | | | | | |]; subst.
  simpl in Hc. apply Ascii.eqb_eq in Hc. subst d. simpl. auto.
Qed.

Lemma except_not_in c w :
  Forall (fun d => mem (Except c) d = true) w -> ~ In c w.
Proof.
  intros Hw Hin. rewrite Forall_forall in Hw. apply Hw in Hin.
  simpl in Hin. rewrite Ascii.eqb_refl in Hin. discriminate.
Qed.

Lemma run_rep0_inv c st st1 :
  run (Rep0 (Except c)) st st1 ->
  exists w, after st = w ++ after st1 /\ ~ In c w /\
            groups st1 = groups st.
Proof.
  intros H. inversion H as [| | | | | |? w bef aft g Hw| | |]; subst.
  exists w. simpl. split; [reflexivity|]. split; [|reflexivity].
  apply except_not_in. exact Hw.
Qed.

Lemma run_rep1_inv c st st1 :
  run (Rep1 (Except c)) st st1 ->
  exists w, after st = w ++ after st1 /\ ~ In c w /\ w <> [] /\
            groups st1 = groups st.
Proof.
  intros H. inversion H as [| | | | | | |? w bef aft g Hw Hne| |]; subst.
  exists w. simpl. split; [reflexivity|]. split; [|auto].
  apply except_not_in. exact Hw.
Qed.

(** The first delimiter: the start of the text, or a comma. *)
Lemma run_lead st st1 :
  run (Alt Bol (Chr (Only comma))) st st1 ->
  exists lead, after st = lead ++ after st1 /\ groups st1 = groups st /\
               ((lead = [] /\ before st = []) \/ lead = [comma]).
Proof.
  intros H. inversion H as [| | | |? ? ? ? Hl|? ? ? ? Hr| | | |]; subst.
  - inversion Hl; subst. exists []. auto.
  - apply run_chr_inv in Hr. destruct Hr as (Ha & _ & Hg).
    exists [comma]. auto.
Qed.

(** The last delimiter: a comma, or the end of the text (before a last
    newline, if there is one). *)
Lemma run_trail st st1 :
  run (Alt (Chr (Only comma)) Eol) st st1 ->
  exists trail, after st = trail ++ after st1 /\ groups st1 = groups st /\
    (trail = [comma] \/
     (trail = [] /\ (after st1 = [] \/ after st1 = [newline]))).
Proof.
  intros H. inversion H as [| | | |? ? ? ? Hl|? ? ? ? Hr| | | |]; subst.
  - apply run_chr_inv in Hl. destruct Hl as (Ha & _ & Hg).
    exists [comma]. auto.
  - inversion Hr as [| |? He| | | | | | |]; subst. exists []. auto.
Qed.

Lemma run_cat_inv r1 r2 st st2 :
  run (Cat r1 r2) st st2 -> exists st1, run r1 st st1 /\ run r2 st1 st2.
Proof.
  intros H. inversion H as [| | |? ? ? st1 ? H1 H2| | | | | |]; subst. eauto.
Qed.

Lemma run_notahead_inv r st st1 : run (NotAhead r) st st1 -> st1 = st.
Proof. intros H. inversion H; subst. reflexivity. Qed.

(** A group without inner groups, with the path taken inside it. *)
Lemma run_group_inner name r st st2 :
  run (Group name r) st st2 -> no_groups r = true ->
  exists st1,
    run r st st1 /\ after st2 = after st1 /\
    groups st2 = (name, consumed st st1) :: groups st.
Proof.
  intros H Hg. inversion H as [| | | | | | | |? ? ? st1 Hin|]; subst.
  exists st1. simpl. rewrite (run_no_groups Hin Hg). auto.
Qed.

(** keep1 of the post: a double quote and a run without double quote. *)
Lemma run_keep1 name st st2 :
  run (Group name (Cat (Chr (Only dquote)) (Rep0 (Except dquote)))) st st2 ->
  exists a,
    after st = (dquote :: a) ++ after st2 /\ ~ In dquote a /\
    groups st2 = (name, dquote :: a) :: groups st.
Proof.
  intros H. apply run_group_inner in H; [|reflexivity].
  destruct H as (st1 & Hin & Ha & Hg).
  apply run_cat_inv in Hin. destruct Hin as (sa & C & R).
  apply run_chr_inv in C. destruct C as (Ac & _ & _).
  apply run_rep0_inv in R. destruct R as (a & Aa & Na & _).
  assert (Hsp : after st = (dquote :: a) ++ after st1)
    by (rewrite Ac, Aa; reflexivity).
  exists a. rewrite Ha, Hg, (consumed_span _ _ _ Hsp). auto.
Qed.

(** keep2: a run without double quote, not empty. *)
Lemma run_keep2 name st st2 :
  run (Group name (Rep1 (Except dquote))) st st2 ->
  exists w,
    after st = w ++ after st2 /\ ~ In dquote w /\ w <> [] /\
    groups st2 = (name, w) :: groups st.
Proof.
  intros H. apply run_group_inner in H; [|reflexivity].
  destruct H as (st1 & Hin & Ha & Hg).
  apply run_rep1_inv in Hin. destruct Hin as (w & Aw & Nw & Hne & _).
  exists w. rewrite Ha, Hg, (consumed_span _ _ _ Aw). auto.
Qed.

(** keep3 of the post: a run without double quote and a double quote. *)
Lemma run_keep3 name st st2 :
  run (Group name (Cat (Rep0 (Except dquote)) (Chr (Only dquote)))) st st2 ->
  exists b,
    after st = (b ++ [dquote]) ++ after st2 /\ ~ In dquote b /\
    groups st2 = (name, b ++ [dquote]) :: groups st.
Proof.
  intros H. apply run_group_inner in H; [|reflexivity].
  destruct H as (st1 & Hin & Ha & Hg).
  apply run_cat_inv in Hin. destruct Hin as (sa & R & C).
  apply run_rep0_inv in R. destruct R as (b & Ab & Nb & _).
  apply run_chr_inv in C. destruct C as (Ac & _ & _).
  assert (Hsp : after st = (b ++ [dquote]) ++ after st1)
    by (rewrite Ab, Ac, <- app_assoc; reflexivity).
  exists b. rewrite Ha, Hg, (consumed_span _ _ _ Hsp). auto.
Qed.

Lemma run_quote name st st2 :
  run (Group name (Chr (Only dquote))) st st2 ->
  after st = dquote :: after st2 /\
  groups st2 = (name, [dquote]) :: groups st.
Proof.
  intros H. apply run_quote_group in H. destruct H as (rest & A & ->).
  simpl. auto.
Qed.

(** The shape of every match of the pattern of the post. *)
Lemma post_pattern_shape bef aft e :
  run Posts.pattern (MState bef aft []) e ->
  exists lead a k2 b trail,
    aft = lead ++ (dquote :: a) ++ dquote :: k2 ++ dquote
            :: (b ++ [dquote]) ++ trail ++ after e /\
    groups e = [ ("keep3"%string, b ++ [dquote]);
                 ("replace2"%string, [dquote]);
                 ("keep2"%string, k2);
                 ("replace1"%string, [dquote]);
                 ("keep1"%string, dquote :: a) ] /\
    ((lead = [] /\ bef = []) \/ lead = [comma]) /\
    (trail = [comma] \/
     (trail = [] /\ (after e = [] \/ after e = [newline]))) /\
    ~ In dquote a /\ ~ In dquote k2 /\ k2 <> [] /\ ~ In dquote b.
Proof.
  unfold Posts.pattern. intros H.
  apply run_cat_inv in H. destruct H as (s0 & L0 & H).
  apply run_cat_inv in H. destruct H as (s1 & G1 & H).
  apply run_cat_inv in H. destruct H as (s2 & G2 & H).
  apply run_cat_inv in H. destruct H as (s3 & G3 & H).
  apply run_cat_inv in H. destruct H as (s4 & G4 & H).
  apply run_cat_inv in H. destruct H as (s5 & G5 & H).
  apply run_cat_inv in H. destruct H as (s6 & G6 & L7).
  apply run_notahead_inv in G3. subst s3.
  apply run_lead in L0. destruct L0 as (lead & A0 & g0 & Hlead).
  apply run_keep1 in G1. destruct G1 as (a & A1 & Na & g1).
  apply run_quote in G2. destruct G2 as (A2 & g2).
  apply run_keep2 in G4. destruct G4 as (k2 & A4 & Nk & Hne & g4).
  apply run_quote in G5. destruct G5 as (A5 & g5).
  apply run_keep3 in G6. destruct G6 as (b & A6 & Nb & g6).
  apply run_trail in L7. destruct L7 as (trail & A7 & g7 & Htrail).
  simpl in A0, g0, Hlead.
  exists lead, a, k2, b, trail.
  split.
  { rewrite A0, A1, A2, A4, A5, A6, A7. reflexivity. }
  split.
  { rewrite g7, g6, g5, g4, g2, g1, g0. reflexivity. }
  repeat split; assumption.
Qed.

(** X5: [repl] of the post never fails on a match of the post's pattern,
    and it returns less than the match: the match is a delimiter (a comma,
    or nothing at the start of the text), a quoted field with two inner
    quotes, and a second delimiter (a comma, or nothing at the end of the
    text), and [repl] returns the field alone, its two inner quotes as
    single quotes.  Substituting it for the match drops the commas around
    the field. *)
Theorem post_repl_drops_delimiters (s : text) (m : match_obj) :
  search Posts.pattern false [] s = Some m ->
  exists lead a k2 b trail,
    group0 m = lead ++ (dquote :: a) ++ dquote :: k2 ++ dquote
                 :: (b ++ [dquote]) ++ trail /\
    Posts.repl m
      = Ok ((dquote :: a) ++ squote :: k2 ++ squote :: b ++ [dquote]) /\
    (lead = [] \/ lead = [comma]) /\
    (trail = [] \/ trail = [comma]) /\
    ~ In dquote a /\ ~ In dquote k2 /\ k2 <> [] /\ ~ In dquote b.
Proof.
  intros Hs. apply search_sound in Hs.
  destruct Hs as (sk & rest & adv & -> & Hst & Hm).
  apply match_at_sound in Hm. apply post_pattern_shape in Hm.
  destruct Hm as (lead & a & k2 & b & trail & Hrest & Hg & Hl & Ht
                  & Na & Nk & Hne & Nb).
  exists lead, a, k2, b, trail.
  split.
  { unfold group0. rewrite Hst.
    apply consumed_span. simpl. rewrite Hrest.
    repeat (rewrite <- app_assoc; simpl). reflexivity. }
  split.
  { unfold Posts.repl, group. rewrite Hg. simpl.
    rewrite app_nil_r. reflexivity. }
  split; [destruct Hl as [[-> _]| ->]; auto|].
  split; [destruct Ht as [->|[-> _]]; auto|].
  repeat split; assumption.
Qed.

Lemma post_repl_drops_delimiters_witness :
  exists m,
    search Posts.pattern false [] Posts.sample = Some m /\
    exists lead a k2 b trail,
      group0 m = lead ++ (dquote :: a) ++ dquote :: k2 ++ dquote
                   :: (b ++ [dquote]) ++ trail /\
      Posts.repl m
        = Ok ((dquote :: a) ++ squote :: k2 ++ squote :: b ++ [dquote]) /\
      (lead = [] \/ lead = [comma]) /\
      (trail = [] \/ trail = [comma]) /\
      ~ In dquote a /\ ~ In dquote k2 /\ k2 <> [] /\ ~ In dquote b.
Proof.
  destruct (search Posts.pattern false [] Posts.sample) as [m|] eqn:E;
    [|vm_compute in E; discriminate].
  exists m. split; [reflexivity|].
  exact (@post_repl_drops_delimiters Posts.sample m E).
Defined.

End PostsFacts.

(** ** The printed form of an individual *)

Module ReprFacts.
Import Panel Repr.

(** X6: [repr] of an individual raises [AttributeError], whatever the
    individual: the f-string of [__repr__] reads [self.effects], and the
    class defines [effects_type] and [_effects_type] only. *)
Theorem repr_raises_attribute_error {F : Type} `{Float F}
    (self : Individual) :
  __repr__ (F:=F) self = Raise AttributeError /\
  getattr (F:=F) self "effects" = Raise AttributeError /\
  getattr (F:=F) self "effects_type" = Ok (VEffects (effects_type self)).
Proof. repeat split. Qed.

End ReprFacts.

(** ** The table of one individual, further *)

Module TableFacts.
Import Panel PanelFacts.

(** The years from [s] on, against a threshold [t]: false below it, true
    from it on. *)
Lemma threshold_step (t : Z) : forall n s,
  map (fun k => (t <=? s + Z.of_nat k)%Z) (seq 0 n) =
    repeat false (Z.to_nat (Z.min (Z.max (t - s) 0) (Z.of_nat n))) ++
    repeat true (n - Z.to_nat (Z.min (Z.max (t - s) 0) (Z.of_nat n))).
Proof.
  induction n as [|n IH]; intros s.
  - replace (Z.to_nat (Z.min (Z.max (t - s) 0) (Z.of_nat 0))) with 0 by lia.
    reflexivity.
  - cbn [seq map]. rewrite <- seq_shift, map_map.
    rewrite (map_ext _ (fun k => (t <=? s + 1 + Z.of_nat k)%Z))
      by (intros k; f_equal; lia).
    rewrite IH.
    destruct (Z.leb_spec t (s + Z.of_nat 0)) as [L|L].
    + replace (Z.to_nat (Z.min (Z.max (t - s) 0) (Z.of_nat (S n))))
        with 0 by lia.
      replace (Z.to_nat (Z.min (Z.max (t - (s + 1)) 0) (Z.of_nat n)))
        with 0 by lia.
      rewrite !Nat.sub_0_r. reflexivity.
    + replace (Z.to_nat (Z.min (Z.max (t - s) 0) (Z.of_nat (S n))))
        with (S (Z.to_nat (Z.min (Z.max (t - (s + 1)) 0) (Z.of_nat n))))
        by lia.
      reflexivity.
Qed.

Lemma half_split (d : Z) :
  let n := Z.to_nat d in
  Z.to_nat (Z.min (Z.max (d - d / 2) 0) d) = n - n / 2 /\
  n - (n - n / 2) = n / 2.
Proof.
  intros n. subst n.
  destruct (Z.le_gt_cases 0 d) as [L|L].
  - assert (Hd : Z.of_nat (Z.to_nat d / 2) = (d / 2)%Z).
    { rewrite Nat2Z.inj_div, Z2Nat.id by exact L. reflexivity. }
    assert (Hh : (0 <= d / 2 <= d)%Z).
    { split; [apply Z.div_pos; lia|].
      apply Z.div_le_upper_bound; lia. }
    lia.
  - replace (Z.to_nat d) with 0 by lia.
    assert (Hh : (d / 2 < 0)%Z) by (apply Z.div_lt_upper_bound; lia).
    simpl. lia.
Qed.

Section Generator.

Context {F G : Type} `{Float F} `{Generator F G}.

Lemma seed_refused s g :
  (s < 0 \/ 2 ^ 32 <= s)%Z -> np_random_seed s g = (Raise ValueError, g).
Proof.
  intros Hs. unfold np_random_seed.
  destruct (Z.leb_spec 0 s); destruct (Z.ltb_spec s (2 ^ 32)); simpl;
    try reflexivity; lia.
Qed.

(** X7: with fixed effects, [time_series] raises [ValueError] for an
    individual whose identifier is not a valid seed (negative, or 2^32 and
    more), leaving the generator as it was, and for one with noise whose
    doubled identifier is not (2^31 and more); for every other individual it
    returns a table. *)
Theorem time_series_refuses_bad_seeds (self : Individual)
    (start_year end_year : Z) (treatment_year : option Z) (g : G) :
  effects_type self = Fixed ->
  ((identifier self < 0 \/ 2 ^ 32 <= identifier self)%Z ->
     time_series self start_year end_year treatment_year g
       = (Raise ValueError, g)) /\
  (noise self = Noise.TRUE -> (2 ^ 31 <= identifier self < 2 ^ 32)%Z ->
     fst (time_series self start_year end_year treatment_year g)
       = Raise ValueError) /\
  (noise self = Noise.FALSE -> (0 <= identifier self < 2 ^ 32)%Z ->
     exists df g',
       time_series self start_year end_year treatment_year g = (Ok df, g')) /\
  ((0 <= identifier self < 2 ^ 31)%Z ->
     exists df g',
       time_series self start_year end_year treatment_year g = (Ok df, g')).
Proof.
  intros E. repeat split.
  - intros Hid. unfold time_series, bind, lift, slope, intercept.
    rewrite E. unfold _get_individual_fixed_effect, bind.
    rewrite seed_refused by exact Hid. reflexivity.
  - intros Hn Hid. unfold time_series, bind, lift, slope, intercept.
    rewrite E, individual_fixed_effect_value by lia.
    rewrite time_fixed_effect_value, Hn. cbn [Noise.value]. cbv beta.
    unfold _get_noise, bind, lift, slope. rewrite E.
    rewrite seed_refused by lia. reflexivity.
  - intros Hn Hid. unfold time_series, bind, lift, slope, intercept.
    rewrite E, individual_fixed_effect_value by lia.
    rewrite time_fixed_effect_value, Hn. cbn [Noise.value]. cbv beta.
    unfold ret. eauto.
  - intros Hid. apply time_series_ok; [exact E|lia|lia].
Qed.

Lemma individual_fixed_effect_inv self g fei g1 :
  _get_individual_fixed_effect self g = (Ok fei, g1) ->
  fei = fst (uniform1 (of_Z (-1)) (of_Z 1) (seed (identifier self))).
Proof.
  unfold _get_individual_fixed_effect, bind.
  destruct (np_random_seed (identifier self) g) as [[u|e] g0] eqn:Es;
    [|discriminate].
  apply seed_inv in Es. destruct Es as [_ ->].
  unfold np_random_uniform1.
  destruct (uniform1 _ _ _) as [x g2]. intros E; inversion E. reflexivity.
Qed.

(** The three label columns of a table. *)
Lemma time_series_labels self start_year end_year treatment_year g df g' :
  time_series self start_year end_year treatment_year g = (Ok df, g') ->
  let size := length (range start_year end_year) in
  alpha_label df
    = repeat (PropertyAlpha.name (property_alpha (cluster self))) size /\
  beta_label df
    = repeat (PropertyBeta.name (property_beta (cluster self))) size /\
  dummy_label df
    = repeat (PropertyDummy.name (property_dummy (cluster self))) size.
Proof.
  intros E size. revert E.
  unfold time_series, bind at 1 2, lift.
  destruct (slope self) as [sl|e]; [|discriminate].
  destruct (intercept self) as [ic|e]; [|discriminate].
  unfold bind at 1.
  destruct (_get_individual_fixed_effect self g) as [[fei|e] g1];
    [|discriminate].
  unfold bind at 1. rewrite time_fixed_effect_value.
  unfold bind at 1.
  destruct (Noise.value (noise self)).
  - unfold bind at 1.
    destruct (_get_noise self _ _) as [[nz|e] g3]; [|discriminate].
    unfold ret. intros E; inversion E; subst; simpl. auto.
  - unfold ret. intros E; inversion E; subst; simpl. auto.
Qed.

(** X8: a table returned by [time_series] has one row per year of
    [range(start_year, end_year)], in order, and none when [end_year] is not
    above [start_year]; down its rows [Slope] is 1.0, [Intercept] the alpha
    value of the cluster, [FixedEffectIndividual] the one number drawn after
    the reseeding with the identifier, and the three labels the names of the
    properties of the cluster. *)
Theorem time_series_columns (laws : GeneratorLaws F G) (self : Individual)
    (start_year end_year : Z) (treatment_year : option Z) (g g' : G)
    (df : DataFrame F) :
  time_series self start_year end_year treatment_year g = (Ok df, g') ->
  let n := Z.to_nat (end_year - start_year) in
  Year df = range start_year end_year /\
  length (FixedEffectTime df) = n /\
  length (Dependent df) = n /\
  Slope df = repeat (lit 1) n /\
  Intercept df
    = repeat (PropertyAlpha.value (property_alpha (cluster self))) n /\
  FixedEffectIndividual df
    = repeat (fst (uniform1 (of_Z (-1)) (of_Z 1) (seed (identifier self))))
        n /\
  alpha_label df
    = repeat (PropertyAlpha.name (property_alpha (cluster self))) n /\
  beta_label df
    = repeat (PropertyBeta.name (property_beta (cluster self))) n /\
  dummy_label df
    = repeat (PropertyDummy.name (property_dummy (cluster self))) n /\
  ((end_year <= start_year)%Z -> Year df = [] /\ Dependent df = []).
Proof.
  intros E n.
  destruct (time_series_lengths laws _ _ _ _ _ E)
    as (Hy & _ & _ & _ & _ & _ & Lft & Ld).
  destruct (time_series_labels _ _ _ _ _ E) as (La & Lb & Lc).
  rewrite range_length in La, Lb, Lc.
  apply time_series_inv in E.
  destruct E as (sl & ic & fei & g1 & Hsl & Hic & Hfei & _ & _ & _ & Hs & Hi
                 & Hf & _).
  rewrite range_length in Hs, Hi, Hf.
  apply individual_fixed_effect_inv in Hfei.
  unfold slope in Hsl. unfold intercept in Hic.
  destruct (effects_type self); [|discriminate].
  inversion Hsl; subst sl. inversion Hic; subst ic. subst fei.
  repeat split; try assumption.
  - rewrite Hy. unfold range.
    replace (Z.to_nat (end_year - start_year)) with 0 by lia. reflexivity.
  - apply length_zero_iff_nil. rewrite Ld. lia.
Qed.

(** X9: the column [Post] of a table is a step: false on the years before
    the treatment year, true from it on.  When no treatment year is given
    the step is in the middle: of [n] years the first [n - n // 2] are
    before the treatment and the last [n // 2] after it. *)
Theorem post_is_a_step (self : Individual) (start_year end_year : Z)
    (treatment_year : option Z) (g g' : G) (df : DataFrame F) :
  time_series self start_year end_year treatment_year g = (Ok df, g') ->
  let n := Z.to_nat (end_year - start_year) in
  let t := match treatment_year with
           | None => default_treatment_year start_year end_year
           | Some y => y
           end in
  let pre := Z.to_nat (Z.min (Z.max (t - start_year) 0)
                         (end_year - start_year)) in
  Post df = repeat false pre ++ repeat true (n - pre) /\
  (treatment_year = None -> pre = n - n / 2 /\ n - pre = n / 2).
Proof.
  intros E n t pre. apply time_series_inv in E.
  destruct E as (sl & ic & fei & g1 & _ & _ & _ & _ & Hp & _).
  split.
  - rewrite Hp. unfold range. fold n. fold t.
    rewrite map_map, threshold_step.
    replace (Z.to_nat (Z.min (Z.max (t - start_year) 0) (Z.of_nat n)))
      with pre by (unfold pre, n; lia).
    reflexivity.
  - intros ->. unfold pre, t, n, default_treatment_year.
    replace (end_year - (end_year - start_year) / 2 - start_year)%Z
      with (end_year - start_year - (end_year - start_year) / 2)%Z by lia.
    pose proof (half_split (end_year - start_year)) as [H1 H2].
    rewrite H1. split; [reflexivity|exact H2].
Qed.

(** X10: the column [Treatment] is the column [Post] as 0 and 1 for an
    individual of a cluster whose dummy is [TRUE], and 0 in every row for
    one whose dummy is [FALSE]; so a row is treated only where [Post] is
    true. *)
Theorem treatment_is_post_and_dummy (self : Individual)
    (start_year end_year : Z) (treatment_year : option Z) (g g' : G)
    (df : DataFrame F) :
  time_series self start_year end_year treatment_year g = (Ok df, g') ->
  Treatment df =
    match property_dummy (cluster self) with
    | PropertyDummy.TRUE => map Z.b2z (Post df)
    | PropertyDummy.FALSE => repeat 0%Z (length (Post df))
    end /\
  Forall2 (fun p t => t = 1%Z -> p = true) (Post df) (Treatment df).
Proof.
  intros E. apply time_series_inv in E.
  destruct E as (sl & ic & fei & g1 & _ & _ & _ & _ & _ & Ht & _).
  rewrite Ht. clear Ht. generalize (Post df). intros l. split.
  - destruct (property_dummy (cluster self)); simpl.
    + apply map_ext. intros [|]; reflexivity.
    + induction l as [|p l IH]; simpl; [reflexivity|].
      rewrite IH. destruct p; reflexivity.
  - induction l as [|p l IH]; simpl; constructor; [|exact IH].
    destruct p; [reflexivity|].
    destruct (property_dummy (cluster self)); simpl; discriminate.
Qed.

(** X11: what [time_series] returns does not depend on the state of the
    global generator when it is called: every draw it makes follows a
    reseeding.  The state it leaves behind after a table is the same too. *)
Theorem time_series_ignores_generator_state (self : Individual)
    (start_year end_year : Z) (treatment_year : option Z) (g1 g2 : G) :
  fst (time_series self start_year end_year treatment_year g1)
    = fst (time_series self start_year end_year treatment_year g2) /\
  (forall df g',
     time_series self start_year end_year treatment_year g1 = (Ok df, g') ->
     time_series self start_year end_year treatment_year g2 = (Ok df, g')).
Proof.
  assert (Hcases :
    (exists e, forall g,
       fst (time_series self start_year end_year treatment_year g) = Raise e)
    \/ (exists r, forall g,
       time_series self start_year end_year treatment_year g = r)).
  { unfold time_series, bind, lift.
    destruct (slope self) as [sl|e] eqn:Es; [|left; exists e; reflexivity].
    destruct (intercept self) as [ic|e]; [|left; exists e; reflexivity].
    unfold _get_individual_fixed_effect, bind, np_random_seed.
    destruct ((0 <=? identifier self) && (identifier self <? 2 ^ 32))%Z;
      [|left; exists ValueError; reflexivity].
    right. unfold np_random_uniform1.
    destruct (uniform1 _ _ _) as [x gx].
    eexists. intros g. reflexivity. }
  destruct Hcases as [[e He]|[r Hr]].
  - split; [rewrite !He; reflexivity|].
    intros df g' E. pose proof (He g1) as H1. rewrite E in H1. discriminate.
  - split; [rewrite !Hr; reflexivity|].
    intros df g' E. rewrite Hr in *. exact E.
Qed.

End Generator.

End TableFacts.

(** ** The sample, further *)

Module SampleFacts.
Import Panel PanelFacts DriverFacts.

(** *** Products of lists *)

Lemma combine_maps {A B C} (f : A -> B) (h : A -> C) (l : list A) :
  combine (map f l) (map h l) = map (fun x => (f x, h x)) l.
Proof.
  induction l as [|a l IH]; simpl; [reflexivity|]. rewrite IH. reflexivity.
Qed.

Lemma prod_map_fst {A B C} (f : A -> C) (l : list A) (l' : list B) :
  map (fun x => (f (fst x), snd x)) (list_prod l l')
    = list_prod (map f l) l'.
Proof.
  induction l as [|a l IH]; simpl; [reflexivity|].
  rewrite map_app, !map_map, IH. reflexivity.
Qed.

Lemma nodup_prod {A B} (l : list A) (l' : list B) :
  NoDup l -> NoDup l' -> NoDup (list_prod l l').
Proof.
  induction 1 as [|a l Hnotin Hnd IH]; intros Hl'; simpl; [constructor|].
  apply NoDup_app.
  - apply Finite.Injective_map_NoDup; [|exact Hl'].
    intros x y E. inversion E. reflexivity.
  - apply IH. exact Hl'.
  - intros [x y] Hin Hin'. apply in_map_iff in Hin.
    destruct Hin as (z & E & _). inversion E; subst.
    apply in_prod_iff in Hin'. tauto.
Qed.

Lemma in_range a b x : In x (range a b) <-> (a <= x < b)%Z.
Proof.
  unfold range. rewrite in_map_iff. split.
  - intros (k & <- & Hk). apply in_seq in Hk. lia.
  - intros Hx. exists (Z.to_nat (x - a)). split; [lia|].
    apply in_seq. lia.
Qed.

Lemma enumerate_values {A} (l : list A) : forall i,
  map snd (enumerate_from i l) = l.
Proof.
  induction l as [|a l IH]; intros i; simpl; [reflexivity|].
  rewrite IH. reflexivity.
Qed.

(** *** The individuals *)

Lemma individuals_identifiers effects noise clusters :
  map identifier (_init_individuals effects noise clusters)
    = range 0 (Z.of_nat (length clusters)).
Proof.
  unfold _init_individuals. rewrite map_map.
  rewrite (map_ext _ fst) by reflexivity.
  rewrite enumerate_keys. reflexivity.
Qed.

Lemma individuals_clusters effects noise clusters :
  map cluster (_init_individuals effects noise clusters) = clusters.
Proof.
  unfold _init_individuals. rewrite map_map.
  rewrite (map_ext _ snd) by reflexivity. apply enumerate_values.
Qed.

Lemma individuals_length effects noise (clusters : list Cluster) :
  length (_init_individuals effects noise clusters) = length clusters.
Proof.
  rewrite <- (individuals_clusters effects noise clusters) at 2.
  rewrite length_map. reflexivity.
Qed.

Lemma individuals_settings effects nz clusters :
  Forall (fun ind => effects_type ind = effects /\ noise ind = nz)
    (_init_individuals effects nz clusters).
Proof.
  unfold _init_individuals. apply Forall_forall. intros ind Hin.
  apply in_map_iff in Hin. destruct Hin as (p & <- & _). simpl. auto.
Qed.

(** X12: [_init_individuals] numbers the clusters of the pool from 0: the
    identifiers are 0, 1, ... in order (so no two individuals share one, and
    each is a valid seed for a pool of fewer than 2^31 clusters), individual
    [i] has cluster [i] of the pool, and all have the effects and the
    noise setting that were asked for. *)
Theorem init_individuals_numbers_the_pool (effects : Effects)
    (nz : Noise.t) (clusters : list Cluster) :
  let inds := _init_individuals effects nz clusters in
  length inds = length clusters /\
  map identifier inds = range 0 (Z.of_nat (length clusters)) /\
  NoDup (map identifier inds) /\
  map cluster inds = clusters /\
  Forall (fun ind => effects_type ind = effects /\ noise ind = nz) inds /\
  (forall i ind, nth_error inds i = Some ind ->
     identifier ind = Z.of_nat i /\ nth_error clusters i = Some (cluster ind)).
Proof.
  intros inds.
  pose proof (individuals_identifiers effects nz clusters) as Hid.
  pose proof (individuals_clusters effects nz clusters) as Hcl.
  fold inds in Hid, Hcl.
  assert (Hlen : length inds = length clusters)
    by apply individuals_length.
  split; [exact Hlen|]. split; [exact Hid|].
  split; [rewrite Hid; apply range_nodup|].
  split; [exact Hcl|].
  split; [apply individuals_settings|].
  intros i ind Hi.
  assert (Hlt : i < length clusters).
  { rewrite <- Hlen. apply nth_error_Some. rewrite Hi. discriminate. }
  split.
  - pose proof (map_nth_error identifier i inds Hi) as Hm.
    rewrite Hid, nth_error_range in Hm by lia. inversion Hm. lia.
  - rewrite <- Hcl. apply map_nth_error. exact Hi.
Qed.

Section Generator.

Context {F G : Type} `{Float F} `{Generator F G}.

(** *** The pool *)

Lemma init_clusters_stateless (g1 g2 : G) :
  _init_clusters g1 = _init_clusters g2.
Proof.
  unfold _init_clusters, bind. rewrite !init_repeats_value. reflexivity.
Qed.

Lemma pool_of_seed_clusters (g g' : G) pool :
  _init_clusters g = (Ok pool, g') ->
  Forall (fun c => In c seed_clusters) pool.
Proof.
  unfold _init_clusters, bind. rewrite init_repeats_value.
  generalize (sort Z.leb (fst (randint 3 10 3 (seed 10)))). intros reps.
  generalize seed_clusters. intros seeds.
  unfold lift, np_repeat.
  destruct (negb _ || existsb _ _)%bool; [discriminate|].
  intros E. injection E as Hp _. subst pool.
  apply Forall_forall. intros c Hc. apply in_flat_map in Hc.
  destruct Hc as ([k n] & Hin & Hr). apply repeat_spec in Hr.
  simpl in Hr. subst c. apply in_combine_l in Hin. exact Hin.
Qed.

(** With a generator that keeps its word the pool is built, and holds
    between 9 and 27 clusters. *)
Lemma init_clusters_value (laws : GeneratorLaws F G) (g : G) :
  exists c rest,
    _init_clusters g = (Ok (c :: rest), snd (randint 3 10 3 (seed 10))) /\
    8 <= length rest <= 26.
Proof.
  pose proof (randint_length 3 10 3 (seed 10)) as Hlen.
  pose proof (@randint_range _ _ _ laws 3%Z 10%Z 3 (seed 10) eq_refl) as Hr.
  pose proof (sort_perm Z.leb (fst (randint 3 10 3 (seed 10)))) as Hperm.
  assert (Hlen' := Permutation_length Hperm). rewrite Hlen in Hlen'.
  assert (Hr' := Permutation_Forall Hperm Hr).
  unfold _init_clusters, bind. rewrite init_repeats_value.
  destruct (sort Z.leb (fst (randint 3 10 3 (seed 10))))
    as [|c1 [|c2 [|c3 [|c4 more]]]]; try discriminate.
  inversion Hr' as [|? ? R1 Hr1]; subst.
  inversion Hr1 as [|? ? R2 Hr2]; subst.
  inversion Hr2 as [|? ? R3 Hr3]; subst.
  unfold lift, np_repeat. simpl.
  destruct (Z.ltb_spec c1 0); [lia|].
  destruct (Z.ltb_spec c2 0); [lia|].
  destruct (Z.ltb_spec c3 0); [lia|]. simpl.
  destruct (Z.to_nat c1) as [|n1] eqn:E1; [lia|]. simpl.
  eexists. eexists. split; [reflexivity|].
  rewrite !length_app, !repeat_length. simpl. lia.
Qed.

(** *** Building the sample *)

Lemma mapM_ok {A B} (f : A -> M (G:=G) B) : forall l,
  (forall a, In a l -> forall g, exists b g', f a g = (Ok b, g')) ->
  forall g, exists bs g', mapM f l g = (Ok bs, g').
Proof.
  induction l as [|a l IH]; intros Hf g; simpl.
  - unfold ret. eauto.
  - destruct (Hf a (or_introl eq_refl) g) as (b & g1 & Eb).
    destruct (IH (fun a' Ha => Hf a' (or_intror Ha)) g1) as (bs & g2 & Ebs).
    unfold bind. rewrite Eb, Ebs. unfold ret. eauto.
Qed.

Lemma sample_init_inv start_year end_year treatment_year effects nz
    (g g' : G) smp :
  Sample_init start_year end_year treatment_year effects nz g
    = (Ok smp, g') ->
  exists g1 blocks,
    _init_clusters g = (Ok (clusters smp), g1) /\
    individuals smp = _init_individuals effects nz (clusters smp) /\
    Forall2 (block_of start_year end_year) (individuals smp) blocks /\
    pd_concat blocks = Ok (data smp).
Proof.
  unfold Sample_init, bind at 1.
  destruct (_init_clusters g) as [[cl|e] g1] eqn:Ec; [|discriminate].
  unfold bind at 1.
  destruct (_init_sample _ _ _ _ g1) as [[p|e] g2] eqn:Es; [|discriminate].
  unfold ret. intros E; inversion E; subst; clear E. simpl.
  apply init_sample_inv in Es. destruct Es as (blocks & Hb & Hc).
  exists g1, blocks. auto.
Qed.

(** A sample of individuals with fixed effects is built. *)
Lemma sample_fixed_ok (laws : GeneratorLaws F G)
    start_year end_year treatment_year nz (g : G) :
  exists smp g',
    Sample_init start_year end_year treatment_year Fixed nz g
      = (Ok smp, g').
Proof.
  destruct (init_clusters_value laws g) as (c & rest & Ec & Hlen).
  unfold Sample_init, bind at 1. rewrite Ec. unfold bind at 1.
  set (inds := _init_individuals Fixed nz (c :: rest)).
  assert (Hts : forall ind, In ind inds -> forall g0, exists b g1,
            bind (time_series ind start_year end_year None)
              (fun ts => ret (identifier ind, ts)) g0 = (Ok b, g1)).
  { intros ind Hin g0.
    pose proof (individuals_settings Fixed nz (c :: rest)) as Hset.
    rewrite Forall_forall in Hset. destruct (Hset ind Hin) as [Hfix _].
    assert (Hid : In (identifier ind) (map identifier inds))
      by (apply in_map; exact Hin).
    unfold inds in Hid. rewrite individuals_identifiers in Hid.
    apply in_range in Hid. simpl length in Hid.
    destruct (@time_series_ok _ _ _ _ ind start_year end_year None g0 Hfix)
      as (df & g1 & Edf); [lia|lia|].
    unfold bind. rewrite Edf. unfold ret. eauto. }
  unfold _init_sample, bind at 1.
  destruct (mapM_ok
              (fun individual =>
                 bind (time_series individual start_year end_year None)
                   (fun ts => ret (identifier individual, ts)))
              inds Hts (snd (randint 3 10 3 (seed 10))))
    as (blocks & g2 & Em).
  rewrite Em.
  assert (Hne : blocks <> []).
  { apply mapM_inv in Em. apply Forall2_length in Em.
    unfold inds in Em. rewrite individuals_length in Em.
    intros ->. discriminate. }
  unfold lift, pd_concat. destruct blocks as [|b blocks]; [contradiction|].
  unfold ret. eauto.
Qed.

(** X13: building a sample with [Effects.Random] raises
    [NotImplementedError], whatever the years, the noise setting and the
    state of the generator: the pool is never empty, and the table of the
    first individual asks for its slope. *)
Theorem sample_with_random_effects_raises (laws : GeneratorLaws F G)
    (start_year end_year : Z) (treatment_year : option Z) (nz : Noise.t)
    (g : G) :
  fst (Sample_init start_year end_year treatment_year Random nz g)
    = Raise NotImplementedError.
Proof.
  destruct (init_clusters_value laws g) as (c & rest & Ec & _).
  unfold Sample_init, bind at 1. rewrite Ec. unfold bind at 1.
  unfold _init_individuals. cbn [enumerate_from map].
  unfold _init_sample, bind at 1. cbn [mapM].
  unfold bind at 1. unfold bind at 1.
  unfold time_series, bind at 1, lift, slope. reflexivity.
Qed.

Lemma blocks_rows (laws : GeneratorLaws F G) start_year end_year inds
    (blocks : list (Z * DataFrame F)) :
  Forall2 (block_of start_year end_year) inds blocks ->
  length (Dependent (concat_frames blocks))
    = length inds * Z.to_nat (end_year - start_year).
Proof.
  induction 1 as [|ind b inds blocks [_ (g1 & g2 & Hts)] _ IH]; simpl;
    [reflexivity|].
  destruct (time_series_lengths laws _ _ _ _ _ Hts)
    as (_ & _ & _ & _ & _ & _ & _ & Ld).
  fold (concat_frames blocks). rewrite length_app, IH, Ld. reflexivity.
Qed.

(** X14: building a sample with [Effects.Fixed] succeeds, whatever the
    years (an empty range included), the treatment year, the noise setting
    and the state of the generator; the sample has between 9 and 27
    individuals, made from its clusters, which are seed clusters, and its
    table has one row per individual and year. *)
Theorem sample_with_fixed_effects_is_built (laws : GeneratorLaws F G)
    (start_year end_year : Z) (treatment_year : option Z) (nz : Noise.t)
    (g : G) :
  exists smp g',
    Sample_init start_year end_year treatment_year Fixed nz g
      = (Ok smp, g') /\
    individuals smp = _init_individuals Fixed nz (clusters smp) /\
    9 <= length (individuals smp) <= 27 /\
    Forall (fun c => In c seed_clusters) (clusters smp) /\
    length (Dependent (body (data smp)))
      = length (individuals smp) * Z.to_nat (end_year - start_year).
Proof.
  destruct (sample_fixed_ok laws start_year end_year treatment_year nz g)
    as (smp & g' & E).
  exists smp, g'. split; [exact E|].
  destruct (sample_init_inv _ _ _ _ _ _ E) as (g1 & blocks & Ec & Hi & Hb & Hc).
  split; [exact Hi|].
  split.
  { destruct (init_clusters_value laws g) as (c & rest & Ec' & Hlen).
    rewrite Ec in Ec'. inversion Ec' as [[Hcl Hg]].
    rewrite Hi, Hcl, individuals_length. simpl. lia. }
  split; [exact (pool_of_seed_clusters _ Ec)|].
  rewrite (pd_concat_body _ Hc). apply (blocks_rows laws Hb).
Qed.

(** X15: a sample does not depend on the state the global generator is in
    when it is built, and neither does the state the construction leaves
    behind: the first draw follows a reseeding, as every later one does. *)
Theorem sample_ignores_generator_state (start_year end_year : Z)
    (treatment_year : option Z) (effects : Effects) (nz : Noise.t)
    (g1 g2 : G) :
  Sample_init start_year end_year treatment_year effects nz g1
    = Sample_init start_year end_year treatment_year effects nz g2.
Proof.
  unfold Sample_init, bind at 1 3.
  rewrite (init_clusters_stateless g1 g2). reflexivity.
Qed.

(** *** The rows of the sample

    The rows are the pairs of an individual and a year, individual by
    individual; each column is a function of the pair. *)

Lemma blocks_columns start_year end_year inds
    (blocks : list (Z * DataFrame F)) :
  Forall2 (block_of start_year end_year) inds blocks ->
  let L := list_prod inds (range start_year end_year) in
  let t0 := default_treatment_year start_year end_year in
  flat_map (fun b => repeat (fst b) (length (Year (snd b)))) blocks
    = map (fun x => identifier (fst x)) L /\
  Year (concat_frames blocks) = map snd L /\
  Post (concat_frames blocks) = map (fun x => (t0 <=? snd x)%Z) L /\
  Treatment (concat_frames blocks)
    = map (fun x => Z.land (Z.b2z (t0 <=? snd x)%Z)
                      (PropertyDummy.value (property_dummy (cluster (fst x)))))
        L /\
  Slope (concat_frames blocks) = map (fun _ => lit 1) L /\
  Intercept (concat_frames blocks)
    = map (fun x => PropertyAlpha.value (property_alpha (cluster (fst x)))) L.
Proof.
  intros Hb L t0. subst L.
  induction Hb as [|ind b inds blocks [Hk (g1 & g2 & Hts)] _ IH]; simpl.
  - repeat split; reflexivity.
  - destruct IH as (I1 & I2 & I3 & I4 & I5 & I6).
    apply time_series_inv in Hts.
    destruct Hts as (sl & ic & fei & g3 & Hsl & Hic & _ & Hy & Hp & Ht & Hs
                     & Hi & _).
    unfold slope in Hsl. unfold intercept in Hic.
    destruct (effects_type ind); [|discriminate].
    inversion Hsl; subst sl. inversion Hic; subst ic.
    rewrite !map_app, !map_map. simpl.
    rewrite I1, I2, I3, I4, I5, I6, Hy, Ht, Hp, Hs, Hi, Hk.
    rewrite !map_map, <- !map_const, map_id.
    repeat split; reflexivity.
Qed.

Lemma pd_concat_level (blocks : list (Z * DataFrame F)) p :
  pd_concat blocks = Ok p ->
  Individual_level p
    = flat_map (fun b => repeat (fst b) (length (Year (snd b)))) blocks.
Proof.
  unfold pd_concat. destruct blocks; [discriminate|].
  intros E; inversion E; subst. reflexivity.
Qed.

Lemma iloc_columns (df : DataFrame F) i r :
  iloc df i = Some r ->
  nth_error (Year df) i = Some (r_Year r) /\
  nth_error (Post df) i = Some (r_Post r) /\
  nth_error (Treatment df) i = Some (r_Treatment r) /\
  nth_error (Slope df) i = Some (r_Slope r) /\
  nth_error (Intercept df) i = Some (r_Intercept r).
Proof.
  unfold iloc.
  destruct (nth_error (Year df) i); [|discriminate].
  destruct (nth_error (Post df) i); [|discriminate].
  destruct (nth_error (Treatment df) i); [|discriminate].
  destruct (nth_error (Slope df) i); [|discriminate].
  destruct (nth_error (Intercept df) i); [|discriminate].
  destruct (nth_error (FixedEffectIndividual df) i); [|discriminate].
  destruct (nth_error (FixedEffectTime df) i); [|discriminate].
  destruct (nth_error (Dependent df) i); [|discriminate].
  intros E; inversion E; subst; simpl. auto.
Qed.

(** X16: the index of [sample.data] is the product of the identifiers
    0, 1, ... and the years of [range(start_year, end_year)], the identifier
    varying slowest: there is exactly one row for each individual and each
    year, and no pair occurs twice. *)
Theorem sample_index_is_a_product (start_year end_year : Z)
    (treatment_year : option Z) (effects : Effects) (nz : Noise.t)
    (g g' : G) (smp : Sample) :
  Sample_init start_year end_year treatment_year effects nz g
    = (Ok smp, g') ->
  let index := combine (Individual_level (data smp))
                 (Year (body (data smp))) in
  index = list_prod (range 0 (Z.of_nat (length (individuals smp))))
            (range start_year end_year) /\
  NoDup index /\
  length index
    = length (individuals smp) * Z.to_nat (end_year - start_year).
Proof.
  intros E index.
  destruct (sample_init_inv _ _ _ _ _ _ E) as (g1 & blocks & Ec & Hi & Hb & Hc).
  assert (Hix : index = list_prod (range 0 (Z.of_nat (length (individuals smp))))
                          (range start_year end_year)).
  { unfold index. rewrite (pd_concat_body _ Hc), (pd_concat_level _ Hc).
    destruct (blocks_columns Hb) as (I1 & I2 & _).
    rewrite I1, I2, combine_maps, prod_map_fst.
    rewrite Hi at 1. rewrite individuals_identifiers.
    rewrite Hi, individuals_length. reflexivity. }
  split; [exact Hix|]. rewrite Hix. split.
  - apply nodup_prod; apply range_nodup.
  - rewrite length_prod, !range_length. f_equal. lia.
Qed.

Lemma seed_cluster_cases c :
  In c seed_clusters ->
  (property_alpha c = PropertyAlpha.A /\
   property_dummy c = PropertyDummy.TRUE) \/
  (property_alpha c = PropertyAlpha.B /\
   property_dummy c = PropertyDummy.FALSE).
Proof.
  simpl. intros [<-|[<-|[<-|[]]]]; simpl; auto.
Qed.

(** X17: in every row of [sample.data], [Year] is a year of the range,
    [Post] tells whether it has reached the default treatment year, [Slope]
    is 1.0, and the row is of one of two kinds: [Intercept] is 2 and
    [Treatment] is [Post] as 0 or 1 (the individuals of the two seed clusters
    whose dummy is [TRUE]), or [Intercept] is 3 and [Treatment] is 0 (those
    of the third).  No treated row has intercept 3. *)
Theorem sample_rows_by_cluster (start_year end_year : Z)
    (treatment_year : option Z) (effects : Effects) (nz : Noise.t)
    (g g' : G) (smp : Sample) :
  Sample_init start_year end_year treatment_year effects nz g
    = (Ok smp, g') ->
  forall i r, iloc (body (data smp)) i = Some r ->
    (start_year <= r_Year r < end_year)%Z /\
    r_Post r = (default_treatment_year start_year end_year <=? r_Year r)%Z /\
    r_Slope r = lit 1 /\
    ((r_Intercept r = 2%Z /\ r_Treatment r = Z.b2z (r_Post r)) \/
     (r_Intercept r = 3%Z /\ r_Treatment r = 0%Z)).
Proof.
  intros E i r Hr.
  destruct (sample_init_inv _ _ _ _ _ _ E) as (g1 & blocks & Ec & Hi & Hb & Hc).
  rewrite (pd_concat_body _ Hc) in Hr.
  apply iloc_columns in Hr. destruct Hr as (Ry & Rp & Rt & Rs & Rc).
  destruct (blocks_columns Hb) as (_ & I2 & I3 & I4 & I5 & I6).
  rewrite I2 in Ry. rewrite I3 in Rp. rewrite I4 in Rt. rewrite I5 in Rs.
  rewrite I6 in Rc. rewrite nth_error_map in Ry, Rp, Rt, Rs, Rc.
  destruct (nth_error (list_prod (individuals smp)
                         (range start_year end_year)) i)
    as [[ind y]|] eqn:Ex; [|discriminate].
  simpl in Ry, Rp, Rt, Rs, Rc.
  injection Ry as Hy. injection Rp as Hp. injection Rt as Ht.
  injection Rs as Hs. injection Rc as Hc'.
  rewrite <- Ht, <- Hs, <- Hc', <- Hp, <- Hy. clear Ht Hs Hc' Hp Hy.
  apply nth_error_In in Ex. apply in_prod_iff in Ex. destruct Ex as [Hin Hyr].
  apply in_range in Hyr.
  split; [exact Hyr|]. split; [reflexivity|]. split; [reflexivity|].
  assert (Hcl : In (cluster ind) seed_clusters).
  { pose proof (pool_of_seed_clusters _ Ec) as Hpool.
    rewrite Forall_forall in Hpool. apply Hpool.
    rewrite <- (individuals_clusters effects nz (clusters smp)), <- Hi.
    apply in_map. exact Hin. }
  destruct (seed_cluster_cases Hcl) as [[Ha Hd]|[Ha Hd]];
    rewrite Ha, Hd; simpl.
  - left. split; [reflexivity|].
    destruct (default_treatment_year start_year end_year <=? y)%Z;
      reflexivity.
  - right. split; [reflexivity|].
    destruct (default_treatment_year start_year end_year <=? y)%Z;
      reflexivity.
Qed.

End Generator.

End SampleFacts.

(** ** The demeaning of the driver, further *)

Module DemeanFacts.
Import Panel PanelFacts DriverFacts.

(** *** On any series *)

Section AnySeries.

Context {F : Type} `{Float F}.

Lemma group_rows_of_row (level : Z * Z -> Z) (s : Series (F:=F))
    (r : (Z * Z) * F) :
  In r s -> group_rows level (level (fst r)) s <> [].
Proof.
  intros Hin E.
  assert (Hr : In r (group_rows level (level (fst r)) s)).
  { unfold group_rows. apply filter_In. split; [exact Hin|].
    apply Z.eqb_refl. }
  rewrite E in Hr. contradiction.
Qed.

(** Subtracting the group means of [s] from a series whose keys all occur
    in [s]. *)
Lemma subtract_group_means (level : Z * Z -> Z) (s : Series (F:=F)) :
  forall t : Series (F:=F),
  (forall r, In r t -> exists r', In r' s /\ level (fst r') = level (fst r)) ->
  subtract_level level t (groupby_mean level s) =
    Some (map (fun r =>
                 (fst r,
                  fsub (snd r)
                    (series_mean (group_rows level (level (fst r)) s))))
              t).
Proof.
  unfold subtract_level.
  induction t as [|r t IH]; intros Hk; simpl; [reflexivity|].
  destruct (Hk r (or_introl eq_refl)) as (r' & Hin & Hl).
  pose proof (find_groupby level s _ (group_rows_of_row level s r' Hin))
    as Hf.
  rewrite Hl in Hf. rewrite Hf. simpl.
  rewrite IH by (intros r0 Hr0; apply Hk; right; exact Hr0).
  reflexivity.
Qed.

(** X18: on a series with a unique index the block of the driver never
    meets a missing value, and it computes, row by row and with the index
    kept: the individual-demeaned series as the value minus the mean of the
    rows of the same individual, the time-demeaned series as the value minus
    the mean of the rows of the same year, and the two-way series as the
    value minus the first, minus the second, minus the mean of all rows, in
    this order, the three means being those of the series itself. *)
Theorem demean_row_by_row (s : Series (F:=F)) :
  NoDup (map fst s) ->
  let mu r := series_mean (group_rows by_Individual (by_Individual (fst r)) s) in
  let nu r := series_mean (group_rows by_Year (by_Year (fst r)) s) in
  demean s =
    Some {| mean_individual := groupby_mean by_Individual s;
            mean_time := groupby_mean by_Year s;
            mean := series_mean s;
            sample_individual :=
              map (fun r => (fst r, fsub (snd r) (mu r))) s;
            sample_time := map (fun r => (fst r, fsub (snd r) (nu r))) s;
            sample_twfe :=
              map (fun r =>
                     (fst r,
                      fsub (fsub (fsub (snd r) (mu r)) (nu r))
                        (series_mean s)))
                  s |}.
Proof.
  intros _ mu nu. unfold demean.
  rewrite (subtract_group_means by_Individual s s)
    by (intros r Hr; exists r; auto).
  cbn [obind].
  rewrite (subtract_group_means by_Year s s)
    by (intros r Hr; exists r; auto).
  cbn [obind].
  rewrite (subtract_group_means by_Year s).
  - cbn [obind]. unfold subtract_scalar. rewrite !map_map. reflexivity.
  - intros r Hr. apply in_map_iff in Hr. destruct Hr as (r0 & <- & Hr0).
    exists r0. auto.
Qed.

Lemma sorted_strict (l : list Z) :
  Sorted (fun a b => Z.leb a b = true) l -> NoDup l -> Sorted Z.lt l.
Proof.
  induction 1 as [|a l Hs IH Hhd]; intros Hnd; constructor.
  - apply IH. inversion Hnd; assumption.
  - inversion Hnd as [|? ? Hnotin _]; subst.
    destruct Hhd as [|b l Hab]; constructor.
    apply Z.leb_le in Hab.
    assert (a <> b) by (intros ->; apply Hnotin; left; reflexivity). lia.
Qed.

(** X19: [groupby(level).mean()] has one entry for each key that occurs in
    the series and no other, the keys in strictly ascending order, and the
    entry of a key is the mean of the rows with that key; an empty series
    has no entry. *)
Theorem groupby_mean_keys (level : Z * Z -> Z) (s : Series (F:=F)) :
  let keys := map fst (groupby_mean level s) in
  Sorted Z.lt keys /\
  (forall k, In k keys <-> exists r, In r s /\ level (fst r) = k) /\
  (forall k v, In (k, v) (groupby_mean level s) ->
     v = series_mean (group_rows level k s) /\ group_rows level k s <> []) /\
  (s = [] -> groupby_mean level s = []).
Proof.
  intros keys.
  set (raw := nodup Z.eq_dec (map (fun r => level (fst r)) s)).
  assert (Hkeys : keys = sort Z.leb raw).
  { unfold keys, groupby_mean. rewrite map_map. apply map_id. }
  assert (Hin : forall k, In k keys <-> exists r, In r s /\ level (fst r) = k).
  { intros k. rewrite Hkeys. split.
    - intros Hk.
      apply (Permutation_in _ (Permutation_sym (sort_perm Z.leb raw))) in Hk.
      apply nodup_In, in_map_iff in Hk. destruct Hk as (r & E & Hr). eauto.
    - intros (r & Hr & E).
      apply (Permutation_in _ (sort_perm Z.leb raw)). apply nodup_In.
      rewrite <- E. apply (in_map (fun r => level (fst r))). exact Hr. }
  split.
  { rewrite Hkeys. apply sorted_strict.
    - apply (sort_sorted Z.leb Zleb_total).
    - apply (Permutation_NoDup (sort_perm Z.leb raw)). apply NoDup_nodup. }
  split; [exact Hin|]. split.
  - intros k v Hkv.
    assert (Hk : In k keys) by (apply (in_map fst) in Hkv; exact Hkv).
    unfold groupby_mean in Hkv. apply in_map_iff in Hkv.
    destruct Hkv as (k' & E & _). inversion E; subst k' v.
    split; [reflexivity|].
    apply Hin in Hk. destruct Hk as (r & Hr & <-).
    apply group_rows_of_row. exact Hr.
  - intros ->. reflexivity.
Qed.

End AnySeries.

(** *** Means of the derived series of a balanced panel *)

Section PanelMeans.

Import Exact.
Local Open Scope Qc_scope.

Lemma total_map_add {A} (f h : A -> Qc) (l : list A) :
  total (map (fun x => f x + h x) l) = total (map f l) + total (map h l).
Proof.
  induction l as [|x l IH]; simpl.
  - rewrite total_nil. ring.
  - rewrite !total_cons, IH. ring.
Qed.

Lemma total_zip_minus : forall vs ws : list Qc,
  length ws = length vs ->
  total (zip_with Qcminus vs ws) = total vs - total ws.
Proof.
  unfold zip_with.
  induction vs as [|v vs IH]; intros [|w ws] E; simpl in *;
    try discriminate.
  - rewrite total_nil. ring.
  - rewrite !total_cons, IH by lia. ring.
Qed.

Lemma by_position {A} (d : A) (l : list A) :
  map (fun k => nth k l d) (seq 0 (length l)) = l.
Proof.
  induction l as [|a l IH]; simpl; [reflexivity|].
  rewrite <- seq_shift, map_map. simpl. rewrite IH. reflexivity.
Qed.

(** Summing a panel year by year is summing it individual by individual. *)
Lemma total_by_year (n : nat) (P : list (Z * list Qc)) :
  Forall (fun b => length (snd b) = n) P ->
  total (map (fun k => total (column 0 k P)) (seq 0 n))
    = total (concat (map snd P)).
Proof.
  induction 1 as [|b P Hb _ IH]; simpl.
  - rewrite (total_map_const (total [])), !total_nil. ring.
  - rewrite (map_ext _ (fun k => nth k (snd b) 0 + total (column 0 k P)))
      by (intros k; apply total_cons).
    rewrite total_map_add, IH, total_app. f_equal.
    rewrite <- Hb, by_position. reflexivity.
Qed.

Lemma natQ_zero : natQ 0 = 0.
Proof. apply Qc_is_canon. reflexivity. Qed.

Section Balanced.

Variable years : list Z.
Variable P : list (Z * list Qc).
Hypothesis Hbal : balanced years P.
Hypothesis HP : P <> [].
Hypothesis Hy : years <> [].

Let s := panel_series years P.
Let mu (i : Z) := series_mean (group_rows by_Individual i s).
Let nu (t : Z) := series_mean (group_rows by_Year t s).
Let m := series_mean s.

Lemma nonzero_individuals : natQ (length P) <> 0.
Proof. apply natQ_nonzero. destruct P; [contradiction|discriminate]. Qed.

Lemma nonzero_years : natQ (length years) <> 0.
Proof. apply natQ_nonzero. destruct years; [contradiction|discriminate]. Qed.

Lemma width_of b : In b P -> length (snd b) = length years.
Proof.
  destruct Hbal as [_ _ Hw]. rewrite Forall_forall in Hw. apply Hw.
Qed.

Lemma mu_is_mean b : In b P -> mu (fst b) = mean_of (snd b).
Proof.
  intros Hb. exact (proj2 (@individual_entry years P b Hbal Hy Hb)).
Qed.

Lemma grand_mean_value : m = mean_of (concat (map snd P)).
Proof.
  unfold m, s, series_mean. destruct Hbal as [_ _ Hw].
  rewrite panel_values by exact Hw. reflexivity.
Qed.

Lemma nu_by_position :
  map nu years = map (fun k => mean_of (column 0 k P)) (seq 0 (length years)).
Proof.
  rewrite <- (by_position 0%Z years) at 1. rewrite map_map.
  apply map_ext_in. intros k Hk. apply in_seq in Hk.
  assert (Hn : nth_error years k = Some (nth k years 0%Z))
    by (apply nth_error_nth'; lia).
  exact (proj2 (@year_entry years P k _ Hbal HP Hn)).
Qed.

(** The mean of the year means is the grand mean. *)
Lemma mean_of_year_means : mean_of (map nu years) = m.
Proof.
  rewrite nu_by_position, grand_mean_value.
  destruct Hbal as [_ _ Hw].
  assert (Hlen : length (concat (map snd P))
                 = (length P * length years)%nat).
  { clear - Hw. induction Hw as [|b Q Hb _ IH]; simpl; [reflexivity|].
    rewrite length_app, IH, Hb. reflexivity. }
  rewrite !mean_of_eq, Hlen, natQ_mul, length_map, length_seq.
  rewrite (map_ext _ (fun k => total (column 0 k P) / natQ (length P))).
  - rewrite (total_map_div (fun k => total (column 0 k P))).
    rewrite (total_by_year Hw).
    field. split; [apply nonzero_years | apply nonzero_individuals].
  - intros k. rewrite mean_of_eq. unfold column. rewrite length_map.
    reflexivity.
Qed.

(** The mean of the individual means is the grand mean. *)
Lemma mean_of_mu : mean_of (map (fun b => mu (fst b)) P) = m.
Proof.
  rewrite (map_ext_in _ (fun b => mean_of (snd b)))
    by (intros b Hb; apply mu_is_mean; exact Hb).
  rewrite grand_mean_value. destruct Hbal as [_ _ Hw].
  apply (mean_of_individual_means Hw HP Hy).
Qed.

Lemma mean_map_minus (c : Qc) (vs : list Qc) :
  vs <> [] -> mean_of (map (fun v => v - c) vs) = mean_of vs - c.
Proof.
  intros Hv. rewrite <- (map_id vs) at 2.
  apply (mean_less_constant (fun v => v) c Hv).
Qed.

Lemma mean_zip_minus (vs ws : list Qc) :
  length ws = length vs -> vs <> [] ->
  mean_of (zip_with Qcminus vs ws) = mean_of vs - mean_of ws.
Proof.
  intros E Hv. rewrite !mean_of_eq, zip_with_length, E, Nat.min_id.
  rewrite total_zip_minus by exact E. field.
  apply natQ_nonzero. destruct vs; [contradiction|discriminate].
Qed.

Lemma row_nonempty b : In b P -> snd b <> [].
Proof.
  intros Hb E. apply (f_equal (@length _)) in E.
  rewrite (width_of b Hb) in E. destruct years; [contradiction|discriminate].
Qed.

(** The means of one individual's rows in the three derived panels. *)
Lemma individual_mean_less_individual b :
  In b P -> mean_of (snd (less_individual mu b)) = 0.
Proof.
  intros Hb. unfold less_scalar, less_year, less_individual. cbn [snd fst]. rewrite mean_map_minus by (apply row_nonempty; exact Hb).
  rewrite (mu_is_mean b Hb). ring.
Qed.

Lemma individual_mean_less_year b :
  In b P -> mean_of (snd (less_year nu years b)) = mean_of (snd b) - m.
Proof.
  intros Hb. unfold less_scalar, less_year, less_individual. cbn [snd fst]. rewrite mean_zip_minus.
  - rewrite mean_of_year_means. reflexivity.
  - rewrite length_map. symmetry. apply width_of. exact Hb.
  - apply row_nonempty. exact Hb.
Qed.

Lemma individual_mean_twfe b :
  In b P ->
  mean_of (snd (less_scalar m (less_year nu years (less_individual mu b))))
    = 0 - m - m.
Proof.
  intros Hb. unfold less_scalar, less_year, less_individual. cbn [snd fst].
  assert (Hne : map (fun v => v - mu (fst b)) (snd b) <> []).
  { intros E. apply map_eq_nil in E. exact (row_nonempty b Hb E). }
  rewrite mean_map_minus.
  - rewrite mean_zip_minus.
    + rewrite mean_of_year_means, mean_map_minus
        by (apply row_nonempty; exact Hb).
      rewrite (mu_is_mean b Hb). ring.
    + rewrite !length_map. symmetry. apply width_of. exact Hb.
    + exact Hne.
  - intros E. apply (f_equal (@length _)) in E.
    rewrite zip_with_length, !length_map, (width_of b Hb), Nat.min_id in E.
    destruct years; [contradiction|discriminate].
Qed.

(** The grand mean of a panel with the same shape, from the means of its
    individuals. *)
Lemma grand_mean_of_means (f : Z * list Qc -> Z * list Qc) :
  (forall b, In b P -> length (snd (f b)) = length years) ->
  series_mean (panel_series years (map f P))
    = mean_of (map (fun b => mean_of (snd (f b))) P).
Proof.
  intros Hw.
  assert (Hw' : Forall (fun b => length (snd b) = length years) (map f P)).
  { rewrite Forall_map. apply Forall_forall. exact Hw. }
  unfold series_mean. rewrite panel_values by exact Hw'.
  rewrite <- (mean_of_individual_means Hw'); [|
    destruct P; [contradiction|discriminate] | exact Hy].
  rewrite map_map. reflexivity.
Qed.

Lemma mean_of_constant {A} (c : Qc) (l : list A) :
  l <> [] -> mean_of (map (fun _ => c) l) = c.
Proof.
  intros Hl. rewrite mean_of_eq, total_map_const, length_map. field.
  apply natQ_nonzero. destruct l; [contradiction|discriminate].
Qed.

(** On a balanced panel: the means of the three derived series, within each
    individual and over all rows. *)
Lemma demeaned_means :
  exists d,
    demean s = Some d /\ mean d = m /\
    (forall b, In b P ->
       find_key (fst b) (mean_individual d) = Some (mu (fst b)) /\
       find_key (fst b) (groupby_mean by_Individual (sample_individual d))
         = Some 0 /\
       find_key (fst b) (groupby_mean by_Individual (sample_time d))
         = Some (mu (fst b) - m) /\
       find_key (fst b) (groupby_mean by_Individual (sample_twfe d))
         = Some (0 - m - m)) /\
    series_mean (sample_individual d) = 0 /\
    series_mean (sample_time d) = 0 /\
    series_mean (sample_twfe d) = 0 - m - m.
Proof.
  eexists. split; [apply (demean_panel Hbal HP Hy)|].
  cbn [mean mean_individual sample_individual sample_time sample_twfe].
  fold s. fold m. fold mu. fold nu.
  split; [reflexivity|].
  pose proof (balanced_less_individual mu Hbal) as B1.
  pose proof (balanced_less_year nu Hbal) as B2.
  pose proof (balanced_less_scalar m (balanced_less_year nu B1)) as B3.
  split.
  - intros b Hb. repeat split.
    + exact (proj1 (@individual_entry years P b Hbal Hy Hb)).
    + destruct (@individual_entry years _ (less_individual mu b) B1 Hy
                  (in_map _ _ _ Hb)) as [E1 E2].
      cbn [fst less_individual] in E1, E2 |- *.
      rewrite E1, E2. f_equal.
      apply (individual_mean_less_individual b Hb).
    + destruct (@individual_entry years _ (less_year nu years b) B2 Hy
                  (in_map _ _ _ Hb)) as [E1 E2].
      cbn [fst less_year] in E1, E2 |- *.
      rewrite E1, E2. f_equal.
      rewrite (mu_is_mean b Hb).
      apply (individual_mean_less_year b Hb).
    + assert (Hin : In (less_scalar m (less_year nu years (less_individual mu b)))
                       (map (less_scalar m)
                          (map (less_year nu years)
                             (map (less_individual mu) P)))).
      { apply in_map, in_map, in_map. exact Hb. }
      destruct (@individual_entry years _ _ B3 Hy Hin) as [E1 E2].
      cbn [fst less_scalar less_year less_individual] in E1, E2 |- *.
      rewrite E1, E2. f_equal.
      apply (individual_mean_twfe b Hb).
  - split; [|split].
    + rewrite grand_mean_of_means.
      * rewrite (map_ext_in _ (fun _ => 0))
          by (intros b Hb; apply (individual_mean_less_individual b Hb)).
        apply (mean_of_constant 0 HP).
      * intros b Hb. simpl. rewrite length_map. apply width_of. exact Hb.
    + rewrite grand_mean_of_means.
      * rewrite (map_ext_in _ (fun b => mean_of (snd b) - m))
          by (intros b Hb; apply (individual_mean_less_year b Hb)).
        rewrite (mean_less_constant (fun b => mean_of (snd b)) m HP).
        rewrite <- (map_ext_in _ _ _ (fun b Hb => mu_is_mean b Hb)).
        rewrite mean_of_mu. ring.
      * intros b Hb. simpl. rewrite zip_with_length, length_map.
        rewrite (width_of b Hb). apply Nat.min_id.
    + rewrite !map_map. rewrite grand_mean_of_means.
      * rewrite (map_ext_in _ (fun _ => 0 - m - m))
          by (intros b Hb; apply (individual_mean_twfe b Hb)).
        apply (mean_of_constant (0 - m - m) HP).
      * intros b Hb. simpl.
        rewrite length_map, zip_with_length, !length_map.
        rewrite (width_of b Hb). apply Nat.min_id.
Qed.

End Balanced.

End PanelMeans.

(** *** Means of the derived series of the sample *)

Section OfTheSample.

Import Exact.
Local Open Scope Qc_scope.

Context {G : Type} `{Generator Qc G}.

(** The column [Dependent] of a sample as a balanced panel, its blocks
    keyed by the identifiers of the individuals. *)
Lemma sample_panel (laws : GeneratorLaws Qc G)
    start_year end_year treatment_year effects nz (g g' : G) smp :
  Sample_init start_year end_year treatment_year effects nz g
    = (Ok smp, g') ->
  exists P,
    Dependent_of (data smp) = panel_series (range start_year end_year) P /\
    balanced (range start_year end_year) P /\ P <> [] /\
    map fst P = map identifier (individuals smp).
Proof.
  intros E.
  destruct (SampleFacts.sample_init_inv _ _ _ _ _ _ E)
    as (g1 & blocks & Ec & Hi & Hb & Hc).
  destruct (blocks_series laws Hb) as [Hs Hw].
  assert (Hk : map fst (map (fun b => (fst b, Dependent (snd b))) blocks)
               = map identifier (individuals smp)).
  { rewrite map_map. rewrite (map_ext _ fst) by reflexivity.
    apply (blocks_keys Hb). }
  exists (map (fun b => (fst b, Dependent (snd b))) blocks).
  split.
  { unfold Dependent_of.
    rewrite (pd_concat_body _ Hc), (SampleFacts.pd_concat_level _ Hc).
    exact Hs. }
  split.
  { constructor; [|apply range_nodup|exact Hw].
    rewrite Hk, Hi, SampleFacts.individuals_identifiers.
    apply range_nodup. }
  split; [|exact Hk].
  unfold pd_concat in Hc. destruct blocks; discriminate.
Qed.

Lemma range_nonempty a b : (a < b)%Z -> range a b <> [].
Proof.
  intros Hab E. apply (f_equal (@length _)) in E.
  rewrite range_length in E. simpl in E. lia.
Qed.

(** X20: in a sample over at least one year, within every individual the
    individual-demeaned series has mean zero, the time-demeaned series has
    the individual's mean minus the grand mean, and the two-way series has
    minus twice the grand mean: the two-way series is not centred within
    individuals. *)
Theorem demeaned_means_within_individuals (laws : GeneratorLaws Qc G)
    (start_year end_year : Z) (treatment_year : option Z)
    (effects : Effects) (nz : Noise.t) (g g' : G) (smp : Sample) :
  Sample_init start_year end_year treatment_year effects nz g
    = (Ok smp, g') ->
  (start_year < end_year)%Z ->
  exists d,
    demean (Dependent_of (data smp)) = Some d /\
    forall ind, In ind (individuals smp) ->
      exists mi,
        find_key (identifier ind) (mean_individual d) = Some mi /\
        find_key (identifier ind)
          (groupby_mean by_Individual (sample_individual d)) = Some 0 /\
        find_key (identifier ind)
          (groupby_mean by_Individual (sample_time d))
          = Some (mi - mean d) /\
        find_key (identifier ind)
          (groupby_mean by_Individual (sample_twfe d))
          = Some (0 - mean d - mean d).
Proof.
  intros E Hlt.
  destruct (sample_panel laws _ _ _ _ _ _ E) as (P & -> & Hbal & HP & Hk).
  destruct (demeaned_means Hbal HP (range_nonempty Hlt))
    as (d & Hd & Hm & Hind & _).
  exists d. split; [exact Hd|].
  intros ind Hin.
  assert (Hid : In (identifier ind) (map fst P))
    by (rewrite Hk; apply in_map; exact Hin).
  apply in_map_iff in Hid. destruct Hid as (b & Hfst & Hb).
  destruct (Hind b Hb) as (H1 & H2 & H3 & H4).
  rewrite Hfst in H1, H2, H3, H4. rewrite Hm. eauto.
Qed.

(** X21: in a sample over at least one year, the mean over all rows is zero
    for the individual-demeaned and for the time-demeaned series, and minus
    twice the grand mean of [Dependent] for the two-way series. *)
Theorem demeaned_grand_means (laws : GeneratorLaws Qc G)
    (start_year end_year : Z) (treatment_year : option Z)
    (effects : Effects) (nz : Noise.t) (g g' : G) (smp : Sample) :
  Sample_init start_year end_year treatment_year effects nz g
    = (Ok smp, g') ->
  (start_year < end_year)%Z ->
  exists d,
    demean (Dependent_of (data smp)) = Some d /\
    mean d = series_mean (Dependent_of (data smp)) /\
    series_mean (sample_individual d) = 0 /\
    series_mean (sample_time d) = 0 /\
    series_mean (sample_twfe d) = 0 - mean d - mean d.
Proof.
  intros E Hlt.
  destruct (sample_panel laws _ _ _ _ _ _ E) as (P & -> & Hbal & HP & Hk).
  destruct (demeaned_means Hbal HP (range_nonempty Hlt))
    as (d & Hd & Hm & _ & H1 & H2 & H3).
  exists d. rewrite Hm. auto.
Qed.

End OfTheSample.

End DemeanFacts.


(** ** The effects of the individuals, in exact arithmetic *)

Module EffectFacts.
Import Panel PanelFacts Exact.

Local Open Scope Qc_scope.

Lemma parallel_columns (x y : Qc) : forall (A : list Qc) n (fet : list Qc),
  Forall2 (fun d1 d2 => d1 - d2 = x - y)
    (zip_with Qcplus (zip_with Qcplus A (repeat x n)) fet)
    (zip_with Qcplus (zip_with Qcplus A (repeat y n)) fet).
Proof.
  unfold zip_with.
  induction A as [|a A IH]; intros n fet; simpl; [constructor|].
  destruct n as [|n]; simpl; [constructor|].
  destruct fet as [|f fet]; simpl; constructor; [ring|apply IH].
Qed.

Lemma tenth : fmul (lit 1) (lit (1 # 10)) = lit (1 # 10).
Proof. apply Qc_is_canon. reflexivity. Qed.

Section Generator.

Context {G : Type} `{Generator Qc G}.

(** X22: without noise, two individuals whose clusters have the same alpha
    and the same dummy move in parallel: over the same years and treatment
    year, the difference of their [Dependent] values is the same in every
    row, namely the difference of their individual fixed effects. *)
Theorem same_cluster_individuals_move_in_parallel
    (self1 self2 : Individual) (start_year end_year : Z)
    (treatment_year : option Z) (g1 g1' g2 g2' : G)
    (df1 df2 : DataFrame Qc) :
  time_series self1 start_year end_year treatment_year g1 = (Ok df1, g1') ->
  time_series self2 start_year end_year treatment_year g2 = (Ok df2, g2') ->
  property_alpha (cluster self1) = property_alpha (cluster self2) ->
  property_dummy (cluster self1) = property_dummy (cluster self2) ->
  noise self1 = Noise.FALSE -> noise self2 = Noise.FALSE ->
  exists fei1 fei2,
    FixedEffectIndividual df1 = repeat fei1 (length (Year df1)) /\
    FixedEffectIndividual df2 = repeat fei2 (length (Year df2)) /\
    Forall2 (fun d1 d2 => d1 - d2 = fei1 - fei2)
      (Dependent df1) (Dependent df2).
Proof.
  intros E1 E2 Ha Hd N1 N2.
  apply time_series_inv in E1, E2.
  destruct E1 as (sl1 & ic1 & fei1 & h1 & Hsl1 & Hic1 & _ & Hy1 & Hp1 & Ht1
                  & Hs1 & Hi1 & Hf1 & Hft1 & Hd1).
  destruct E2 as (sl2 & ic2 & fei2 & h2 & Hsl2 & Hic2 & _ & Hy2 & Hp2 & Ht2
                  & Hs2 & Hi2 & Hf2 & Hft2 & Hd2).
  rewrite N1 in Hd1. rewrite N2 in Hd2. cbn [Noise.value] in Hd1, Hd2.
  unfold slope in Hsl1, Hsl2. unfold intercept in Hic1, Hic2.
  destruct (effects_type self1); [|discriminate].
  destruct (effects_type self2); [|discriminate].
  inversion Hsl1; subst sl1. inversion Hsl2; subst sl2.
  inversion Hic1; subst ic1. inversion Hic2; subst ic2.
  rewrite time_fixed_effect_value in Hft1, Hft2.
  cbn [fst] in Hft1, Hft2. injection Hft1 as Hft1. injection Hft2 as Hft2.
  exists fei1, fei2.
  split; [rewrite Hy1; exact Hf1|]. split; [rewrite Hy2; exact Hf2|].
  rewrite Hd1, Hd2. unfold base_dependent.
  rewrite Hi1, Hi2, Hf1, Hf2, Hft1, Hft2, Ht1, Ht2, Hp1, Hp2, Ha, Hd.
  rewrite !length_map. cbn [fadd Qc_Float].
  apply parallel_columns.
Qed.

(** X23: the noise of the individual with identifier 0 is drawn after the
    same reseeding (with 0) as the time fixed effect.  With a generator
    whose draws between [-c] and [c] are [c] times its draws between -1 and
    1 (NumPy computes [low + (high - low) * u]), that noise is one tenth of
    the draws the time fixed effect is sorted from: row by row a
    rearrangement of one tenth of the column [FixedEffectTime]. *)
Theorem noise_of_individual_0_repeats_the_time_effect
    (scaling : forall (c : Qc) n (g : G),
       fst (uniform (fneg c) c n g)
         = map (Qcmult c) (fst (uniform (fneg (lit 1)) (lit 1) n g)))
    (self : Individual) (size : nat) (g1 g2 : G) :
  identifier self = 0%Z -> effects_type self = Fixed ->
  exists draws fet nz,
    fst (_get_time_fixed_effect self size g1) = Ok fet /\
    fst (_get_noise self size g2) = Ok nz /\
    fet = rev (sort fleb draws) /\
    nz = map (Qcmult (lit (1 # 10))) draws /\
    Permutation nz (map (Qcmult (lit (1 # 10))) fet).
Proof.
  intros Hid Hfix.
  exists (fst (uniform (fneg (lit 1)) (lit 1) size (seed 0))).
  eexists. eexists.
  rewrite time_fixed_effect_value.
  rewrite (noise_value self size g2 Hfix) by (rewrite Hid; simpl; lia).
  cbn [fst]. unfold noise_array. rewrite Hid.
  change (2 * 0)%Z with 0%Z.
  rewrite (scaling (fmul (lit 1) (lit (1 # 10)))), tenth.
  split; [reflexivity|]. split; [reflexivity|]. split; [reflexivity|].
  split; [reflexivity|].
  apply Permutation_map. rewrite <- Permutation_rev. apply sort_perm.
Qed.

End Generator.

End EffectFacts.

(** ** The further properties on the instance *)

Module InstanceFacts.
Import Panel PanelFacts DriverFacts Mt19937 Exact ExactFacts.
Import TableFacts SampleFacts DemeanFacts EffectFacts.

Local Open Scope Qc_scope.

(** An individual whose identifier is no seed. *)
Definition individual_minus_1 : Individual :=
  {| identifier := -1; cluster := hd_seed; effects_type := Fixed;
     noise := Noise.FALSE |}.

Lemma time_series_refuses_bad_seeds_witness :
  time_series (F:=Qc) individual_minus_1 2013 2017 None (mt19937_seed 1)
    = (Raise ValueError, mt19937_seed 1) /\
  exists df g',
    time_series (F:=Qc) individual_0 2013 2017 None (mt19937_seed 1)
      = (Ok df, g').
Proof.
  split.
  - apply (proj1 (time_series_refuses_bad_seeds individual_minus_1
                    2013 2017 None (mt19937_seed 1) eq_refl)).
    left. simpl. lia.
  - apply (proj2 (proj2 (proj2
             (time_series_refuses_bad_seeds individual_0
                2013 2017 None (mt19937_seed 1) eq_refl)))).
    simpl. lia.
Defined.

(** The table of individual 0 over 2013 to 2016, no treatment year given. *)
Lemma table_of_individual_0 :
  exists df g',
    time_series (F:=Qc) individual_0 2013 2017 None (mt19937_seed 1)
      = (Ok df, g').
Proof.
  apply (@time_series_ok Qc state _ _ individual_0 2013 2017 None
           (mt19937_seed 1)); [reflexivity|simpl; lia|simpl; lia].
Qed.

Lemma time_series_columns_witness :
  exists df g',
    time_series (F:=Qc) individual_0 2013 2017 None (mt19937_seed 1)
      = (Ok df, g') /\
    Year df = [2013; 2014; 2015; 2016]%Z /\
    length (Dependent df) = 4%nat /\
    Slope df = repeat (lit 1) 4 /\
    Intercept df = repeat 2%Z 4 /\
    alpha_label df = repeat "A"%string 4.
Proof.
  destruct table_of_individual_0 as (df & g' & E).
  exists df, g'. split; [exact E|].
  destruct (time_series_columns mt19937_laws individual_0 2013 2017 None
              (mt19937_seed 1) E)
    as (Hy & _ & Ld & Hs & Hi & _ & Ha & _).
  repeat split; assumption.
Defined.

Lemma post_is_a_step_witness :
  exists df g',
    time_series (F:=Qc) individual_0 2013 2017 None (mt19937_seed 1)
      = (Ok df, g') /\
    Post df = [false; false; true; true].
Proof.
  destruct table_of_individual_0 as (df & g' & E).
  exists df, g'. split; [exact E|].
  exact (proj1 (post_is_a_step individual_0 2013 2017 None
                  (mt19937_seed 1) E)).
Defined.

Lemma treatment_is_post_and_dummy_witness :
  exists df g',
    time_series (F:=Qc) individual_0 2013 2017 None (mt19937_seed 1)
      = (Ok df, g') /\
    Treatment df = map Z.b2z (Post df).
Proof.
  destruct table_of_individual_0 as (df & g' & E).
  exists df, g'. split; [exact E|].
  exact (proj1 (treatment_is_post_and_dummy individual_0 2013 2017 None
                  (mt19937_seed 1) E)).
Defined.

Lemma sample_with_random_effects_raises_witness :
  fst (Sample_init (F:=Qc) 2013 2022 (Some 2017%Z) Random Noise.TRUE
         (mt19937_seed 1))
    = Raise NotImplementedError.
Proof.
  exact (sample_with_random_effects_raises mt19937_laws 2013 2022
           (Some 2017%Z) Noise.TRUE (mt19937_seed 1)).
Defined.

Lemma sample_with_fixed_effects_is_built_witness :
  exists smp g',
    Sample_init (F:=Qc) 2013 2022 (Some 2017%Z) Fixed Noise.TRUE
      (mt19937_seed 1) = (Ok smp, g') /\
    individuals smp = _init_individuals Fixed Noise.TRUE (clusters smp) /\
    (9 <= length (individuals smp) <= 27)%nat /\
    Forall (fun c => In c seed_clusters) (clusters smp) /\
    length (Dependent (body (data smp)))
      = (length (individuals smp) * Z.to_nat (2022 - 2013))%nat.
Proof.
  exact (sample_with_fixed_effects_is_built mt19937_laws 2013 2022
           (Some 2017%Z) Noise.TRUE (mt19937_seed 1)).
Defined.

(** The sample of the driver. *)
Lemma sample_of_the_driver :
  exists smp g',
    Sample_init (F:=Qc) 2013 2022 (Some 2017%Z) Fixed Noise.TRUE
      (mt19937_seed 1) = (Ok smp, g').
Proof.
  exact (sample_fixed_ok mt19937_laws 2013 2022 (Some 2017%Z) Noise.TRUE
           (mt19937_seed 1)).
Qed.

Lemma sample_index_is_a_product_witness :
  exists smp g',
    Sample_init (F:=Qc) 2013 2022 (Some 2017%Z) Fixed Noise.TRUE
      (mt19937_seed 1) = (Ok smp, g') /\
    combine (Individual_level (data smp)) (Year (body (data smp)))
      = list_prod (range 0 (Z.of_nat (length (individuals smp))))
          (range 2013 2022) /\
    NoDup (combine (Individual_level (data smp)) (Year (body (data smp)))).
Proof.
  destruct sample_of_the_driver as (smp & g' & E).
  exists smp, g'. split; [exact E|].
  destruct (sample_index_is_a_product 2013 2022 (Some 2017%Z) Fixed
              Noise.TRUE (mt19937_seed 1) E) as (Hix & Hnd & _).
  split; assumption.
Defined.

Lemma sample_rows_by_cluster_witness :
  exists smp g',
    Sample_init (F:=Qc) 2013 2022 (Some 2017%Z) Fixed Noise.TRUE
      (mt19937_seed 1) = (Ok smp, g') /\
    forall i r, iloc (body (data smp)) i = Some r ->
      (2013 <= r_Year r < 2022)%Z /\
      r_Post r = (2018 <=? r_Year r)%Z /\
      r_Slope r = lit 1 /\
      ((r_Intercept r = 2%Z /\ r_Treatment r = Z.b2z (r_Post r)) \/
       (r_Intercept r = 3%Z /\ r_Treatment r = 0%Z)).
Proof.
  destruct sample_of_the_driver as (smp & g' & E).
  exists smp, g'. split; [exact E|].
  exact (sample_rows_by_cluster 2013 2022 (Some 2017%Z) Fixed Noise.TRUE
           (mt19937_seed 1) E).
Defined.

(** A series of three rows: two years of individual 0, one of individual
    1. *)
Definition three_rows : Series (F:=Qc) :=
  [ ((0, 2013)%Z, lit 1); ((0, 2014)%Z, lit 3); ((1, 2013)%Z, lit 5) ].

Lemma three_rows_unique : NoDup (map fst three_rows).
Proof.
  simpl. repeat constructor; simpl; intuition discriminate.
Qed.

Lemma demean_row_by_row_witness :
  exists d,
    demean three_rows = Some d /\
    map fst (sample_twfe d) = map fst three_rows /\
    mean d = series_mean three_rows.
Proof.
  eexists. split.
  - exact (demean_row_by_row three_rows three_rows_unique).
  - cbn [sample_twfe mean]. rewrite map_map. split; reflexivity.
Defined.

Lemma demeaned_means_within_individuals_witness :
  exists smp g' d,
    Sample_init (F:=Qc) 2013 2022 (Some 2017%Z) Fixed Noise.TRUE
      (mt19937_seed 1) = (Ok smp, g') /\
    demean (Dependent_of (data smp)) = Some d /\
    forall ind, In ind (individuals smp) ->
      exists mi,
        find_key (identifier ind) (mean_individual d) = Some mi /\
        find_key (identifier ind)
          (groupby_mean by_Individual (sample_individual d)) = Some 0 /\
        find_key (identifier ind)
          (groupby_mean by_Individual (sample_time d))
          = Some (mi - mean d) /\
        find_key (identifier ind)
          (groupby_mean by_Individual (sample_twfe d))
          = Some (0 - mean d - mean d).
Proof.
  destruct sample_of_the_driver as (smp & g' & E).
  assert (Hlt : (2013 < 2022)%Z) by lia.
  destruct (demeaned_means_within_individuals mt19937_laws (Some 2017%Z)
              Fixed Noise.TRUE (mt19937_seed 1) E Hlt) as (d & Hd & Hm).
  exists smp, g', d. auto.
Defined.

Lemma demeaned_grand_means_witness :
  exists smp g' d,
    Sample_init (F:=Qc) 2013 2022 (Some 2017%Z) Fixed Noise.TRUE
      (mt19937_seed 1) = (Ok smp, g') /\
    demean (Dependent_of (data smp)) = Some d /\
    series_mean (sample_individual d) = 0 /\
    series_mean (sample_time d) = 0 /\
    series_mean (sample_twfe d) = 0 - mean d - mean d.
Proof.
  destruct sample_of_the_driver as (smp & g' & E).
  assert (Hlt : (2013 < 2022)%Z) by lia.
  destruct (demeaned_grand_means mt19937_laws (Some 2017%Z)
              Fixed Noise.TRUE (mt19937_seed 1) E Hlt)
    as (d & Hd & _ & H1 & H2 & H3).
  exists smp, g', d. auto.
Defined.

Definition individual_8 : Individual :=
  {| identifier := 8; cluster := hd_seed; effects_type := Fixed;
     noise := Noise.FALSE |}.

(** Individuals 7 and 8, both of the first seed cluster and without noise. *)
Lemma same_cluster_individuals_move_in_parallel_witness :
  exists df1 df2 fei1 fei2,
    fst (time_series (F:=Qc) individual_7 2013 2017 None (mt19937_seed 1))
      = Ok df1 /\
    fst (time_series (F:=Qc) individual_8 2013 2017 None (mt19937_seed 1))
      = Ok df2 /\
    Forall2 (fun d1 d2 => d1 - d2 = fei1 - fei2)
      (Dependent df1) (Dependent df2).
Proof.
  destruct (@time_series_ok Qc state _ _ individual_7 2013 2017 None
              (mt19937_seed 1)) as (df1 & h1 & E1);
    [reflexivity|simpl; lia|simpl; lia|].
  destruct (@time_series_ok Qc state _ _ individual_8 2013 2017 None
              (mt19937_seed 1)) as (df2 & h2 & E2);
    [reflexivity|simpl; lia|simpl; lia|].
  destruct (same_cluster_individuals_move_in_parallel
              individual_7 individual_8 2013 2017 None
              (mt19937_seed 1) (mt19937_seed 1) E1 E2
              eq_refl eq_refl eq_refl eq_refl)
    as (fei1 & fei2 & _ & _ & Hpar).
  exists df1, df2, fei1, fei2.
  rewrite E1, E2. repeat split; try reflexivity. exact Hpar.
Defined.

Lemma fill_map {A B} (f : A -> B) (d1 : state -> B * state)
    (d2 : state -> A * state) :
  (forall st, d1 st = (f (fst (d2 st)), snd (d2 st))) ->
  forall n st,
    fill d1 n st = (map f (fst (fill d2 n st)), snd (fill d2 n st)).
Proof.
  intros Hd. induction n as [|n IH]; intros st; cbn [fill]; [reflexivity|].
  rewrite Hd. destruct (d2 st) as [x st1]. cbn [fst snd]. rewrite IH.
  destruct (fill d2 n st1). reflexivity.
Qed.

(** The instance draws between [-c] and [c] by scaling. *)
Lemma mt19937_scaling (c : Qc) n (g : state) :
  fst (uniform (fneg c) c n g)
    = map (Qcmult c) (fst (uniform (fneg (lit 1)) (lit 1) n g)).
Proof.
  cbn [uniform Mt19937_Generator].
  rewrite (fill_map (Qcmult c) (random_uniform (fneg c) c)
             (random_uniform (fneg (lit 1)) (lit 1))); [reflexivity|].
  intros st. unfold random_uniform.
  destruct (mt19937_next_double st) as [u st1].
  cbn [fst snd fadd fmul fsub fneg lit Qc_Float]. f_equal.
  change (Q2Qc 1) with 1. ring.
Qed.

Lemma noise_of_individual_0_repeats_the_time_effect_witness :
  exists draws fet nz,
    fst (_get_time_fixed_effect (F:=Qc) individual_0 4 (mt19937_seed 1))
      = Ok fet /\
    fst (_get_noise (F:=Qc) individual_0 4 (mt19937_seed 99)) = Ok nz /\
    fet = rev (sort fleb draws) /\
    nz = map (Qcmult (lit (1 # 10))) draws /\
    Permutation nz (map (Qcmult (lit (1 # 10))) fet).
Proof.
  exact (noise_of_individual_0_repeats_the_time_effect mt19937_scaling
           individual_0 4 (mt19937_seed 1) (mt19937_seed 99)
           eq_refl eq_refl).
Defined.

End InstanceFacts.
